(** * Assistant RSSI: a shallow embedding of [rssi.py]

    The retrieval pipeline ([lire_et_chunker_pdfs], [construire_index],
    [rechercher_passages]), the advisory feed ([get_alertes_certfr]), the
    conversation log ([sauvegarder_echange], [charger_historique_persistant])
    and the reading of the generation service's reply, with the properties
    the specification states about them.

    Python values are modelled as follows.
    - A [str] is the list of its Unicode code points.
    - An [int] is a [Z]; indices and slice bounds follow Python's rules
      for negative and out-of-range values.
    - A raised exception is the [Raise] branch of [res].
    - The embedding model, the distance the index computes in 32-bit
      floating point, the PDF reader, the parsed feed and the clock are
      outside the program: they are section variables or part of the
      input.
    - A file is what a UTF-8 decoder finds in it: characters, and bytes
      that are not valid. *)

From Stdlib Require Import Strings.String Strings.Ascii.
From Stdlib Require DecimalString.
From Stdlib Require Import List ZArith NArith QArith Lia Bool Arith.
From Stdlib Require Import Sorting.Sorted Sorting.Permutation.
Import ListNotations.

Set Implicit Arguments.
Open Scope Z_scope.

(** ** Python values *)

Module Py.

(** A Python [str]: its code points, in order. *)
Definition str := list N.

(** The code points of an ASCII literal. *)
Fixpoint lit (s : String.string) : str :=
  match s with
  | String.EmptyString => []
  | String.String c r => Ascii.N_of_ascii c :: lit r
  end.
Arguments lit s%_string.

Definition len {A} (l : list A) : Z := Z.of_nat (length l).

Fixpoint str_eqb (a b : str) : bool :=
  match a, b with
  | [], [] => true
  | x :: a', y :: b' => N.eqb x y && str_eqb a' b'
  | _, _ => false
  end.

(** The exceptions the program can meet. *)
Inductive exn :=
| IndexError
| ValueError
| AssertionError
| KeyError
| TypeError
| FileNotFoundError
| FileDataError
| AttributeError
| RecursionError
| JSONDecodeError
| UnicodeEncodeError
| UnicodeDecodeError.

Inductive res (A : Type) :=
| Ok (a : A)
| Raise (e : exn).
Arguments Ok {A} a.
Arguments Raise {A} e.

Definition bind {A B} (m : res A) (k : A -> res B) : res B :=
  match m with
  | Ok a => k a
  | Raise e => Raise e
  end.

Definition raises {A} (m : res A) : Prop := exists e, m = Raise e.

(** [s[i]] on a list: a negative index counts from the end, an index
    out of range raises [IndexError]. *)
Definition index {A} (l : list A) (i : Z) : res A :=
  let n := len l in
  let j := if i <? 0 then i + n else i in
  if (j <? 0) || (n <=? j) then Raise IndexError
  else match nth_error l (Z.to_nat j) with
       | Some x => Ok x
       | None => Raise IndexError
       end.

(** The bound of a slice, as [PySlice_AdjustIndices] computes it for a
    step of one. *)
Definition clamp (n i : Z) : Z :=
  if i <? 0 then Z.max (i + n) 0 else Z.min i n.

(** [s[i:j]]. *)
Definition slice {A} (s : list A) (i j : Z) : list A :=
  let n := len s in
  let a := clamp n i in
  let b := clamp n j in
  firstn (Z.to_nat (b - a)) (skipn (Z.to_nat a) s).

(** [s[:j]]. *)
Definition slice_to {A} (s : list A) (j : Z) : list A := slice s 0 j.

(** The number of elements of [range(start, stop, step)], [step <> 0]. *)
Definition range_len (start stop step : Z) : Z :=
  if 0 <? step then
    if start <? stop then (stop - start - 1) / step + 1 else 0
  else
    if stop <? start then (start - stop - 1) / (- step) + 1 else 0.

(** [range(start, stop, step)]; a zero step raises [ValueError]. *)
Definition range (start stop step : Z) : res (list Z) :=
  if step =? 0 then Raise ValueError
  else Ok (map (fun k => start + Z.of_nat k * step)
               (seq 0 (Z.to_nat (range_len start stop step)))).

(** [str.isspace] on one code point (CPython's [_PyUnicode_IsWhitespace]). *)
Definition isspace (c : N) : bool :=
  (((9 <=? c) && (c <=? 13)) || ((28 <=? c) && (c <=? 32))
   || (c =? 133) || (c =? 160) || (c =? 5760)
   || ((8192 <=? c) && (c <=? 8202))
   || (c =? 8232) || (c =? 8233) || (c =? 8239) || (c =? 8287)
   || (c =? 12288))%N.

Fixpoint lstrip (s : str) : str :=
  match s with
  | [] => []
  | c :: r => if isspace c then lstrip r else s
  end.

Definition rstrip (s : str) : str := rev (lstrip (rev s)).

(** [s.strip()]. *)
Definition strip (s : str) : str := rstrip (lstrip s).

(** [s.lower()] on the ASCII letters.  No other code point has a lower
    case made of ASCII characters among ['.'], ['p'], ['d'], ['f'], so the
    test [lower().endswith(".pdf")] is the same. *)
Definition lower_char (c : N) : N :=
  if ((65 <=? c) && (c <=? 90))%N then (c + 32)%N else c.

Definition lower (s : str) : str := map lower_char s.

(** [s.endswith(suffix)]. *)
Definition endswith (s suffix : str) : bool :=
  (length suffix <=? length s)%nat
  && str_eqb (skipn (length s - length suffix) s) suffix.

End Py.

Import Py.

Notation "x <- m ;; k" := (bind m (fun x => k))
  (at level 61, m at next level, right associativity).

(** ** The chunker: [lire_et_chunker_pdfs] *)

(** A page of an opened document: [page.get_text()] returns its text or
    raises. *)
Inductive page :=
| PageText (t : str)
| PageFailure.

(** What [fitz.open] finds at a path: a document with pages, or
    something it cannot open. *)
Inductive contenu :=
| Pdf (pages : list page)
| Illisible.

Record entree := { nom : str; fichier_contenu : contenu }.

(** The directory [dossier] as [os.listdir] sees it: its entries in
    listing order, or [None] when the directory cannot be listed. *)
Definition repertoire := option (list entree).

Definition get_text (p : page) : res str :=
  match p with
  | PageText t => Ok t
  | PageFailure => Raise FileDataError
  end.

Definition fitz_open (c : contenu) : res (list page) :=
  match c with
  | Pdf pages => Ok pages
  | Illisible => Raise FileDataError
  end.

(** Lines 40-42: [texte] accumulates the text of the pages. *)
Fixpoint lire_pages (pages : list page) (texte : str) : res str :=
  match pages with
  | [] => Ok texte
  | p :: rest => t <- get_text p ;; lire_pages rest (texte ++ t)
  end.

(** The state of the two result lists and the warnings shown so far. *)
Record etat := {
  chunks : list str;
  metadatas : list str;
  warnings : list (str * exn)
}.

(** Lines 46-49: one turn of the inner loop. *)
Definition ajouter_chunk (texte fichier : str) (taille_chunk : Z)
    (e : etat) (i : Z) : etat :=
  let chunk := slice texte i (i + taille_chunk) in
  if 0 <? len (strip chunk)
  then {| chunks := chunks e ++ [chunk];
          metadatas := metadatas e ++ [fichier];
          warnings := warnings e |}
  else e.

(** Lines 39-49: the body of the [try]. *)
Definition traiter_pdf (f : entree) (taille_chunk chevauchement : Z)
    (e : etat) : res etat :=
  doc <- fitz_open (fichier_contenu f) ;;
  texte <- lire_pages doc [] ;;
  r <- range 0 (len texte) (taille_chunk - chevauchement) ;;
  Ok (fold_left (ajouter_chunk texte (nom f) taille_chunk) r e).

(** Lines 35-52: one turn of the outer loop, with its [except]. *)
Definition traiter_fichier (taille_chunk chevauchement : Z)
    (e : etat) (f : entree) : etat :=
  if endswith (lower (nom f)) (lit ".pdf") then
    match traiter_pdf f taille_chunk chevauchement e with
    | Ok e' => e'
    | Raise x => {| chunks := chunks e;
                    metadatas := metadatas e;
                    warnings := warnings e ++ [(nom f, x)] |}
    end
  else e.

Definition etat_initial : etat :=
  {| chunks := []; metadatas := []; warnings := [] |}.

Definition lire_et_chunker_pdfs (dossier : repertoire)
    (taille_chunk chevauchement : Z) : res etat :=
  match dossier with
  | None => Raise FileNotFoundError
  | Some fichiers =>
      Ok (fold_left (traiter_fichier taille_chunk chevauchement)
                    fichiers etat_initial)
  end.

(** The text of a document, as lines 39-42 extract it. *)
Definition extraire (c : contenu) : res str :=
  doc <- fitz_open c ;; lire_pages doc [].

(** The inner loop (lines 45-49) on one text: the chunks it appends. *)
Definition chunker (texte : str) (taille_chunk chevauchement : Z)
    : res (list str) :=
  r <- range 0 (len texte) (taille_chunk - chevauchement) ;;
  Ok (chunks (fold_left (ajouter_chunk texte [] taille_chunk) r etat_initial)).

(** A slice made of whitespace only (or empty). *)
Definition blanc (s : str) : bool := forallb isspace s.

(** The window of [texte] that starts at [i]. *)
Definition fenetre (texte : str) (taille_chunk i : Z) : str :=
  slice texte i (i + taille_chunk).

(** The name test of line 35. *)
Definition est_pdf (fichier : str) : bool :=
  endswith (lower fichier) (lit ".pdf").

(** The (chunk, origin) pairs one directory entry contributes. *)
Definition morceaux (taille_chunk chevauchement : Z) (f : entree)
    : list (str * str) :=
  if est_pdf (nom f) then
    match extraire (fichier_contenu f) with
    | Ok texte =>
        match chunker texte taille_chunk chevauchement with
        | Ok cs => map (fun c => (c, nom f)) cs
        | Raise _ => []
        end
    | Raise _ => []
    end
  else [].

(** The pairs of a state: [zip(chunks, metadatas)]. *)
Definition paires (e : etat) : list (str * str) :=
  combine (chunks e) (metadatas e).

(** A text of [n] copies of one character. *)
Definition repeter (c : N) (n : nat) : str := repeat c n.

(** A readable document of one page. *)
Definition document (fichier texte : str) : entree :=
  {| nom := fichier; fichier_contenu := Pdf [PageText texte] |}.


(** ** The index: [construire_index] and [rechercher_passages] *)

(** An embedding: the components are 32-bit floats, each of them a
    rational. *)
Definition vecteur := list Q.

(** A numpy array of at most two dimensions: its shape and its rows. *)
Record ndarray := { shape : list nat; lignes : list vecteur }.

(** [a.shape[i]]. *)
Definition shape_at (a : ndarray) (i : Z) : res nat := index (shape a) i.

(** [faiss.IndexFlatL2]: the dimension and the stored vectors, in
    insertion order. *)
Record IndexFlatL2 := { dimension : nat; xb : list vecteur }.

(** The squared Euclidean distance in exact arithmetic.  The index does
    not compute it: it computes in 32-bit floats and rounds.  On vectors
    whose components are small integers no rounding occurs and the two
    agree: the examples of this file are of that kind and use this
    function; the theorems are stated for the distance the index
    computes, whatever it is. *)
Definition distance_exacte (x y : vecteur) : Q :=
  fold_left Qplus (map (fun p => (fst p - snd p) * (fst p - snd p))%Q
                       (combine x y)) 0%Q.

(** [index.add(x)]: the wrapper unpacks [x.shape] in two and asserts the
    dimension. *)
Definition index_add (ix : IndexFlatL2) (x : ndarray) : res IndexFlatL2 :=
  match shape x with
  | [_; d] =>
      if (d =? dimension ix)%nat
      then Ok {| dimension := dimension ix; xb := xb ix ++ lignes x |}
      else Raise AssertionError
  | _ => Raise ValueError
  end.

(** Insertion of a (distance, position) pair in a list ordered by
    distance, after the pairs at the same distance. *)
Fixpoint inserer (e : Q * nat) (l : list (Q * nat)) : list (Q * nat) :=
  match l with
  | [] => [e]
  | h :: t => if Qle_bool (fst h) (fst e) then h :: inserer e t else e :: l
  end.

(** The order of a ranking. *)
Definition avant (e e' : Q * nat) : Prop := (fst e <= fst e')%Q.

(** The [k] best of a ranking: the distances and the labels, completed
    with the label [-1] (and no distance) when there are fewer than [k]. *)
Definition meilleurs (k : nat) (r : list (Q * nat))
    : list (option Q) * list Z :=
  let best := firstn k r in
  let manque := (k - length best)%nat in
  (map (fun e => Some (fst e)) best ++ repeat None manque,
   map (fun e => Z.of_nat (snd e)) best ++ repeat (-1) manque).

(** [[f(i) for i in l]] when [f] can raise: the first failure is raised. *)
Fixpoint pour_chaque {A B} (f : A -> res B) (l : list A) : res (list B) :=
  match l with
  | [] => Ok []
  | a :: r => b <- f a ;; bs <- pour_chaque f r ;; Ok (b :: bs)
  end.

Section Recherche.

(** [fvec_L2sqr x y]: the squared Euclidean distance as the library
    computes it, in 32-bit floating point, when it is finite.  Nothing is
    assumed of its rounding. *)
Variable fvec_L2sqr : vecteur -> vecteur -> Q.

(** The stored vectors ranked by computed distance to [q], ties in
    insertion order. *)
Definition classer (q : vecteur) (stored : list vecteur) : list (Q * nat) :=
  fold_left (fun acc e => inserer e acc)
            (combine (map (fvec_L2sqr q) stored) (seq 0 (length stored))) [].

(** [index.search(x, k)]: one row of distances and one row of labels per
    query; the wrapper asserts the dimension and [k > 0]. *)
Definition index_search (ix : IndexFlatL2) (x : ndarray) (k : Z)
    : res (list (list (option Q)) * list (list Z)) :=
  match shape x with
  | [_; d] =>
      if negb (d =? dimension ix)%nat then Raise AssertionError
      else if negb (0 <? k) then Raise AssertionError
      else
        let rows := map (fun q => meilleurs (Z.to_nat k) (classer q (xb ix)))
                        (lignes x) in
        Ok (map fst rows, map snd rows)
  | _ => Raise ValueError
  end.

(** The embedding model: the vector of one text, of dimension [dim]. *)
Variable dim : nat.
Variable encoder_texte : str -> vecteur.

(** [model.encode(textes)]: one row per text; an empty batch gives an
    array of shape [(0,)]. *)
Definition model_encode (textes : list str) : ndarray :=
  match textes with
  | [] => {| shape := [0%nat]; lignes := [] |}
  | _ => {| shape := [length textes; dim];
            lignes := map encoder_texte textes |}
  end.

Definition construire_index (chunks : list str)
    : res (IndexFlatL2 * ndarray) :=
  let vecteurs := model_encode chunks in
  d <- shape_at vecteurs 1 ;;
  let index := {| dimension := d; xb := [] |} in
  index <- index_add index vecteurs ;;
  Ok (index, vecteurs).

Definition rechercher_passages (question : str) (chunks : list str)
    (index : IndexFlatL2) (top_k : Z) : res (list str) :=
  let vecteur_question := model_encode [question] in
  di <- index_search index vecteur_question top_k ;;
  indices0 <- Py.index (snd di) 0 ;;
  pour_chaque (fun i => Py.index chunks i) indices0.

(** Lines 147-149: the retrieval of one question. *)
Definition recuperer (dossier : repertoire) (question : str)
    : res (list str) :=
  e <- lire_et_chunker_pdfs dossier 500 100 ;;
  im <- construire_index (chunks e) ;;
  rechercher_passages question (chunks e) (fst im) 3.

(** The distance of a stored chunk to the question, as the index
    computes it. *)
Definition distance (question chunk : str) : Q :=
  fvec_L2sqr (encoder_texte question) (encoder_texte chunk).

End Recherche.

(** An embedding model for the examples: one component, the length of
    the text. *)
Definition encodeur_longueur (s : str) : vecteur := [inject_Z (len s)].

(** ** The advisory feed: [get_alertes_certfr] *)

(** A [time.struct_time]: the tuple of its nine fields. *)
Definition struct_time := list Z.

(** [a < b] on tuples of integers: the first differing position decides,
    a proper prefix is smaller. *)
Fixpoint tuple_lt (a b : list Z) : bool :=
  match a, b with
  | [], [] => false
  | [], _ :: _ => true
  | _ :: _, [] => false
  | x :: a', y :: b' =>
      if x =? y then tuple_lt a' b' else x <? y
  end.

(** An entry of the parsed feed: a dictionary read through attributes.
    Each attribute the function reads may be missing; the parsed date may
    also be present and [None], when the date of the feed could not be
    parsed. *)
Record entry := {
  title : option str;
  published : option str;
  published_parsed : option (option struct_time);
  summary : option str;
  link : option str
}.

(** [entry.nom]: [AttributeError] when the entry has no such key. *)
Definition getattr {A} (champ : option A) : res A :=
  match champ with
  | Some v => Ok v
  | None => Raise AttributeError
  end.

(** The dictionary built for one entry (lines 86-91). *)
Record alerte := {
  titre : str;
  date : str;
  description : str;
  lien : str
}.

Section Tri.

Variable A : Type.
Variable key : A -> struct_time.

(** Insertion in a list in ascending order of [key], after the elements
    with an equal key; only [<] is used, as in Python's sort. *)
Fixpoint inserer_cle (x : A) (l : list A) : list A :=
  match l with
  | [] => [x]
  | h :: t =>
      if tuple_lt (key x) (key h) then x :: l else h :: inserer_cle x t
  end.

(** [sorted(l, key=key)]: a stable sort. *)
Definition sorted (l : list A) : list A :=
  fold_left (fun acc x => inserer_cle x acc) l [].

(** [sorted(l, key=key, reverse=True)]: the list is reversed, sorted and
    reversed again, which keeps equal keys in their original order. *)
Definition sorted_reverse (l : list A) : list A :=
  rev (sorted (rev l)).

End Tri.

(** The parsed date of an entry that has one. *)
Definition date_de (e : entry) : struct_time :=
  match published_parsed e with
  | Some (Some t) => t
  | _ => []
  end.

Definition est_None {A} (v : option A) : bool :=
  match v with
  | None => true
  | Some _ => false
  end.

(** Lines 78-82, [sorted(feed.entries, key=lambda entry:
    entry.published_parsed, reverse=True)].  The key of every entry is
    computed first, in the order of the feed; then the keys are compared,
    each of them at least once when there are two entries or more, and a
    comparison with [None] raises [TypeError]; a list of fewer than two
    entries is not compared at all. *)
Definition articles_tries (entries : list entry) : res (list entry) :=
  keys <- pour_chaque (fun entry => getattr (published_parsed entry))
                      entries ;;
  if (2 <=? length entries)%nat && existsb est_None keys
  then Raise TypeError
  else Ok (sorted_reverse date_de entries).

(** Lines 86-91: the dictionary of one entry. *)
Definition alerte_de (entry : entry) : res alerte :=
  titre <- getattr (title entry) ;;
  date <- getattr (published entry) ;;
  description <- getattr (summary entry) ;;
  lien <- getattr (link entry) ;;
  Ok {| titre := titre; date := date;
        description := description; lien := lien |}.

(** Lines 85-92: the loop over the entries kept. *)
Fixpoint boucle_alertes (l : list entry) (alertes : list alerte)
    : res (list alerte) :=
  match l with
  | [] => Ok alertes
  | entry :: r =>
      alertes_securite <- alerte_de entry ;;
      boucle_alertes r (alertes ++ [alertes_securite])
  end.

(** [entries] is [feedparser.parse(flux_url).entries]. *)
Definition get_alertes_certfr (entries : list entry) : res (list alerte) :=
  tries <- articles_tries entries ;;
  boucle_alertes (slice_to tries 5) [].

(** The entry has a parsed date. *)
Definition datee (e : entry) : Prop :=
  exists t, published_parsed e = Some (Some t).

(** The entry has the four attributes of an advisory. *)
Definition complet (e : entry) : Prop :=
  title e <> None /\ published e <> None
  /\ summary e <> None /\ link e <> None.

(** The advisory [a] carries the attributes of the entry [e]. *)
Definition correspond (e : entry) (a : alerte) : Prop :=
  title e = Some (titre a) /\ published e = Some (date a)
  /\ summary e = Some (description a) /\ link e = Some (lien a).

(** [e] is not older than [e']. *)
Definition plus_recent (e e' : entry) : Prop :=
  tuple_lt (date_de e) (date_de e') = false.

(** [e] is strictly more recent than [e']. *)
Definition strictement_plus_recent (e e' : entry) : Prop :=
  tuple_lt (date_de e') (date_de e) = true.

(** An entry published on day [d] of January 2024, at noon, for a day
    of one digit. *)
Definition jour (d : Z) : entry :=
  {| title := Some (lit "Avis " ++ [Z.to_N (48 + d)]);
     published :=
       Some ([Z.to_N (48 + d)] ++ lit " Jan 2024 12:00:00 +0000");
     published_parsed :=
       Some (Some [2024; 1; d; 12; 0; 0; (d - 1) mod 7; d; 0]);
     summary := Some (lit "Resume");
     link := Some (lit "https://www.cert.ssi.gouv.fr/") |}.

(** The advisory of that entry. *)
Definition alerte_du_jour (d : Z) : alerte :=
  {| titre := lit "Avis " ++ [Z.to_N (48 + d)];
     date := [Z.to_N (48 + d)] ++ lit " Jan 2024 12:00:00 +0000";
     description := lit "Resume";
     lien := lit "https://www.cert.ssi.gouv.fr/" |}.

(** An entry without publication date, and one whose date could not be
    parsed. *)
Definition sans_date : entry :=
  {| title := Some (lit "Avis");
     published := None;
     published_parsed := None;
     summary := Some (lit "Resume");
     link := Some (lit "https://www.cert.ssi.gouv.fr/") |}.

Definition date_illisible : entry :=
  {| title := Some (lit "Avis");
     published := Some (lit "hier");
     published_parsed := Some None;
     summary := Some (lit "Resume");
     link := Some (lit "https://www.cert.ssi.gouv.fr/") |}.

(** ** JSON: the values, [json.dumps] and [json.loads] *)

(** A decoded JSON value.  A number is kept as the text it was read
    from; what its conversion to [int] can raise is in [match_number]. *)
#[warnings="-register-all"]
Inductive json :=
| JNull
| JBool (b : bool)
| JNumber (lexeme : str)
| JString (s : str)
| JArray (items : list json)
| JObject (members : list (str * json)).

(** A [dict] with [str] keys: its items in insertion order, the keys
    distinct. *)
Definition dict := list (str * json).

Fixpoint dict_get (d : dict) (k : str) : option json :=
  match d with
  | [] => None
  | (k', v) :: r => if str_eqb k' k then Some v else dict_get r k
  end.

(** [d[k] = v]: a key already present keeps its place. *)
Fixpoint dict_set (d : dict) (k : str) (v : json) : dict :=
  match d with
  | [] => [(k, v)]
  | (k', v') :: r =>
      if str_eqb k' k then (k', v) :: r else (k', v') :: dict_set r k v
  end.

(** [dict(pairs)]. *)
Definition dict_of_pairs (pairs : list (str * json)) : dict :=
  fold_left (fun d kv => dict_set d (fst kv) (snd kv)) pairs [].

(** [e[k]] for a decoded value [e] and a [str] key. *)
Definition getitem (e : json) (k : str) : res json :=
  match e with
  | JObject d =>
      match dict_get d k with
      | Some v => Ok v
      | None => Raise KeyError
      end
  | _ => Raise TypeError
  end.

(** *** Encoding *)

(** The digit of [n < 16] in lower case. *)
Definition hex_digit (n : N) : N :=
  (if n <? 10 then 48 + n else 87 + n)%N.

(** [ESCAPE_DCT]: how [json.dumps(..., ensure_ascii=False)] writes one
    character inside a string. *)
Definition escape_char (c : N) : str :=
  (if c =? 34 then [92; 34]
   else if c =? 92 then [92; 92]
   else if c =? 10 then [92; 110]
   else if c =? 13 then [92; 114]
   else if c =? 9 then [92; 116]
   else if c =? 8 then [92; 98]
   else if c =? 12 then [92; 102]
   else if c <? 32 then [92; 117; 48; 48; hex_digit (c / 16); hex_digit (c mod 16)]
   else [c])%N.

(** [encode_basestring]. *)
Definition encode_basestring (s : str) : str :=
  [34%N] ++ flat_map escape_char s ++ [34%N].

(** The items of a dictionary of strings, separated by [", "], each key
    separated from its value by [": "]. *)
Fixpoint dumps_items (d : list (str * str)) : str :=
  match d with
  | [] => []
  | (k, v) :: r =>
      encode_basestring k ++ lit ": " ++ encode_basestring v
      ++ match r with
         | [] => []
         | _ :: _ => lit ", " ++ dumps_items r
         end
  end.

(** [json.dumps(d, ensure_ascii=False)] for a dictionary whose values are
    strings. *)
Definition json_dumps (d : list (str * str)) : str :=
  lit "{" ++ dumps_items d ++ lit "}".

(** *** Decoding *)

(** [WHITESPACE]. *)
Definition is_ws (c : N) : bool :=
  ((c =? 32) || (c =? 9) || (c =? 10) || (c =? 13))%N.

Fixpoint skip_ws (s : str) : str :=
  match s with
  | [] => []
  | c :: r => if is_ws c then skip_ws r else s
  end.

Definition is_digit (c : N) : bool := ((48 <=? c) && (c <=? 57))%N.

Definition hex_val (c : N) : option N :=
  (if (48 <=? c) && (c <=? 57) then Some (c - 48)
   else if (97 <=? c) && (c <=? 102) then Some (c - 87)
   else if (65 <=? c) && (c <=? 70) then Some (c - 55)
   else None)%N.

(** The four hexadecimal digits of a [\u] escape. *)
Definition decode_uXXXX (s : str) : res (N * str) :=
  match s with
  | a :: b :: c :: d :: r =>
      match hex_val a, hex_val b, hex_val c, hex_val d with
      | Some a, Some b, Some c, Some d =>
          Ok ((((a * 16 + b) * 16 + c) * 16 + d)%N, r)
      | _, _, _, _ => Raise JSONDecodeError
      end
  | _ => Raise JSONDecodeError
  end.

(** [BACKSLASH]: the one-character escapes. *)
Definition backslash (esc : N) : option N :=
  (if esc =? 34 then Some 34
   else if esc =? 92 then Some 92
   else if esc =? 47 then Some 47
   else if esc =? 98 then Some 8
   else if esc =? 102 then Some 12
   else if esc =? 110 then Some 10
   else if esc =? 114 then Some 13
   else if esc =? 116 then Some 9
   else None)%N.

Definition high_surrogate (c : N) : bool := ((55296 <=? c) && (c <=? 56319))%N.
Definition low_surrogate (c : N) : bool := ((56320 <=? c) && (c <=? 57343))%N.
Definition surrogate (c : N) : bool := ((55296 <=? c) && (c <=? 57343))%N.

Definition join_surrogates (hi lo : N) : N :=
  (65536 + ((hi - 55296) * 1024 + (lo - 56320)))%N.

(** [scanstring] in strict mode, from the character after the opening
    quote: the decoded string and the input after the closing quote. *)
Fixpoint scanstring (fuel : nat) (s acc : str) : res (str * str) :=
  match fuel with
  | O => Raise JSONDecodeError
  | S fuel =>
      match s with
      | [] => Raise JSONDecodeError
      | c :: r =>
          if (c =? 34)%N then Ok (acc, r)
          else if (c =? 92)%N then
            match r with
            | [] => Raise JSONDecodeError
            | esc :: r1 =>
                if (esc =? 117)%N then
                  ur <- decode_uXXXX r1 ;;
                  let uni := fst ur in
                  let r2 := snd ur in
                  if high_surrogate uni then
                    match r2 with
                    | 92%N :: 117%N :: r3 =>
                        ur2 <- decode_uXXXX r3 ;;
                        if low_surrogate (fst ur2)
                        then scanstring fuel (snd ur2)
                               (acc ++ [join_surrogates uni (fst ur2)])
                        else scanstring fuel r2 (acc ++ [uni])
                    | _ => scanstring fuel r2 (acc ++ [uni])
                    end
                  else scanstring fuel r2 (acc ++ [uni])
                else
                  match backslash esc with
                  | Some ch => scanstring fuel r1 (acc ++ [ch])
                  | None => Raise JSONDecodeError
                  end
            end
          else if (c <? 32)%N then Raise JSONDecodeError
          else scanstring fuel r (acc ++ [c])
      end
  end.

(** The longest prefix of digits, and the rest. *)
Fixpoint span_digits (s : str) : str * str :=
  match s with
  | [] => ([], [])
  | c :: r =>
      if is_digit c
      then let dr := span_digits r in (c :: fst dr, snd dr)
      else ([], s)
  end.

(** [NUMBER_RE]: the integer part, then a fraction and an exponent when
    they are complete. *)
Definition match_int (s : str) : option (str * str) :=
  match s with
  | [] => None
  | c :: r =>
      if (c =? 48)%N then Some ([c], r)
      else if is_digit c then
        let dr := span_digits r in Some (c :: fst dr, snd dr)
      else None
  end.

Definition match_frac (s : str) : str * str :=
  match s with
  | 46%N :: r =>
      match span_digits r with
      | ([], _) => ([], s)
      | (ds, r') => (46%N :: ds, r')
      end
  | _ => ([], s)
  end.

Definition match_exp (s : str) : str * str :=
  match s with
  | e :: r =>
      if ((e =? 101) || (e =? 69))%N then
        match r with
        | sg :: r1 =>
            if ((sg =? 43) || (sg =? 45))%N then
              match span_digits r1 with
              | ([], _) => ([], s)
              | (ds, r') => (e :: sg :: ds, r')
              end
            else
              match span_digits r with
              | ([], _) => ([], s)
              | (ds, r') => (e :: ds, r')
              end
        | [] => ([], s)
        end
      else ([], s)
  | [] => ([], s)
  end.

(** [sys.get_int_max_str_digits()], by default. *)
Definition max_str_digits : Z := 4300.

(** A number: its text and what follows.  Without fraction and exponent
    it is converted by [int], which raises [ValueError] when it has more
    digits than [max_str_digits]; otherwise by [float], which accepts any
    number of digits. *)
Definition match_number (s : str) : option (res (str * str)) :=
  let signe := match s with
               | 45%N :: r => ([45%N], r)
               | _ => ([], s)
               end in
  match match_int (snd signe) with
  | None => None
  | Some (i, r1) =>
      let f := match_frac r1 in
      let e := match_exp (snd f) in
      match fst f, fst e with
      | [], [] =>
          if max_str_digits <? len i then Some (Raise ValueError)
          else Some (Ok (fst signe ++ i, snd e))
      | _, _ => Some (Ok (fst signe ++ i ++ fst f ++ fst e, snd e))
      end
  end.

(** [s.startswith(p)] and what follows the prefix. *)
Fixpoint apres_prefixe (p s : str) : option str :=
  match p, s with
  | [], _ => Some s
  | a :: p', b :: s' => if (a =? b)%N then apres_prefixe p' s' else None
  | _ :: _, [] => None
  end.

(** The constants and the numbers of the scanner. *)
Definition scan_constant (s : str) : res (json * str) :=
  match apres_prefixe (lit "null") s with
  | Some r => Ok (JNull, r)
  | None =>
  match apres_prefixe (lit "true") s with
  | Some r => Ok (JBool true, r)
  | None =>
  match apres_prefixe (lit "false") s with
  | Some r => Ok (JBool false, r)
  | None =>
  match match_number s with
  | Some n => lr <- n ;; Ok (JNumber (fst lr), snd lr)
  | None =>
  match apres_prefixe (lit "NaN") s with
  | Some r => Ok (JNumber (lit "NaN"), r)
  | None =>
  match apres_prefixe (lit "Infinity") s with
  | Some r => Ok (JNumber (lit "Infinity"), r)
  | None =>
  match apres_prefixe (lit "-Infinity") s with
  | Some r => Ok (JNumber (lit "-Infinity"), r)
  | None => Raise JSONDecodeError
  end end end end end end end.

Section Conteneurs.

(** The scanner of the values inside a container. *)
Variable scan : str -> res (json * str).

(** The loop over the members of an object, from the character after the
    opening quote of a key.  A turn reads at least one character, so that
    the loop takes no more turns than [s] has characters: [fuel] is given
    that value, and when it is used up [s] is empty, where the loop
    fails for want of a key. *)
Fixpoint parse_members (fuel : nat) (s : str) (pairs : list (str * json))
    : res (json * str) :=
  match fuel with
  | O => Raise JSONDecodeError
  | S fuel =>
      ks <- scanstring (length s) s [] ;;
      match skip_ws (snd ks) with
      | 58%N :: s1 =>
          vr <- scan (skip_ws s1) ;;
          let pairs := pairs ++ [(fst ks, fst vr)] in
          match skip_ws (snd vr) with
          | 125%N :: s2 => Ok (JObject (dict_of_pairs pairs), s2)
          | 44%N :: s2 =>
              match skip_ws s2 with
              | 34%N :: s3 => parse_members fuel s3 pairs
              | _ => Raise JSONDecodeError
              end
          | _ => Raise JSONDecodeError
          end
      | _ => Raise JSONDecodeError
      end
  end.

(** The loop over the elements of an array, from its first element; the
    same bound on the turns. *)
Fixpoint parse_elements (fuel : nat) (s : str) (values : list json)
    : res (json * str) :=
  match fuel with
  | O => Raise JSONDecodeError
  | S fuel =>
      vr <- scan s ;;
      let values := values ++ [fst vr] in
      match skip_ws (snd vr) with
      | 93%N :: s1 => Ok (JArray values, s1)
      | 44%N :: s1 => parse_elements fuel (skip_ws s1) values
      | _ => Raise JSONDecodeError
      end
  end.

End Conteneurs.

(** The scanner reads one value.  [profondeur] is the number of
    containers, objects or arrays, that can still be entered one inside
    the other before the recursion limit of the interpreter is reached:
    entering one more raises [RecursionError]. *)
Fixpoint scan_once (profondeur : nat) (s : str) : res (json * str) :=
  match s with
  | [] => Raise JSONDecodeError
  | c :: r =>
      if (c =? 34)%N then
        sr <- scanstring (length r) r [] ;;
        Ok (JString (fst sr), snd sr)
      else if (c =? 123)%N then
        match profondeur with
        | O => Raise RecursionError
        | S profondeur =>
            match skip_ws r with
            | 125%N :: r1 => Ok (JObject [], r1)
            | 34%N :: r1 =>
                parse_members (scan_once profondeur) (length r1) r1 []
            | _ => Raise JSONDecodeError
            end
        end
      else if (c =? 91)%N then
        match profondeur with
        | O => Raise RecursionError
        | S profondeur =>
            match skip_ws r with
            | 93%N :: r1 => Ok (JArray [], r1)
            | r1 => parse_elements (scan_once profondeur) (length r1) r1 []
            end
        end
      else scan_constant s
  end.

(** ** The file of the conversation log *)

(** What a UTF-8 decoder finds in a file, in order: the character of each
    byte sequence that encodes one, and the bytes that belong to no such
    sequence. *)
Inductive unite :=
| Caractere (c : N)
| Octet_invalide (b : N).

(** The log file: absent, or its content. *)
Definition fichier_log := option (list unite).

(** The text of a file opened with [encoding="utf-8"]: an invalid byte
    raises [UnicodeDecodeError]; the encoding of a surrogate code point is
    invalid. *)
Definition decode (contenu : list unite) : res str :=
  pour_chaque (fun u => match u with
                        | Caractere c =>
                            if surrogate c then Raise UnicodeDecodeError
                            else Ok c
                        | Octet_invalide _ => Raise UnicodeDecodeError
                        end) contenu.

(** [open(fichier, "a", encoding="utf-8")] then [f.write(texte)]: the file
    is created when absent; a text with a surrogate code point cannot be
    encoded and nothing is written.  The result is the file afterwards and
    the outcome of the call. *)
Definition ecrire_a_la_fin (f : fichier_log) (texte : str)
    : fichier_log * res unit :=
  let contenu := match f with
                 | None => []
                 | Some c => c
                 end in
  if existsb surrogate texte
  then (Some contenu, Raise UnicodeEncodeError)
  else (Some (contenu ++ map Caractere texte), Ok tt).

(** [maintenant] is [datetime.now().isoformat()]. *)
Definition sauvegarder_echange (maintenant question reponse : str)
    (fichier : fichier_log) : fichier_log * res unit :=
  let echange := [(lit "timestamp", maintenant);
                  (lit "question", question);
                  (lit "reponse", reponse)] in
  ecrire_a_la_fin fichier (json_dumps echange ++ [10%N]).

(** The lines of a text file read with universal newlines: each line
    ends with a line feed, written for ["\n"], ["\r\n"] or ["\r"], except
    perhaps the last one.  [courant] is the line being read. *)
Fixpoint readlines (s courant : str) : list str :=
  match s with
  | [] =>
      match courant with
      | [] => []
      | _ :: _ => [courant]
      end
  | c :: r =>
      if (c =? 10)%N then (courant ++ [10%N]) :: readlines r []
      else if (c =? 13)%N then
        match r with
        | c' :: r' =>
            if (c' =? 10)%N then (courant ++ [10%N]) :: readlines r' []
            else (courant ++ [10%N]) :: readlines r []
        | [] => [courant ++ [10%N]]
        end
      else readlines r (courant ++ [c])
  end.

(** An entry of the history: the values of ["question"] and ["reponse"]. *)
Record echange := { e_question : json; e_reponse : json }.

Section Journal.

(** The number of containers that the recursion limit of the interpreter
    lets [json.loads] enter inside a first one, where it is called. *)
Variable reserve : nat.

(** [json.loads(s)] for a [str]: a byte order mark is refused, white
    space is allowed around the value and nothing else may follow it. *)
Definition json_loads (s : str) : res json :=
  match s with
  | 65279%N :: _ => Raise JSONDecodeError
  | _ =>
      vr <- scan_once (S reserve) (skip_ws s) ;;
      match skip_ws (snd vr) with
      | [] => Ok (fst vr)
      | _ :: _ => Raise JSONDecodeError
      end
  end.

(** Lines 115-116: what one line adds, or the exception it raises. *)
Definition lire_ligne (ligne : str) : res echange :=
  e <- json_loads ligne ;;
  q <- getitem e (lit "question") ;;
  r <- getitem e (lit "reponse") ;;
  Ok {| e_question := q; e_reponse := r |}.

(** Lines 113-118: one turn of the loop, with its [except]. *)
Definition charger_ligne (historique : list echange) (ligne : str)
    : list echange :=
  match lire_ligne ligne with
  | Ok e => historique ++ [e]
  | Raise _ => historique
  end.

(** Lines 107-120.  The file is decoded by the [for] statement, outside
    the [try]: when it is not UTF-8 the function raises and returns no
    history at all. *)
Definition charger_historique_persistant (fichier : fichier_log)
    : res (list echange) :=
  match fichier with
  | None => Ok []
  | Some contenu =>
      texte <- decode contenu ;;
      Ok (fold_left charger_ligne (readlines texte []) [])
  end.

(** The line is well formed: [json.loads] decodes it to an object that
    has the fields ["question"] and ["reponse"], with the values [q] and
    [r]. *)
Definition bien_formee (ligne : str) (q r : json) : Prop :=
  exists d,
    json_loads ligne = Ok (JObject d)
    /\ dict_get d (lit "question") = Some q
    /\ dict_get d (lit "reponse") = Some r.

(** What one line contributes to the history. *)
Definition echanges_de_ligne (ligne : str) : list echange :=
  match lire_ligne ligne with
  | Ok e => [e]
  | Raise _ => []
  end.

End Journal.

(** ** The reply of the generation service *)

(** The literal of line 168. *)
Definition placeholder : str :=
  [10060%N] ++ lit " Pas de r" ++ [233%N] ++ lit "ponse g" ++ [233%N]
  ++ lit "n" ++ [233%N] ++ lit "r" ++ [233%N] ++ lit "e.".

(** [d.get(k, default)]. *)
Definition dict_get_default (d : dict) (k : str) (default : json) : json :=
  match dict_get d k with
  | Some v => v
  | None => default
  end.

(** Line 168: [reply] is [response.json()]; only a [dict] has [get]. *)
Definition answer (reply : json) : res json :=
  match reply with
  | JObject d => Ok (dict_get_default d (lit "response") (JString placeholder))
  | _ => Raise AttributeError
  end.

(** A log without an unfinished last line. *)
Definition termine (contenu : str) : Prop :=
  contenu = [] \/ exists debut, contenu = debut ++ [10%N].

(** A text that UTF-8 can encode. *)
Definition encodable (s : str) : Prop := existsb surrogate s = false.

(** A text without line feed or carriage return. *)
Definition sans_saut (s : str) : Prop :=
  forallb (fun c => negb ((c =? 10) || (c =? 13))%N) s = true.

(** The value read back for a string. *)
Definition echange_de (question reponse : str) : echange :=
  {| e_question := JString question; e_reponse := JString reponse |}.

(** The dictionary decoded from a dictionary of strings. *)
Definition valeurs (d : list (str * str)) : list (str * json) :=
  map (fun kv => (fst kv, JString (snd kv))) d.

(** ** Auxiliary notions for further properties *)

(** The results of two runs put end to end. *)
Definition etat_plus (e1 e2 : etat) : etat :=
  {| chunks := chunks e1 ++ chunks e2;
     metadatas := metadatas e1 ++ metadatas e2;
     warnings := warnings e1 ++ warnings e2 |}.

(** The text of the entry can be extracted. *)
Definition lisible (f : entree) : bool :=
  match extraire (fichier_contenu f) with
  | Ok _ => true
  | Raise _ => false
  end.

(** [a == b] on tuples of integers. *)
Fixpoint tuple_eqb (a b : list Z) : bool :=
  match a, b with
  | [], [] => true
  | x :: a', y :: b' => (x =? y) && tuple_eqb a' b'
  | _, _ => false
  end.

(** The entries of a feed published at the date [d], in their order. *)
Definition publies_le (d : struct_time) (l : list entry) : list entry :=
  filter (fun e => tuple_eqb (date_de e) d) l.

(** The content of the log, empty when the file is absent. *)
Definition contenu_de (f : fichier_log) : list unite :=
  match f with
  | None => []
  | Some c => c
  end.

(** A line of the log whose [question] is written [valeur], with the
    answer [r]. *)
Definition ligne_valeur (valeur : str) : str :=
  lit "{" ++ encode_basestring (lit "question") ++ lit ": " ++ valeur
  ++ lit ", " ++ encode_basestring (lit "reponse") ++ lit ": "
  ++ encode_basestring (lit "r") ++ lit "}" ++ [10%N].

(** The log after the exchanges of a list, (timestamp, question, answer),
    each saved in turn by [sauvegarder_echange]. *)
Definition sauvegarder_serie (echanges : list (str * str * str))
    (fichier : fichier_log) : fichier_log :=
  fold_left
    (fun f e =>
       fst (sauvegarder_echange (fst (fst e)) (snd (fst e)) (snd e) f))
    echanges fichier.

(** The state of a session: [st.session_state["historique"]] and the log
    file. *)
Record session := { historique : list echange; journal : fichier_log }.

(** Lines 125-126: the history of a new session is read from the log. *)
Definition demarrer (reserve : nat) (fichier : fichier_log) : res session :=
  h <- charger_historique_persistant reserve fichier ;;
  Ok {| historique := h; journal := fichier |}.

(** [st.markdown(body)]: the text goes to the browser encoded in UTF-8,
    and a text with a surrogate code point is refused with an exception,
    taken here to be the codec's. *)
Definition st_markdown (body : str) : res unit :=
  if existsb surrogate body then Raise UnicodeEncodeError else Ok tt.

(** Lines 170-177: the answer is shown, the exchange is appended to the
    history of the session, then saved in the log.  The result is the
    session afterwards, and the outcome that the [try] of line 146
    receives. *)
Definition enregistrer (maintenant question answer : str) (s : session)
    : session * res unit :=
  match st_markdown answer with
  | Raise x => (s, Raise x)
  | Ok _ =>
      let historique' := historique s ++ [echange_de question answer] in
      let fr := sauvegarder_echange maintenant question answer (journal s) in
      ({| historique := historique'; journal := fst fr |}, snd fr)
  end.

(** The history of the session is what a reload of its log gives. *)
Definition a_jour (reserve : nat) (s : session) : Prop :=
  charger_historique_persistant reserve (journal s) = Ok (historique s).

(** ** The pages of the interface *)

(** [enumerate(l, start)]. *)
Fixpoint enumerate (start : Z) {A} (l : list A) : list (Z * A) :=
  match l with
  | [] => []
  | a :: r => (start, a) :: enumerate (start + 1) r
  end.

(** [str(i)] for an [int]: its decimal writing. *)
Definition str_int (i : Z) : str :=
  lit (DecimalString.NilZero.string_of_int (Z.to_int i)).

(** Lines 151-155: the start of the prompt of a question. *)
Definition prompt_entete : str :=
  lit "Tu es un assistant RSSI sp" ++ [233]%N ++ lit "cialis" ++ [233]%N
  ++ lit " en cybers" ++ [233]%N ++ lit "curit" ++ [233]%N ++ lit "."
  ++ [10]%N ++ lit "Voici des extraits de documents de r" ++ [233]%N
  ++ lit "f" ++ [233]%N
  ++ lit "rence fournis par l'utilisateur. Utilise-les autant que possible pour r"
  ++ [233]%N ++ lit "pondre." ++ [10]%N
  ++ lit "Tu peux aussi t'appuyer sur tes connaissances g" ++ [233]%N
  ++ lit "n" ++ [233]%N ++ lit "rales si n" ++ [233]%N
  ++ lit "cessaire pour compl" ++ [233]%N ++ lit "ter ou clarifier la r"
  ++ [233]%N ++ lit "ponse." ++ [10; 10]%N.

(** Line 160: the end of the prompt of a question. *)
Definition prompt_consigne : str :=
  lit "R" ++ [233]%N ++ lit "ponds de mani" ++ [232]%N
  ++ lit "re claire et pr" ++ [233]%N ++ lit "cise en t" ++ [8217]%N
  ++ lit "appuyant uniquement sur ces documents.".

(** Lines 207-208: the start of the prompt of a synthesis. *)
Definition synthese_entete : str :=
  lit "Tu es un expert cybers" ++ [233]%N ++ lit "curit" ++ [233]%N
  ++ lit "." ++ [10]%N ++ lit "Voici le contenu d" ++ [8217]%N
  ++ lit "un document technique ou r" ++ [233]%N ++ lit "glementaire :"
  ++ [10; 10]%N.

(** Lines 210-211: the end of the prompt of a synthesis. *)
Definition synthese_consigne : str :=
  lit "Fais un r" ++ [233]%N ++ lit "sum" ++ [233]%N
  ++ lit " clair, structur" ++ [233]%N ++ lit " et synth" ++ [233]%N
  ++ lit "tique de ce document." ++ [10]%N ++ lit "Mets en " ++ [233]%N
  ++ lit "vidence les points cl" ++ [233]%N ++ lit "s, les menaces "
  ++ [233]%N ++ lit "voqu" ++ [233]%N ++ lit "es et les recommandations s"
  ++ [8217]%N ++ lit "il y en a.".

(** Line 157: what one passage adds to the prompt. *)
Definition prompt_passage (ip : Z * str) : str :=
  lit "Passage " ++ str_int (fst ip) ++ lit " :" ++ [10%N] ++ snd ip
  ++ [10%N; 10%N].

(** Lines 151-160: the prompt of a question, from the passages
    retrieved. *)
Definition prompt_question (question : str) (passages_pertinents : list str)
    : str :=
  let prompt := prompt_entete in
  let prompt :=
    fold_left (fun prompt ip => prompt ++ prompt_passage ip)
              (enumerate 1 passages_pertinents) prompt in
  let prompt := prompt ++ lit "Question : " ++ question ++ [10%N] in
  prompt ++ prompt_consigne.

(** Line 199: the document is taken as empty or not readable. *)
Definition document_vide (contenu : str) : bool :=
  len (strip contenu) <? 100.

(** Lines 206-212: the prompt of a synthesis. *)
Definition prompt_synthese (contenu : str) : str :=
  synthese_entete ++ slice_to contenu 10000 ++ [10%N; 10%N]
  ++ synthese_consigne.

(** What the history page shows, one element for each call: the title
    of an exchange with its number, its question, its answer, a rule, the
    download button with the history it serialises, and the notice of an
    empty history. *)
Inductive element :=
| Titre_question (numero : Z)
| Texte_question (v : json)
| Texte_reponse (v : json)
| Separateur
| Telechargement (h : list echange)
| Aucun_echange.

(** Lines 354-357: the elements shown for one exchange. *)
Definition afficher_echange (n : Z) (ie : Z * echange) : list element :=
  [Titre_question (n - fst ie);
   Texte_question (e_question (snd ie));
   Texte_reponse (e_reponse (snd ie));
   Separateur].

(** Lines 351-370: the history page. *)
Definition onglet_historique (h : list echange) : list element :=
  match h with
  | [] => [Aucun_echange]
  | _ :: _ =>
      fold_left (fun page ie => page ++ afficher_echange (len h) ie)
                (enumerate 0 (rev h)) []
      ++ [Telechargement h]
  end.


(** * Properties *)

(** ** Python helpers *)

Lemma len_nonneg {A} (l : list A) : 0 <= len l.
Proof. unfold len. lia. Qed.

Lemma len_app {A} (l1 l2 : list A) : len (l1 ++ l2) = len l1 + len l2.
Proof. unfold len. rewrite length_app. lia. Qed.

Lemma bind_ok {A B} (m : res A) (k : A -> res B) (b : B) :
  bind m k = Ok b -> exists a, m = Ok a /\ k a = Ok b.
Proof. destruct m as [a|e]; simpl; intros H; [eauto | discriminate]. Qed.

Lemma lstrip_nil (s : str) : lstrip s = [] <-> blanc s = true.
Proof.
  induction s as [|c r IH]; simpl.
  - tauto.
  - destruct (isspace c); simpl.
    + exact IH.
    + split; discriminate.
Qed.

Lemma lstrip_head (s : str) c r : lstrip s = c :: r -> isspace c = false.
Proof.
  induction s as [|d s IH]; simpl; [discriminate|].
  destruct (isspace d) eqn:E; [exact IH|].
  intros H. injection H as -> _. exact E.
Qed.

Lemma blanc_rev (s : str) : blanc (rev s) = blanc s.
Proof.
  unfold blanc. induction s as [|c r IH]; simpl; [reflexivity|].
  rewrite forallb_app, IH. simpl. rewrite andb_true_r. apply andb_comm.
Qed.

Lemma strip_nil (s : str) : strip s = [] <-> blanc s = true.
Proof.
  unfold strip, rstrip. split.
  - intros H. apply (f_equal (@rev N)) in H. rewrite rev_involutive in H.
    simpl in H. apply lstrip_nil in H. rewrite blanc_rev in H.
    destruct (lstrip s) as [|c r] eqn:E.
    + apply lstrip_nil. exact E.
    + apply lstrip_head in E. simpl in H. rewrite E in H. discriminate.
  - intros H. apply lstrip_nil in H. rewrite H. reflexivity.
Qed.

(** The test of line 47 keeps a slice exactly when it is not blank. *)
Lemma garde_strip (s : str) : (0 <? len (strip s)) = negb (blanc s).
Proof.
  destruct (blanc s) eqn:E; simpl.
  - apply strip_nil in E. rewrite E. reflexivity.
  - destruct (strip s) as [|c r] eqn:E'.
    + apply strip_nil in E'. congruence.
    + unfold len. simpl. apply Z.ltb_lt. lia.
Qed.

(** A slice between two natural bounds. *)
Lemma slice_nat {A} (s : list A) (a b : nat) :
  slice s (Z.of_nat a) (Z.of_nat b)
  = firstn (Nat.min b (length s) - Nat.min a (length s))
           (skipn (Nat.min a (length s)) s).
Proof.
  unfold slice, clamp, len.
  destruct (Z.ltb_spec (Z.of_nat a) 0); [lia|].
  destruct (Z.ltb_spec (Z.of_nat b) 0); [lia|].
  f_equal; [|f_equal]; lia.
Qed.

Lemma slice_nat_length {A} (s : list A) (a b : nat) :
  length (slice s (Z.of_nat a) (Z.of_nat b))
  = (Nat.min b (length s) - Nat.min a (length s))%nat.
Proof.
  rewrite slice_nat, length_firstn, length_skipn. lia.
Qed.

Lemma range_pos (n step : Z) :
  0 < step ->
  range 0 n step
  = Ok (map (fun k => Z.of_nat k * step)
            (seq 0 (Z.to_nat ((n + step - 1) / step)))).
Proof.
  intros Hs. unfold range, range_len.
  destruct (Z.eqb_spec step 0); [lia|].
  destruct (Z.ltb_spec 0 step); [|lia].
  f_equal.
  assert (E : Z.to_nat (if 0 <? n then (n - 0 - 1) / step + 1 else 0)
              = Z.to_nat ((n + step - 1) / step)).
  { destruct (Z.ltb_spec 0 n).
    - replace (n + step - 1) with ((n - 0 - 1) + 1 * step) by lia.
      rewrite Z.div_add by lia. reflexivity.
    - assert ((n + step - 1) / step <= 0).
      { apply Z.lt_succ_r. apply Z.div_lt_upper_bound; lia. }
      lia. }
  rewrite E. apply map_ext. intros k. lia.
Qed.

Lemma range_neg (n step : Z) :
  0 <= n -> step < 0 -> range 0 n step = Ok [].
Proof.
  intros Hn Hs. unfold range, range_len.
  destruct (Z.eqb_spec step 0); [lia|].
  destruct (Z.ltb_spec 0 step); [lia|].
  destruct (Z.ltb_spec n 0); [lia|]. reflexivity.
Qed.

Lemma range_zero (a b : Z) : range a b 0 = Raise ValueError.
Proof. reflexivity. Qed.

(** ** The chunker *)

Section Chunker.

Variables (taille_chunk chevauchement : Z).

(** The inner loop appends, in order, the windows that are not blank,
    each with the file name, and shows no warning. *)
Lemma boucle_chunks (texte fichier : str) (r : list Z) (e : etat) :
  let e' := fold_left (ajouter_chunk texte fichier taille_chunk) r e in
  let cs := filter (fun c => negb (blanc c))
                   (map (fenetre texte taille_chunk) r) in
  chunks e' = chunks e ++ cs
  /\ metadatas e' = metadatas e ++ map (fun _ => fichier) cs
  /\ warnings e' = warnings e.
Proof.
  revert e. induction r as [|i r IH]; intros e; simpl.
  - rewrite !app_nil_r. auto.
  - destruct (IH (ajouter_chunk texte fichier taille_chunk e i))
      as (Hc & Hm & Hw).
    rewrite Hc, Hm, Hw. unfold ajouter_chunk, fenetre.
    rewrite garde_strip.
    destruct (blanc (slice texte i (i + taille_chunk))); simpl.
    + auto.
    + rewrite <- !app_assoc. auto.
Qed.

Lemma chunker_fenetres (texte : str) (r : list Z) :
  range 0 (len texte) (taille_chunk - chevauchement) = Ok r ->
  chunker texte taille_chunk chevauchement
  = Ok (filter (fun c => negb (blanc c))
               (map (fenetre texte taille_chunk) r)).
Proof.
  intros Hr. unfold chunker. rewrite Hr. simpl.
  destruct (boucle_chunks texte [] r etat_initial) as (Hc & _).
  rewrite Hc. reflexivity.
Qed.

(** Appending to two lists of the same length appends to their zip. *)
Lemma paires_app (cs cs' ms ms' : list str) :
  length cs = length ms ->
  combine (cs ++ cs') (ms ++ ms') = combine cs ms ++ combine cs' ms'.
Proof.
  intros Hlen. revert ms Hlen.
  induction cs as [|c cs IH]; intros [|m ms] Hlen; simpl in *;
    try discriminate; [reflexivity|].
  f_equal. apply IH. lia.
Qed.

Lemma combine_const {A B} (l : list A) (b : B) :
  combine l (map (fun _ => b) l) = map (fun a => (a, b)) l.
Proof. induction l; simpl; congruence. Qed.

(** One turn of the outer loop adds the entry's pairs and keeps the two
    lists of the same length. *)
Lemma traiter_fichier_paires (e : etat) (f : entree) :
  length (chunks e) = length (metadatas e) ->
  let e' := traiter_fichier taille_chunk chevauchement e f in
  length (chunks e') = length (metadatas e')
  /\ paires e' = paires e ++ morceaux taille_chunk chevauchement f.
Proof.
  intros Hlen. unfold traiter_fichier, morceaux, est_pdf, paires.
  destruct (endswith (lower (nom f)) (lit ".pdf")); simpl;
    [|rewrite app_nil_r; auto].
  unfold traiter_pdf, extraire.
  destruct (fitz_open (fichier_contenu f)) as [doc|x]; simpl;
    [|rewrite app_nil_r; auto].
  destruct (lire_pages doc []) as [texte|x]; simpl;
    [|rewrite app_nil_r; auto].
  unfold chunker.
  destruct (range 0 (len texte) (taille_chunk - chevauchement)) as [r|x];
    simpl; [|rewrite app_nil_r; auto].
  destruct (boucle_chunks texte (nom f) r e) as (Hc & Hm & _).
  destruct (boucle_chunks texte [] r etat_initial) as (Hc0 & _).
  rewrite Hc, Hm, Hc0. simpl. split.
  - rewrite !length_app, length_map. lia.
  - rewrite paires_app by exact Hlen. f_equal. apply combine_const.
Qed.

Lemma boucle_fichiers (fichiers : list entree) (e : etat) :
  length (chunks e) = length (metadatas e) ->
  let e' := fold_left (traiter_fichier taille_chunk chevauchement)
                      fichiers e in
  length (chunks e') = length (metadatas e')
  /\ paires e' = paires e
                 ++ flat_map (morceaux taille_chunk chevauchement) fichiers.
Proof.
  revert e. induction fichiers as [|f fichiers IH]; intros e Hlen; simpl.
  - rewrite app_nil_r. auto.
  - destruct (traiter_fichier_paires e f Hlen) as (Hl & Hp).
    destruct (IH _ Hl) as (Hl' & Hp').
    split; [exact Hl'|]. rewrite Hp', Hp, app_assoc. reflexivity.
Qed.

(** The result of the function, entry by entry. *)
Lemma lire_et_chunker_pdfs_paires (fichiers : list entree) :
  exists e,
    lire_et_chunker_pdfs (Some fichiers) taille_chunk chevauchement = Ok e
    /\ length (chunks e) = length (metadatas e)
    /\ paires e = flat_map (morceaux taille_chunk chevauchement) fichiers.
Proof.
  eexists. split; [reflexivity|].
  apply (boucle_fichiers fichiers etat_initial). reflexivity.
Qed.

Lemma morceaux_origine (f : entree) (c o : str) :
  In (c, o) (morceaux taille_chunk chevauchement f) ->
  o = nom f
  /\ est_pdf (nom f) = true
  /\ exists texte i,
       extraire (fichier_contenu f) = Ok texte
       /\ 0 <= i < len texte
       /\ c = slice texte i (i + taille_chunk)
       /\ blanc c = false.
Proof.
  unfold morceaux. destruct (est_pdf (nom f)); [|intros []].
  destruct (extraire (fichier_contenu f)) as [texte|x]; [|intros []].
  destruct (Z_dec' 0 (taille_chunk - chevauchement)) as [[Hs|Hs]|Hs].
  - rewrite (chunker_fenetres texte (range_pos (len texte) Hs)).
    intros H. apply in_map_iff in H. destruct H as (c' & E & H).
    injection E as -> ->. apply filter_In in H. destruct H as (H & Hb).
    apply in_map_iff in H. destruct H as (i & Hi & H).
    apply in_map_iff in H. destruct H as (k & Hk & H).
    apply in_seq in H. split; [reflexivity|]. split; [reflexivity|].
    exists texte, i. split; [reflexivity|]. split; [|split].
    + subst i. set (step := taille_chunk - chevauchement) in *.
      split; [apply Z.mul_nonneg_nonneg; lia|].
      assert (Hq : Z.of_nat k + 1 <= (len texte + step - 1) / step) by lia.
      apply (Z.mul_le_mono_nonneg_r _ _ step) in Hq; [|lia].
      pose proof (Z.mul_div_le (len texte + step - 1) step Hs). lia.
    + symmetry. exact Hi.
    + apply negb_true_iff. exact Hb.
  - rewrite (chunker_fenetres texte (range_neg (len_nonneg texte) Hs)).
    intros [].
  - unfold chunker. rewrite <- Hs. simpl. intros [].
Qed.

End Chunker.

Lemma nth_error_combine {A B} (l1 : list A) (l2 : list B) i a :
  length l1 = length l2 ->
  nth_error l1 i = Some a ->
  exists b, nth_error l2 i = Some b /\ In (a, b) (combine l1 l2).
Proof.
  revert l2 i. induction l1 as [|x l1 IH]; intros [|y l2] [|i] Hl H;
    simpl in *; try discriminate.
  - injection H as ->. exists y. auto.
  - destruct (IH l2 i) as (b & Hb & Hin); [lia|exact H|].
    exists b. auto.
Qed.

Lemma combine_nil_eq {A B} (l1 : list A) (l2 : list B) :
  length l1 = length l2 -> combine l1 l2 = [] -> l1 = [] /\ l2 = [].
Proof.
  destruct l1, l2; simpl; intros Hl H; try discriminate; auto.
Qed.

(** C10. For every corpus directory, [lire_et_chunker_pdfs] returns two
    lists of the same length, and the entry of [metadatas] at an index is
    the name of the file from whose text the chunk at that index was sliced;
    the pairs are those of the directory's entries in listing order, where a
    file that is not a PDF name or that fails to be read contributes none. *)
Theorem lire_et_chunker_pdfs_origines
    (fichiers : list entree) (taille_chunk chevauchement : Z) :
  exists e,
    lire_et_chunker_pdfs (Some fichiers) taille_chunk chevauchement = Ok e
    /\ length (chunks e) = length (metadatas e)
    /\ paires e = flat_map (morceaux taille_chunk chevauchement) fichiers
    /\ forall i c,
         nth_error (chunks e) i = Some c ->
         exists f texte j,
           In f fichiers
           /\ nth_error (metadatas e) i = Some (nom f)
           /\ extraire (fichier_contenu f) = Ok texte
           /\ 0 <= j < len texte
           /\ c = slice texte j (j + taille_chunk).
Proof.
  destruct (lire_et_chunker_pdfs_paires taille_chunk chevauchement fichiers)
    as (e & He & Hl & Hp).
  exists e. repeat split; try assumption.
  intros i c Hc.
  destruct (@nth_error_combine _ _ _ _ _ _ Hl Hc) as (o & Ho & Hin).
  fold (paires e) in Hin. rewrite Hp in Hin.
  apply in_flat_map in Hin. destruct Hin as (f & Hf & Hin).
  apply morceaux_origine in Hin.
  destruct Hin as (-> & _ & texte & j & Hx & Hj & -> & _).
  exists f, texte, j. auto.
Qed.

Lemma morceaux_pas_negatif (taille_chunk chevauchement : Z) (f : entree) :
  taille_chunk <= chevauchement ->
  morceaux taille_chunk chevauchement f = [].
Proof.
  intros H. unfold morceaux. destruct (est_pdf (nom f)); [|reflexivity].
  destruct (extraire (fichier_contenu f)) as [texte|x]; [|reflexivity].
  destruct (Z.eq_dec taille_chunk chevauchement) as [E|E].
  - unfold chunker. replace (taille_chunk - chevauchement) with 0 by lia.
    reflexivity.
  - rewrite (@chunker_fenetres _ _ texte []); [reflexivity|].
    apply range_neg; [apply len_nonneg | lia].
Qed.

(** C2 (amended). For every chunk size and overlap with the overlap at
    least the chunk size, [lire_et_chunker_pdfs] produces no chunk: it
    returns normally, with two empty lists, and raises nothing. *)
Theorem chevauchement_trop_grand
    (fichiers : list entree) (taille_chunk chevauchement : Z) :
  taille_chunk <= chevauchement ->
  exists e,
    lire_et_chunker_pdfs (Some fichiers) taille_chunk chevauchement = Ok e
    /\ chunks e = [] /\ metadatas e = []
    /\ ~ raises (lire_et_chunker_pdfs (Some fichiers)
                   taille_chunk chevauchement).
Proof.
  intros H.
  destruct (lire_et_chunker_pdfs_paires taille_chunk chevauchement fichiers)
    as (e & He & Hl & Hp).
  exists e. split; [exact He|].
  assert (Hnil : paires e = []).
  { rewrite Hp. clear Hp He. induction fichiers as [|f l IH]; simpl;
      [reflexivity|]. rewrite morceaux_pas_negatif by exact H. exact IH. }
  destruct (@combine_nil_eq _ _ _ _ Hl Hnil) as (Hc & Hm).
  repeat split; try assumption.
  intros (x & Hx). rewrite He in Hx. discriminate.
Qed.

Lemma chevauchement_trop_grand_witness :
  exists e,
    lire_et_chunker_pdfs (Some [document (lit "a.pdf") (lit "bonjour")])
      500 500 = Ok e
    /\ chunks e = [] /\ metadatas e = []
    /\ ~ raises (lire_et_chunker_pdfs
                   (Some [document (lit "a.pdf") (lit "bonjour")]) 500 500).
Proof.
  apply (@chevauchement_trop_grand
           [document (lit "a.pdf") (lit "bonjour")] 500 500).
  lia.
Defined.

(** C2 (as stated) fails: with an overlap of 600 and a chunk size of 500 a
    readable document is neither rejected nor reported; the function
    returns two empty lists and no warning. *)
Lemma chevauchement_non_rejete :
  600 >= 500
  /\ lire_et_chunker_pdfs (Some [document (lit "a.pdf") (lit "bonjour")])
       500 600
     = Ok {| chunks := []; metadatas := []; warnings := [] |}
  /\ ~ raises (lire_et_chunker_pdfs
                 (Some [document (lit "a.pdf") (lit "bonjour")]) 500 600).
Proof.
  split; [lia|]. split; [reflexivity|].
  intros (x & Hx). discriminate.
Qed.

Lemma traiter_pdf_extraire (f : entree) (texte : str) (t c : Z) (e : etat) :
  extraire (fichier_contenu f) = Ok texte ->
  traiter_pdf f t c e
  = (r <- range 0 (len texte) (t - c) ;;
     Ok (fold_left (ajouter_chunk texte (nom f) t) r e)).
Proof.
  unfold extraire, traiter_pdf. intros H.
  destruct (fitz_open (fichier_contenu f)) as [doc|x]; simpl in *;
    [|discriminate].
  rewrite H. reflexivity.
Qed.

Lemma fenetre_nat (texte : str) (w a : nat) :
  fenetre texte (Z.of_nat w) (Z.of_nat a)
  = firstn (Nat.min (a + w) (length texte) - Nat.min a (length texte))
           (skipn (Nat.min a (length texte)) texte).
Proof.
  unfold fenetre. rewrite <- Nat2Z.inj_add. apply slice_nat.
Qed.

Lemma filter_length_bound {A} (p : A -> bool) (l : list A) :
  (length (filter p l) <= length l)%nat.
Proof.
  induction l as [|a l IH]; simpl; [lia|]. destruct (p a); simpl; lia.
Qed.

Lemma filter_tout {A} (p : A -> bool) (l : list A) :
  (forall a, In a l -> p a = true) -> filter p l = l.
Proof.
  induction l as [|a l IH]; simpl; intros H; [reflexivity|].
  rewrite (H a) by auto. f_equal. apply IH. auto.
Qed.

(** C4 (amended). A document whose text has exactly 600 characters and
    whose two windows [0:500] and [400:600] are not blank gives, with a
    chunk size of 500 and an overlap of 100, exactly these two chunks, of
    lengths 500 and 200, each with the document's name. *)
Theorem exemple_600_caracteres (f : entree) (texte : str) :
  est_pdf (nom f) = true ->
  extraire (fichier_contenu f) = Ok texte ->
  length texte = 600%nat ->
  blanc (slice texte 0 500) = false ->
  blanc (slice texte 400 600) = false ->
  lire_et_chunker_pdfs (Some [f]) 500 100
  = Ok {| chunks := [slice texte 0 500; slice texte 400 600];
          metadatas := [nom f; nom f];
          warnings := [] |}
  /\ length (slice texte 0 500) = 500%nat
  /\ length (slice texte 400 600) = 200%nat.
Proof.
  intros Hpdf Hx HL Hb1 Hb2.
  assert (E : slice texte 400 (400 + 500) = slice texte 400 600).
  { change 400 with (Z.of_nat 400). change 600 with (Z.of_nat 600).
    change (Z.of_nat 400 + 500) with (Z.of_nat 900).
    rewrite !slice_nat, HL. reflexivity. }
  split; [|split].
  - unfold lire_et_chunker_pdfs. simpl. unfold traiter_fichier.
    fold (est_pdf (nom f)). rewrite Hpdf.
    rewrite (traiter_pdf_extraire f 500 100 etat_initial Hx).
    unfold len. rewrite HL.
    change (range 0 (Z.of_nat 600) (500 - 100)) with (Ok [0; 400]).
    cbn [bind fold_left]. unfold ajouter_chunk.
    rewrite !garde_strip. change (0 + 500) with 500.
    rewrite E, Hb1. cbn [negb chunks metadatas warnings etat_initial app].
    rewrite Hb2. reflexivity.
  - change 0 with (Z.of_nat 0). change 500 with (Z.of_nat 500).
    rewrite slice_nat_length, HL. reflexivity.
  - change 400 with (Z.of_nat 400). change 600 with (Z.of_nat 600).
    rewrite slice_nat_length, HL. reflexivity.
Qed.

Lemma exemple_600_caracteres_witness :
  let texte := repeter 65 600 in
  let f := document (lit "a.pdf") texte in
  lire_et_chunker_pdfs (Some [f]) 500 100
  = Ok {| chunks := [slice texte 0 500; slice texte 400 600];
          metadatas := [nom f; nom f];
          warnings := [] |}
  /\ length (slice texte 0 500) = 500%nat
  /\ length (slice texte 400 600) = 200%nat.
Proof.
  apply (@exemple_600_caracteres
           (document (lit "a.pdf") (repeter 65 600)) (repeter 65 600));
    vm_compute; reflexivity.
Defined.

(** C4 (as stated) fails: a text of 600 spaces has exactly 600 characters
    and gives no chunk at all. *)
Lemma exemple_600_espaces :
  length (repeter 32 600) = 600%nat
  /\ lire_et_chunker_pdfs
       (Some [document (lit "a.pdf") (repeter 32 600)]) 500 100
     = Ok {| chunks := []; metadatas := []; warnings := [] |}.
Proof. split; vm_compute; reflexivity. Qed.

(** The windows of the default configuration overlap as lines 45-46 make
    them: the last characters of one are the first of the next. *)
Lemma fenetres_chevauchent (texte : str) (k : nat) :
  (400 * (k + 1) < length texte)%nat ->
  let m := Nat.min 100 (length texte - 400 * (k + 1)) in
  skipn 400 (fenetre texte 500 (Z.of_nat (400 * k)))
  = firstn m (fenetre texte 500 (Z.of_nat (400 * (k + 1))))
  /\ length (skipn 400 (fenetre texte 500 (Z.of_nat (400 * k)))) = m.
Proof.
  intros H m. change 500 with (Z.of_nat 500). rewrite !fenetre_nat.
  rewrite skipn_firstn_comm, skipn_skipn, firstn_firstn.
  replace (400 + Nat.min (400 * k) (length texte))%nat
    with (Nat.min (400 * (k + 1)) (length texte)) by lia.
  split.
  - f_equal. lia.
  - rewrite length_firstn, length_skipn. lia.
Qed.

(** C5 (amended). For every text of length [L] chunked with a chunk size
    of 500 and an overlap of 100: the chunks are the windows
    [texte[400k : 400k+500]], [k < ceil(L/400)], that are not blank, in
    order; every chunk has at most 500 characters and is not blank; there
    are at most [ceil(L/400)] chunks, and exactly that many when no window
    is blank; a window that ends within the text has exactly 500
    characters, so that only the last two windows may be shorter;
    and the characters of a window after its first 400 are the first
    [min(100, L - 400(k+1))] characters of the next window. *)
Theorem chunker_defaut (texte : str) :
  let L := len texte in
  let n := Z.to_nat ((L + 399) / 400) in
  let fen := fun k : nat => fenetre texte 500 (Z.of_nat (400 * k)) in
  exists cs,
    chunker texte 500 100 = Ok cs
    /\ cs = filter (fun c => negb (blanc c)) (map fen (seq 0 n))
    /\ Forall (fun c => len c <= 500 /\ blanc c = false) cs
    /\ (length cs <= n)%nat
    /\ ((forall k, (k < n)%nat -> blanc (fen k) = false) ->
        length cs = n /\ cs = map fen (seq 0 n))
    /\ (forall k, Z.of_nat (400 * k) + 500 <= L -> len (fen k) = 500)
    /\ (forall k, (k + 3 <= n)%nat -> len (fen k) = 500)
    /\ (forall k, Z.of_nat (400 * (k + 1)) < L ->
          let m := Z.min 100 (L - Z.of_nat (400 * (k + 1))) in
          skipn 400 (fen k) = firstn (Z.to_nat m) (fen (S k))
          /\ len (skipn 400 (fen k)) = m).
Proof.
  intros L n fen.
  assert (Hr : range 0 (len texte) (500 - 100)
               = Ok (map (fun k => Z.of_nat (400 * k)) (seq 0 n))).
  { rewrite range_pos by lia. change (500 - 100) with 400.
    replace (len texte + 400 - 1) with (L + 399) by (unfold L; lia).
    fold n. f_equal. apply map_ext. intros k. lia. }
  exists (filter (fun c => negb (blanc c)) (map fen (seq 0 n))).
  split.
  { rewrite (chunker_fenetres 500 100 texte Hr). rewrite map_map.
    reflexivity. }
  split; [reflexivity|].
  split.
  { apply Forall_forall. intros c Hc. apply filter_In in Hc.
    destruct Hc as (Hc & Hb). apply negb_true_iff in Hb.
    split; [|exact Hb]. apply in_map_iff in Hc.
    destruct Hc as (k & <- & _). unfold fen.
    change 500 with (Z.of_nat 500) at 1. rewrite fenetre_nat.
    unfold len. rewrite length_firstn, length_skipn. lia. }
  split.
  { etransitivity; [apply filter_length_bound|].
    rewrite length_map, length_seq. lia. }
  split.
  { intros Hb.
    assert (E : filter (fun c => negb (blanc c)) (map fen (seq 0 n))
                = map fen (seq 0 n)).
    { apply filter_tout. intros c Hc. apply in_map_iff in Hc.
      destruct Hc as (k & <- & Hk). apply in_seq in Hk.
      rewrite Hb by lia. reflexivity. }
    rewrite E, length_map, length_seq. auto. }
  assert (Hplein : forall k, Z.of_nat (400 * k) + 500 <= L ->
                             len (fen k) = 500).
  { intros k Hk. unfold fen. change 500 with (Z.of_nat 500) at 1.
    rewrite fenetre_nat. unfold len, L, len in *.
    rewrite length_firstn, length_skipn. lia. }
  split; [exact Hplein|].
  split.
  { intros k Hk. apply Hplein.
    pose proof (Z.mul_div_le (L + 399) 400 ltac:(lia)).
    pose proof (len_nonneg texte). fold L in H0.
    assert (0 <= (L + 399) / 400) by (apply Z.div_pos; lia).
    unfold n in Hk. lia. }
  intros k Hk m. unfold L, len in Hk.
  destruct (@fenetres_chevauchent texte k) as (H1 & H2); [lia|].
  replace (S k) with (k + 1)%nat by lia.
  replace (Z.to_nat m)
    with (Nat.min 100 (length texte - 400 * (k + 1))).
  - split; [exact H1|]. unfold len, fen. rewrite H2. unfold m, L, len. lia.
  - unfold m, L, len. lia.
Qed.

Lemma chunker_defaut_witness :
  let texte := repeter 65 600 in
  exists cs,
    chunker texte 500 100 = Ok cs
    /\ length cs = 2%nat
    /\ skipn 400 (fenetre texte 500 0) = firstn 100 (fenetre texte 500 400).
Proof.
  intros texte.
  destruct (chunker_defaut texte) as (cs & Hc & _ & _ & _ & Hn & _ & _ & Ho).
  exists cs. split; [exact Hc|]. split.
  - apply Hn. intros [|[|k]] Hk; [reflexivity|reflexivity|].
    vm_compute in Hk. lia.
  - apply (Ho 0%nat). vm_compute. reflexivity.
Defined.

(** C5 (as stated) fails twice.  A text of 450 letters gives two chunks
    and the first, which is not the final one, has 450 characters; a text
    of 1200 spaces gives no chunk, where [ceil(1200/400)] is 3. *)
Lemma chunker_defaut_contre_exemple :
  (exists c0 c1,
     chunker (repeter 65 450) 500 100 = Ok [c0; c1]
     /\ len c0 = 450 /\ len c0 < 500 /\ len c1 = 50)
  /\ chunker (repeter 32 1200) 500 100 = Ok []
  /\ (len (repeter 32 1200) + 399) / 400 = 3.
Proof.
  split; [|split; vm_compute; reflexivity].
  eexists _, _. split; [vm_compute; reflexivity|].
  vm_compute. repeat split; discriminate.
Qed.

(** A directory without a readable PDF document yields no chunk. *)
Lemma lire_et_chunker_pdfs_sans_texte
    (fichiers : list entree) (taille_chunk chevauchement : Z) :
  Forall (fun f => est_pdf (nom f) = false
                   \/ raises (extraire (fichier_contenu f))) fichiers ->
  exists e,
    lire_et_chunker_pdfs (Some fichiers) taille_chunk chevauchement = Ok e
    /\ chunks e = [] /\ metadatas e = [].
Proof.
  intros H.
  destruct (lire_et_chunker_pdfs_paires taille_chunk chevauchement fichiers)
    as (e & He & Hl & Hp).
  exists e. split; [exact He|].
  apply (@combine_nil_eq _ _ _ _ Hl). fold (paires e). rewrite Hp.
  clear He Hl Hp. induction H as [|f l Hf _ IH]; [reflexivity|].
  simpl. rewrite IH, app_nil_r. unfold morceaux.
  destruct Hf as [-> | (x & ->)]; [reflexivity|].
  destruct (est_pdf (nom f)); reflexivity.
Qed.

(** ** The index *)

Lemma inserer_perm (e : Q * nat) (l : list (Q * nat)) :
  Permutation (inserer e l) (e :: l).
Proof.
  induction l as [|h t IH]; simpl; [reflexivity|].
  destruct (Qle_bool (fst h) (fst e)); [|reflexivity].
  rewrite IH. apply perm_swap.
Qed.

Lemma inserer_trie (e : Q * nat) (l : list (Q * nat)) :
  StronglySorted avant l -> StronglySorted avant (inserer e l).
Proof.
  induction 1 as [|h t Hs IH Hh]; simpl.
  - repeat constructor.
  - destruct (Qle_bool (fst h) (fst e)) eqn:E.
    + constructor; [exact IH|].
      apply Forall_forall. intros x Hx.
      apply (Permutation_in _ (inserer_perm e t)) in Hx.
      destruct Hx as [<-|Hx].
      * apply Qle_bool_iff. exact E.
      * rewrite Forall_forall in Hh. auto.
    + assert (He : (fst e <= fst h)%Q).
      { apply Qlt_le_weak. apply Qnot_le_lt. intros H.
        apply Qle_bool_iff in H. congruence. }
      constructor; [constructor; assumption|].
      constructor; [exact He|].
      apply Forall_forall. intros x Hx. rewrite Forall_forall in Hh.
      unfold avant in *. eapply Qle_trans; [exact He|]. auto.
Qed.

Lemma classer_boucle (l acc : list (Q * nat)) :
  StronglySorted avant acc ->
  let r := fold_left (fun acc e => inserer e acc) l acc in
  StronglySorted avant r /\ Permutation r (l ++ acc).
Proof.
  revert acc. induction l as [|e l IH]; intros acc Hs; simpl.
  - split; [exact Hs|reflexivity].
  - destruct (IH (inserer e acc) (@inserer_trie e acc Hs)) as (H1 & H2).
    split; [exact H1|]. rewrite H2, inserer_perm.
    symmetry. apply Permutation_middle.
Qed.

Section Classement.

Variable fvec_L2sqr : vecteur -> vecteur -> Q.

Lemma classer_trie (q : vecteur) (stored : list vecteur) :
  StronglySorted avant (classer fvec_L2sqr q stored)
  /\ Permutation (classer fvec_L2sqr q stored)
       (combine (map (fvec_L2sqr q) stored) (seq 0 (length stored))).
Proof.
  unfold classer.
  destruct (@classer_boucle
              (combine (map (fvec_L2sqr q) stored) (seq 0 (length stored))) []
              (SSorted_nil _))
    as (H1 & H2).
  rewrite app_nil_r in H2. auto.
Qed.

Lemma combine_seq_nth (q : vecteur) (stored : list vecteur) (s : nat) e :
  In e (combine (map (fvec_L2sqr q) stored) (seq s (length stored))) ->
  (s <= snd e < s + length stored)%nat
  /\ fst e = fvec_L2sqr q (nth (snd e - s) stored []).
Proof.
  revert s. induction stored as [|v stored IH]; intros s; simpl; [intros []|].
  intros [<-|H]; simpl.
  - rewrite Nat.sub_diag. split; [lia|reflexivity].
  - apply IH in H. destruct H as (H1 & H2). split; [lia|].
    rewrite H2. destruct (snd e - s)%nat eqn:E; [lia|].
    f_equal. f_equal. lia.
Qed.

Lemma map_snd_combine {A B} (l1 : list A) (l2 : list B) :
  length l1 = length l2 -> map snd (combine l1 l2) = l2.
Proof.
  revert l2. induction l1 as [|a l1 IH]; intros [|b l2] H; simpl in *;
    try discriminate; [reflexivity|].
  f_equal. apply IH. lia.
Qed.

Lemma StronglySorted_map {A B} (f : A -> B) (R : B -> B -> Prop)
    (l : list A) :
  StronglySorted (fun a a' => R (f a) (f a')) l ->
  StronglySorted R (map f l).
Proof.
  induction 1 as [|a l Hs IH Ha]; simpl; constructor; [exact IH|].
  apply Forall_forall. intros b Hb. apply in_map_iff in Hb.
  destruct Hb as (a' & <- & Ha').
  rewrite Forall_forall in Ha. auto.
Qed.

Lemma StronglySorted_weaken {A} (R R' : A -> A -> Prop) (l : list A) :
  (forall a a', In a l -> In a' l -> R a a' -> R' a a') ->
  StronglySorted R l -> StronglySorted R' l.
Proof.
  intros H Hs. induction Hs as [|a l Hs IH Ha]; constructor.
  - apply IH. intros; apply H; simpl; auto.
  - rewrite Forall_forall in *. intros x Hx. apply H; simpl; auto.
Qed.

(** The positions of a ranking: a permutation of all the positions, in
    ascending order of distance. *)
Lemma classer_positions (q : vecteur) (stored : list vecteur) :
  let ps := map snd (classer fvec_L2sqr q stored) in
  Permutation ps (seq 0 (length stored))
  /\ StronglySorted
       (fun p p' => (fvec_L2sqr q (nth p stored []) <= fvec_L2sqr q (nth p' stored []))%Q) ps.
Proof.
  destruct (classer_trie q stored) as (Hs & Hp). split.
  - rewrite Hp. rewrite map_snd_combine; [reflexivity|].
    rewrite length_map, length_seq. reflexivity.
  - apply StronglySorted_map.
    apply StronglySorted_weaken with (R := avant); [|exact Hs].
    intros a a' Ha Ha' H.
    apply (Permutation_in _ Hp) in Ha, Ha'.
    apply combine_seq_nth in Ha, Ha'.
    destruct Ha as (_ & Ea), Ha' as (_ & Ea').
    rewrite !Nat.sub_0_r in *. unfold avant in H.
    rewrite Ea, Ea' in H. exact H.
Qed.

Lemma dans_firstn {A} (n : nat) (l : list A) (x : A) :
  In x (firstn n l) -> In x l.
Proof.
  intros H. rewrite <- (firstn_skipn n l). apply in_or_app. left. exact H.
Qed.

Lemma classer_longueur (q : vecteur) (stored : list vecteur) :
  length (classer fvec_L2sqr q stored) = length stored.
Proof.
  destruct (classer_positions q stored) as (Hperm & _).
  apply Permutation_length in Hperm.
  rewrite length_map, length_seq in Hperm. exact Hperm.
Qed.

Lemma classer_positions_bornees (q : vecteur) (stored : list vecteur) e :
  In e (classer fvec_L2sqr q stored) -> (snd e < length stored)%nat.
Proof.
  intros He. destruct (classer_positions q stored) as (Hperm & _).
  assert (H : In (snd e) (seq 0 (length stored))).
  { apply (Permutation_in _ Hperm). apply in_map. exact He. }
  apply in_seq in H. lia.
Qed.

End Classement.

Lemma index_nat {A} (l : list A) (p : nat) (d : A) :
  (p < length l)%nat -> Py.index l (Z.of_nat p) = Ok (nth p l d).
Proof.
  intros H. unfold Py.index, len.
  destruct (Z.ltb_spec (Z.of_nat p) 0); [lia|].
  destruct (Z.ltb_spec (Z.of_nat p) 0); [lia|].
  destruct (Z.leb_spec (Z.of_nat (length l)) (Z.of_nat p)); [lia|].
  simpl. rewrite Nat2Z.id.
  destruct (nth_error l p) eqn:E.
  - rewrite (nth_error_nth _ _ d E). reflexivity.
  - apply nth_error_None in E. lia.
Qed.

Lemma nth_dernier {A} (l : list A) (d : A) :
  nth (length l - 1) l d = last l d.
Proof.
  induction l as [|a [|b l] IH]; try reflexivity.
  change (last (a :: b :: l) d) with (last (b :: l) d). rewrite <- IH.
  simpl. rewrite Nat.sub_0_r. reflexivity.
Qed.

Lemma index_dernier {A} (l : list A) (d : A) :
  l <> [] -> Py.index l (-1) = Ok (last l d).
Proof.
  intros H. assert (Hl : (0 < length l)%nat).
  { destruct l; [congruence|]. simpl. lia. }
  unfold Py.index, len. change (-1 <? 0) with true. cbv beta iota zeta.
  destruct (Z.ltb_spec (-1 + Z.of_nat (length l)) 0); [lia|].
  destruct (Z.leb_spec (Z.of_nat (length l)) (-1 + Z.of_nat (length l)));
    [lia|]. cbn [orb].
  replace (Z.to_nat (-1 + Z.of_nat (length l))) with (length l - 1)%nat
    by lia.
  destruct (nth_error l (length l - 1)) eqn:E.
  - rewrite <- (nth_dernier l d), (nth_error_nth _ _ d E). reflexivity.
  - apply nth_error_None in E. lia.
Qed.

Lemma index_vide {A} (i : Z) : Py.index (@nil A) i = Raise IndexError.
Proof.
  unfold Py.index, len. simpl.
  destruct (i <? 0); rewrite Z.add_0_r || idtac;
    destruct (Z.ltb_spec i 0); simpl; try reflexivity;
    destruct (Z.leb_spec 0 i); try reflexivity; lia.
Qed.

Lemma pour_chaque_app {A B} (f : A -> res B) (l1 l2 : list A) :
  pour_chaque f (l1 ++ l2)
  = (b1 <- pour_chaque f l1 ;; b2 <- pour_chaque f l2 ;; Ok (b1 ++ b2)).
Proof.
  induction l1 as [|a l1 IH]; simpl.
  - destruct (pour_chaque f l2); reflexivity.
  - destruct (f a) as [b|x]; simpl; [|reflexivity].
    rewrite IH. destruct (pour_chaque f l1) as [b1|x]; simpl; [|reflexivity].
    destruct (pour_chaque f l2); reflexivity.
Qed.

Lemma pour_chaque_map {A B} (f : A -> res B) (g : A -> B) (l : list A) :
  (forall a, In a l -> f a = Ok (g a)) -> pour_chaque f l = Ok (map g l).
Proof.
  induction l as [|a l IH]; simpl; intros H; [reflexivity|].
  rewrite (H a) by auto. simpl. rewrite IH by auto. reflexivity.
Qed.

Section Recherche_proprietes.

Variable fvec_L2sqr : vecteur -> vecteur -> Q.
Variable dim : nat.
Variable encoder_texte : str -> vecteur.

Lemma construire_index_non_vide (chunks : list str) :
  chunks <> [] ->
  construire_index dim encoder_texte chunks
  = Ok ({| dimension := dim; xb := map encoder_texte chunks |},
        model_encode dim encoder_texte chunks).
Proof.
  intros H. destruct chunks as [|c l]; [congruence|].
  unfold construire_index, model_encode, shape_at, index_add.
  cbn [shape lignes]. change (Py.index [length (c :: l); dim] 1) with (Ok dim).
  cbn [bind shape dimension xb lignes]. rewrite Nat.eqb_refl. reflexivity.
Qed.

Lemma construire_index_vide :
  construire_index dim encoder_texte [] = Raise IndexError.
Proof. reflexivity. Qed.

(** The search of one question in an index of dimension [dim]. *)
Lemma rechercher_passages_labels (question : str) (chunks : list str)
    (stored : list vecteur) (top_k : Z) :
  1 <= top_k ->
  rechercher_passages fvec_L2sqr dim encoder_texte question chunks
    {| dimension := dim; xb := stored |} top_k
  = pour_chaque (fun i => Py.index chunks i)
      (snd (meilleurs (Z.to_nat top_k)
                      (classer fvec_L2sqr (encoder_texte question) stored))).
Proof.
  intros Hk. unfold rechercher_passages, index_search, model_encode.
  cbn [shape lignes dimension xb]. rewrite Nat.eqb_refl.
  destruct (Z.ltb_spec 0 top_k); [|lia]. cbn [negb map bind snd].
  reflexivity.
Qed.

(** What the search returns on the index of a corpus: the chunks at the
    first positions of the ranking, then one chunk for each label [-1] of
    the library, which [chunks[-1]] reads as the last chunk. *)
Lemma rechercher_passages_classement
    (question : str) (chunks : list str) (top_k : Z) :
  chunks <> [] ->
  1 <= top_k ->
  rechercher_passages fvec_L2sqr dim encoder_texte question chunks
    {| dimension := dim; xb := map encoder_texte chunks |} top_k
  = Ok (map (fun e => nth (snd e) chunks [])
          (firstn (Z.to_nat top_k)
             (classer fvec_L2sqr (encoder_texte question)
                (map encoder_texte chunks)))
        ++ repeat (last chunks [])
             (Z.to_nat top_k - length chunks)).
Proof.
  intros Hne Hk. rewrite rechercher_passages_labels by exact Hk.
  set (r := classer fvec_L2sqr (encoder_texte question)
              (map encoder_texte chunks)).
  unfold meilleurs. cbn [snd]. rewrite pour_chaque_app.
  rewrite (@pour_chaque_map _ _ _ (fun i => nth (Z.to_nat i) chunks [])).
  2:{ intros i Hi. apply in_map_iff in Hi. destruct Hi as (e & <- & He).
      rewrite Nat2Z.id. apply index_nat.
      apply dans_firstn in He. apply classer_positions_bornees in He.
      rewrite length_map in He. exact He. }
  rewrite (@pour_chaque_map _ _ _ (fun _ => last chunks [])).
  2:{ intros i Hi. apply repeat_spec in Hi. subst i.
      apply index_dernier. exact Hne. }
  cbn [bind]. f_equal. f_equal.
  - rewrite map_map. apply map_ext. intros e. rewrite Nat2Z.id. reflexivity.
  - rewrite map_repeat. f_equal. rewrite length_firstn.
    unfold r. rewrite classer_longueur, length_map. lia.
Qed.

Lemma nth_encode (chunks : list str) (n : nat) :
  (n < length chunks)%nat ->
  nth n (map encoder_texte chunks) [] = encoder_texte (nth n chunks []).
Proof.
  intros Hn.
  rewrite (nth_indep _ [] (encoder_texte [])) by (rewrite length_map; lia).
  apply map_nth.
Qed.

End Recherche_proprietes.

Section Recherche_theoremes.

Variable fvec_L2sqr : vecteur -> vecteur -> Q.
Variable dim : nat.
Variable encoder_texte : str -> vecteur.

(** C3 (amended). For every corpus of [N >= 1] chunks indexed by
    [construire_index] and every [top_k] with [1 <= top_k <= N],
    [rechercher_passages] returns exactly [top_k] chunks, at pairwise
    distinct positions of the corpus: the first [top_k] positions of a
    ranking of all the positions by ascending squared distance between the
    question's embedding and the chunk's, the distance being the one the
    index computes in 32-bit floating point.  Nothing is stated for
    [N < top_k]. *)
Theorem rechercher_passages_top_k
    (question : str) (chunks : list str) (top_k : Z) :
  1 <= top_k ->
  top_k <= len chunks ->
  exists index vecteurs positions reste,
    construire_index dim encoder_texte chunks = Ok (index, vecteurs)
    /\ rechercher_passages fvec_L2sqr dim encoder_texte question chunks
         index top_k
       = Ok (map (fun p => nth p chunks []) positions)
    /\ len positions = top_k
    /\ NoDup positions
    /\ Forall (fun p => (p < length chunks)%nat) positions
    /\ Permutation (positions ++ reste) (seq 0 (length chunks))
    /\ StronglySorted
         (fun p p' =>
            (distance fvec_L2sqr encoder_texte question (nth p chunks [])
             <= distance fvec_L2sqr encoder_texte question
                  (nth p' chunks []))%Q)
         (positions ++ reste).
Proof.
  intros Hk HkN.
  assert (Hne : chunks <> []).
  { intros ->. unfold len in HkN. simpl in HkN. lia. }
  set (q := encoder_texte question).
  set (stored := map encoder_texte chunks).
  set (r := classer fvec_L2sqr q stored).
  set (k := Z.to_nat top_k).
  destruct (classer_positions fvec_L2sqr q stored) as (Hperm & Hsort).
  fold r in Hperm, Hsort.
  assert (HN : length stored = length chunks) by apply length_map.
  rewrite HN in Hperm.
  assert (Hr : length r = length chunks).
  { rewrite <- (length_map snd r), (Permutation_length Hperm), length_seq.
    reflexivity. }
  exists {| dimension := dim; xb := stored |},
         (model_encode dim encoder_texte chunks),
         (map snd (firstn k r)), (map snd (skipn k r)).
  assert (Happ : map snd (firstn k r) ++ map snd (skipn k r) = map snd r).
  { rewrite <- map_app, firstn_skipn. reflexivity. }
  assert (Hnd : NoDup (map snd r)).
  { apply (Permutation_NoDup (Permutation_sym Hperm)). apply seq_NoDup. }
  assert (Hlt : Forall (fun p => (p < length chunks)%nat)
                       (map snd (firstn k r))).
  { apply Forall_forall. intros p Hp.
    assert (Hin : In p (map snd r)).
    { rewrite <- Happ. apply in_or_app. auto. }
    apply (Permutation_in _ Hperm) in Hin. apply in_seq in Hin. lia. }
  split; [apply construire_index_non_vide; exact Hne|].
  split.
  { unfold stored. rewrite rechercher_passages_classement by assumption.
    fold q stored r k.
    replace (k - length chunks)%nat with 0%nat by (unfold k, len in *; lia).
    simpl. rewrite app_nil_r, map_map. reflexivity. }
  split; [unfold len; rewrite length_map, length_firstn, Hr;
          unfold k, len in *; lia|].
  split; [rewrite <- Happ in Hnd; apply NoDup_app_remove_r in Hnd; exact Hnd|].
  split; [exact Hlt|].
  split; [rewrite Happ; exact Hperm|].
  rewrite Happ.
  apply StronglySorted_weaken with (2 := Hsort).
  intros p p' Hp Hp' H.
  apply (Permutation_in _ Hperm) in Hp, Hp'. apply in_seq in Hp, Hp'.
  unfold distance. fold q. unfold stored in H.
  rewrite !nth_encode in H by lia. exact H.
Qed.

End Recherche_theoremes.

Lemma rechercher_passages_top_k_witness :
  let chunks := [lit "a"; lit "bbb"; lit "cc"] in
  exists index vecteurs positions reste,
    construire_index 1 encodeur_longueur chunks = Ok (index, vecteurs)
    /\ rechercher_passages distance_exacte 1 encodeur_longueur (lit "xx")
         chunks index 2
       = Ok (map (fun p => nth p chunks []) positions)
    /\ len positions = 2
    /\ NoDup positions
    /\ Forall (fun p => (p < length chunks)%nat) positions
    /\ Permutation (positions ++ reste) (seq 0 (length chunks))
    /\ StronglySorted
         (fun p p' =>
            (distance distance_exacte encodeur_longueur (lit "xx")
               (nth p chunks [])
             <= distance distance_exacte encodeur_longueur (lit "xx")
                  (nth p' chunks []))%Q)
         (positions ++ reste).
Proof.
  intros chunks.
  apply (@rechercher_passages_top_k distance_exacte 1 encodeur_longueur
           (lit "xx") chunks 2).
  - lia.
  - vm_compute. discriminate.
Defined.

Example rechercher_passages_exemple :
  rechercher_passages distance_exacte 1 encodeur_longueur (lit "xx")
    [lit "a"; lit "bbb"; lit "cc"]
    {| dimension := 1;
       xb := map encodeur_longueur [lit "a"; lit "bbb"; lit "cc"] |} 2
  = Ok [lit "cc"; lit "a"].
Proof. vm_compute. reflexivity. Qed.

(** C3 (as stated) fails: with a corpus of two chunks and [top_k = 3] the
    search does not return [min(3, 2)] chunks at distinct positions: it
    returns three, the last two being the same chunk.  In this example the
    embeddings have one component, a small integer, so that the distances
    are computed without rounding. *)
Lemma rechercher_passages_non_borne :
  let chunks := [lit "a"; lit "bbb"] in
  exists index vecteurs,
    construire_index 1 encodeur_longueur chunks = Ok (index, vecteurs)
    /\ rechercher_passages distance_exacte 1 encodeur_longueur (lit "xx")
         chunks index 3
       = Ok [lit "a"; lit "bbb"; lit "bbb"]
    /\ len [lit "a"; lit "bbb"; lit "bbb"] <> Z.min 3 (len chunks).
Proof.
  intros chunks. eexists _, _. split; [vm_compute; reflexivity|].
  split; [vm_compute; reflexivity|]. vm_compute. discriminate.
Qed.

Section Corpus_vide.

Variable fvec_L2sqr : vecteur -> vecteur -> Q.
Variable dim : nat.
Variable encoder_texte : str -> vecteur.

Lemma rechercher_passages_index_vide (question : str) (d : nat) (top_k : Z) :
  1 <= top_k ->
  rechercher_passages fvec_L2sqr dim encoder_texte question []
    {| dimension := d; xb := [] |} top_k
  = Raise (if (dim =? d)%nat then IndexError else AssertionError).
Proof.
  intros Hk. unfold rechercher_passages, index_search, model_encode.
  cbn [shape lignes dimension xb].
  destruct (dim =? d)%nat; [|reflexivity].
  destruct (Z.ltb_spec 0 top_k); [|lia]. cbn [negb map bind snd].
  change (Py.index [snd (meilleurs (Z.to_nat top_k)
                           (classer fvec_L2sqr (encoder_texte question) []))] 0)
    with (Ok (snd (meilleurs (Z.to_nat top_k)
                     (classer fvec_L2sqr (encoder_texte question) [])))).
  cbn [bind]. unfold classer, meilleurs. simpl fold_left.
  rewrite firstn_nil. cbn [map length app snd].
  destruct (Z.to_nat top_k) as [|n] eqn:E; [lia|].
  cbn [Nat.sub repeat app pour_chaque]. rewrite index_vide. reflexivity.
Qed.

(** C1 (amended). If the corpus directory yields no chunks,
    [lire_et_chunker_pdfs] returns its two empty lists without raising,
    but the retrieval that follows raises [IndexError]: in
    [construire_index], at [vecteurs.shape[1]]; and [rechercher_passages]
    on an index without vectors, whatever [top_k >= 1], raises too. *)
Theorem recuperer_corpus_vide
    (dossier : repertoire) (question : str) (e : etat) :
  lire_et_chunker_pdfs dossier 500 100 = Ok e ->
  chunks e = [] ->
  construire_index dim encoder_texte (chunks e) = Raise IndexError
  /\ recuperer fvec_L2sqr dim encoder_texte dossier question = Raise IndexError
  /\ forall top_k, 1 <= top_k ->
       raises (rechercher_passages fvec_L2sqr dim encoder_texte question (chunks e)
                 {| dimension := dim; xb := [] |} top_k).
Proof.
  intros He Hc. rewrite Hc. split; [reflexivity|]. split.
  - unfold recuperer. rewrite He. cbn [bind]. rewrite Hc. reflexivity.
  - intros top_k Hk. eexists.
    apply rechercher_passages_index_vide. exact Hk.
Qed.

End Corpus_vide.

Lemma recuperer_corpus_vide_witness :
  construire_index 1 encodeur_longueur (chunks etat_initial)
  = Raise IndexError
  /\ recuperer distance_exacte 1 encodeur_longueur (Some []) (lit "question")
     = Raise IndexError
  /\ forall top_k, 1 <= top_k ->
       raises (rechercher_passages distance_exacte 1 encodeur_longueur (lit "question")
                 (chunks etat_initial)
                 {| dimension := 1; xb := [] |} top_k).
Proof.
  apply (@recuperer_corpus_vide distance_exacte 1 encodeur_longueur (Some [])
           (lit "question") etat_initial); reflexivity.
Defined.

(** C1 (as stated) fails: a directory whose only document cannot be read
    yields no chunk, and the retrieval raises instead of returning an
    empty sequence. *)
Lemma recuperer_corpus_illisible :
  let dossier := Some [{| nom := lit "a.pdf"; fichier_contenu := Illisible |}] in
  (exists e, lire_et_chunker_pdfs dossier 500 100 = Ok e /\ chunks e = [])
  /\ recuperer distance_exacte 1 encodeur_longueur dossier (lit "question")
     = Raise IndexError
  /\ recuperer distance_exacte 1 encodeur_longueur dossier (lit "question") <> Ok [].
Proof.
  intros dossier. split; [eexists; split; reflexivity|].
  split; [reflexivity | discriminate].
Qed.

(** ** The advisory feed *)

Lemma tuple_lt_irrefl (a : list Z) : tuple_lt a a = false.
Proof.
  induction a as [|x a IH]; simpl; [reflexivity|].
  rewrite Z.eqb_refl. exact IH.
Qed.

Lemma tuple_lt_asym (a b : list Z) :
  tuple_lt a b = true -> tuple_lt b a = false.
Proof.
  revert b. induction a as [|x a IH]; intros [|y b]; simpl; try congruence.
  rewrite (Z.eqb_sym y x).
  destruct (Z.eqb_spec x y); [apply IH|].
  intros H. apply Z.ltb_lt in H. apply Z.ltb_ge. lia.
Qed.

(** [not (b < a)] and [not (c < b)] give [not (c < a)]. *)
Lemma tuple_le_trans (a b c : list Z) :
  tuple_lt b a = false -> tuple_lt c b = false -> tuple_lt c a = false.
Proof.
  revert b c. induction a as [|x a IH]; intros [|y b] [|z c]; simpl;
    try congruence.
  destruct (Z.eqb_spec y x), (Z.eqb_spec z y), (Z.eqb_spec z x);
    subst; try lia; try congruence; try apply IH;
    intros H1 H2; rewrite ?Z.ltb_ge in *; lia.
Qed.

Section Tri_proprietes.

Variable A : Type.
Variable key : A -> struct_time.

Let croissant (x y : A) : Prop := tuple_lt (key y) (key x) = false.
Let decroissant (x y : A) : Prop := tuple_lt (key x) (key y) = false.

Lemma inserer_cle_perm (x : A) (l : list A) :
  Permutation (inserer_cle key x l) (x :: l).
Proof.
  induction l as [|h t IH]; simpl; [reflexivity|].
  destruct (tuple_lt (key x) (key h)); [reflexivity|].
  rewrite IH. apply perm_swap.
Qed.

Lemma inserer_cle_trie (x : A) (l : list A) :
  StronglySorted croissant l -> StronglySorted croissant (inserer_cle key x l).
Proof.
  induction 1 as [|h t Hs IH Hh]; simpl.
  - repeat constructor.
  - rewrite Forall_forall in Hh.
    destruct (tuple_lt (key x) (key h)) eqn:E.
    + constructor; [constructor; [assumption|apply Forall_forall; assumption]|].
      apply Forall_forall. intros y [<-|Hy].
      * apply tuple_lt_asym. exact E.
      * unfold croissant. apply tuple_le_trans with (b := key h).
        -- apply tuple_lt_asym. exact E.
        -- apply Hh. exact Hy.
    + constructor; [exact IH|].
      apply Forall_forall. intros y Hy.
      apply (Permutation_in _ (inserer_cle_perm x t)) in Hy.
      destruct Hy as [<-|Hy]; [exact E | apply Hh; exact Hy].
Qed.

Lemma sorted_boucle (l acc : list A) :
  StronglySorted croissant acc ->
  let r := fold_left (fun acc x => inserer_cle key x acc) l acc in
  StronglySorted croissant r /\ Permutation r (l ++ acc).
Proof.
  revert acc. induction l as [|x l IH]; intros acc Hs; simpl.
  - split; [exact Hs|reflexivity].
  - destruct (IH (inserer_cle key x acc) (@inserer_cle_trie x acc Hs))
      as (H1 & H2).
    split; [exact H1|]. rewrite H2, inserer_cle_perm.
    symmetry. apply Permutation_middle.
Qed.

Lemma StronglySorted_snoc (R : A -> A -> Prop) (l : list A) (a : A) :
  StronglySorted R l -> Forall (fun x => R x a) l ->
  StronglySorted R (l ++ [a]).
Proof.
  induction 1 as [|b l Hs IH Hb]; intros Hf; simpl.
  - repeat constructor.
  - inversion Hf as [|? ? Hba Hf']; subst.
    constructor; [apply IH; exact Hf'|].
    apply Forall_app. split; [exact Hb|]. constructor; [exact Hba|constructor].
Qed.

Lemma StronglySorted_rev (R : A -> A -> Prop) (l : list A) :
  StronglySorted R l -> StronglySorted (fun x y => R y x) (rev l).
Proof.
  induction 1 as [|a l Hs IH Ha]; simpl; [constructor|].
  apply StronglySorted_snoc; [exact IH|].
  apply Forall_rev. exact Ha.
Qed.

(** [sorted(l, key, reverse=True)] is a permutation of [l] in which no
    element has a key smaller than a later one. *)
Lemma sorted_reverse_trie (l : list A) :
  StronglySorted decroissant (sorted_reverse key l)
  /\ Permutation (sorted_reverse key l) l.
Proof.
  unfold sorted_reverse, sorted.
  destruct (@sorted_boucle (rev l) [] (SSorted_nil _)) as (H1 & H2).
  rewrite app_nil_r in H2. split.
  - apply StronglySorted_rev in H1. exact H1.
  - rewrite <- Permutation_rev, H2. symmetry. apply Permutation_rev.
Qed.

(** A list in non-increasing order and a list in strictly decreasing
    order with the same elements are the same list. *)
Lemma tri_unique (l d : list A) :
  Permutation l d ->
  StronglySorted decroissant l ->
  StronglySorted (fun x y => tuple_lt (key y) (key x) = true) d ->
  l = d.
Proof.
  revert l. induction d as [|y d IH]; intros l Hp Hl Hd.
  - apply Permutation_nil. symmetry. exact Hp.
  - destruct l as [|x l].
    { apply Permutation_nil in Hp. discriminate. }
    inversion Hl as [|? ? Hl' Hx]; subst.
    inversion Hd as [|? ? Hd' Hy]; subst.
    rewrite Forall_forall in Hx, Hy.
    assert (E : x = y).
    { assert (Hin : In x (y :: d)).
      { apply (Permutation_in _ Hp). left. reflexivity. }
      destruct Hin as [E|Hin]; [auto|].
      assert (Hin' : In y (x :: l)).
      { apply (Permutation_in _ (Permutation_sym Hp)). left. reflexivity. }
      destruct Hin' as [E|Hin']; [auto|].
      specialize (Hx _ Hin'). specialize (Hy _ Hin).
      unfold decroissant in Hx. congruence. }
    subst y. f_equal. apply IH; try assumption.
    apply Permutation_cons_inv with (a := x). exact Hp.
Qed.

End Tri_proprietes.

Lemma slice_to_firstn {A} (l : list A) (n : nat) :
  slice_to l (Z.of_nat n) = firstn n l.
Proof.
  unfold slice_to. change 0 with (Z.of_nat 0). rewrite slice_nat.
  simpl. rewrite Nat.sub_0_r.
  destruct (Nat.le_gt_cases n (length l)).
  - rewrite Nat.min_l by lia. reflexivity.
  - rewrite Nat.min_r by lia. rewrite !firstn_all2 by lia. reflexivity.
Qed.

Lemma boucle_alertes_eq (l : list entry) (acc : list alerte) :
  boucle_alertes l acc
  = (alertes <- pour_chaque alerte_de l ;; Ok (acc ++ alertes)).
Proof.
  revert acc. induction l as [|e l IH]; intros acc; simpl.
  - rewrite app_nil_r. reflexivity.
  - destruct (alerte_de e) as [a|x]; simpl; [|reflexivity].
    rewrite IH. destruct (pour_chaque alerte_de l); simpl; [|reflexivity].
    rewrite <- app_assoc. reflexivity.
Qed.

Lemma cles_datees (entries : list entry) :
  Forall datee entries ->
  pour_chaque (fun entry => getattr (published_parsed entry)) entries
  = Ok (map (fun e => Some (date_de e)) entries).
Proof.
  induction 1 as [|e l (t & He) Hl IH]; simpl; [reflexivity|].
  rewrite IH. unfold date_de. rewrite He. reflexivity.
Qed.

Lemma existsb_est_None {A B} (f : A -> B) (l : list A) :
  existsb est_None (map (fun a => Some (f a)) l) = false.
Proof. induction l; simpl; auto. Qed.

(** When every entry has a parsed date, the sort does not raise. *)
Lemma articles_tries_datees (entries : list entry) :
  Forall datee entries ->
  articles_tries entries = Ok (sorted_reverse date_de entries).
Proof.
  intros H. unfold articles_tries. rewrite (cles_datees H). cbn [bind].
  rewrite existsb_est_None, andb_false_r. reflexivity.
Qed.

Lemma get_alertes_certfr_eq (entries : list entry) :
  Forall datee entries ->
  get_alertes_certfr entries
  = pour_chaque alerte_de (firstn 5 (sorted_reverse date_de entries)).
Proof.
  intros H. unfold get_alertes_certfr. rewrite (articles_tries_datees H).
  cbn [bind]. rewrite boucle_alertes_eq.
  change 5 with (Z.of_nat 5). rewrite slice_to_firstn.
  destruct (pour_chaque alerte_de _); reflexivity.
Qed.

Lemma alerte_de_complet (e : entry) :
  complet e -> exists a, alerte_de e = Ok a /\ correspond e a.
Proof.
  intros (Ht & Hp & Hs & Hl). unfold alerte_de, correspond.
  destruct (title e) as [t|]; [|congruence].
  destruct (published e) as [p|]; [|congruence].
  destruct (summary e) as [su|]; [|congruence].
  destruct (link e) as [li|]; [|congruence].
  eexists. split; [reflexivity|]. simpl. auto.
Qed.

Lemma alertes_completes (l : list entry) :
  Forall complet l ->
  exists alertes,
    pour_chaque alerte_de l = Ok alertes /\ Forall2 correspond l alertes.
Proof.
  induction 1 as [|e l He Hl (alertes & E & Hc)]; simpl.
  - exists []. split; [reflexivity | constructor].
  - destruct (alerte_de_complet He) as (a & Ea & Ha).
    exists (a :: alertes). rewrite Ea, E. split; [reflexivity|].
    constructor; assumption.
Qed.

(** C8 (amended). For every feed in which each entry has a parsed
    publication date, [get_alertes_certfr] reads the first five (all, when
    there are fewer) of the feed's entries put in descending order of
    parsed date, and when each of these has a title, a publication date, a
    summary and a link it returns their advisories, one per entry, in that
    order; in particular, for a feed made of seven entries of strictly
    increasing dates [e1 .. e7], in any order, the entries read are
    [e7, e6, e5, e4, e3] in that order. *)
Theorem get_alertes_certfr_tri (entries : list entry) :
  Forall datee entries ->
  exists garde reste,
    garde = firstn 5 (sorted_reverse date_de entries)
    /\ length garde = Nat.min 5 (length entries)
    /\ Permutation (garde ++ reste) entries
    /\ StronglySorted plus_recent (garde ++ reste)
    /\ get_alertes_certfr entries = pour_chaque alerte_de garde
    /\ (Forall complet garde ->
        exists alertes,
          get_alertes_certfr entries = Ok alertes
          /\ Forall2 correspond garde alertes)
    /\ (forall e1 e2 e3 e4 e5 e6 e7,
          StronglySorted strictement_plus_recent
            [e7; e6; e5; e4; e3; e2; e1] ->
          Permutation entries [e1; e2; e3; e4; e5; e6; e7] ->
          garde = [e7; e6; e5; e4; e3]).
Proof.
  intros Hd.
  destruct (sorted_reverse_trie date_de entries) as (Hs & Hp).
  exists (firstn 5 (sorted_reverse date_de entries)),
         (skipn 5 (sorted_reverse date_de entries)).
  rewrite firstn_skipn.
  split; [reflexivity|].
  split; [rewrite length_firstn, (Permutation_length Hp); reflexivity|].
  split; [exact Hp|]. split; [exact Hs|].
  split; [apply get_alertes_certfr_eq; exact Hd|]. split.
  - intros Hc. rewrite (get_alertes_certfr_eq Hd).
    apply alertes_completes. exact Hc.
  - intros e1 e2 e3 e4 e5 e6 e7 Hdec Hperm.
    assert (E : sorted_reverse date_de entries
                = [e7; e6; e5; e4; e3; e2; e1]).
    { apply (@tri_unique _ date_de); [|exact Hs|exact Hdec].
      rewrite Hp, Hperm.
      apply (Permutation_rev [e1; e2; e3; e4; e5; e6; e7]). }
    rewrite E. reflexivity.
Qed.

Lemma get_alertes_certfr_tri_witness :
  let entries := [jour 3; jour 7; jour 1; jour 5; jour 2; jour 6; jour 4] in
  exists garde reste,
    garde = firstn 5 (sorted_reverse date_de entries)
    /\ length garde = Nat.min 5 (length entries)
    /\ Permutation (garde ++ reste) entries
    /\ StronglySorted plus_recent (garde ++ reste)
    /\ get_alertes_certfr entries = pour_chaque alerte_de garde
    /\ (Forall complet garde ->
        exists alertes,
          get_alertes_certfr entries = Ok alertes
          /\ Forall2 correspond garde alertes)
    /\ (forall e1 e2 e3 e4 e5 e6 e7,
          StronglySorted strictement_plus_recent
            [e7; e6; e5; e4; e3; e2; e1] ->
          Permutation entries [e1; e2; e3; e4; e5; e6; e7] ->
          garde = [e7; e6; e5; e4; e3]).
Proof.
  intros entries.
  apply (get_alertes_certfr_tri
           (entries := [jour 3; jour 7; jour 1; jour 5; jour 2; jour 6;
                        jour 4])).
  repeat constructor; eexists; reflexivity.
Defined.

Example get_alertes_certfr_desordre :
  get_alertes_certfr
    [jour 3; jour 7; jour 1; jour 5; jour 2; jour 6; jour 4]
  = Ok [alerte_du_jour 7; alerte_du_jour 6; alerte_du_jour 5;
        alerte_du_jour 4; alerte_du_jour 3]
  /\ alerte_du_jour 7 <> alerte_du_jour 6.
Proof. split; [vm_compute; reflexivity | discriminate]. Qed.

(** Entries with the same date keep the order of the feed. *)
Example get_alertes_certfr_stable :
  let a := {| title := Some (lit "a"); published := Some (lit "p");
              published_parsed := Some (Some [2024; 1; 1]);
              summary := Some []; link := Some [] |} in
  let b := {| title := Some (lit "b"); published := Some (lit "p");
              published_parsed := Some (Some [2024; 1; 1]);
              summary := Some []; link := Some [] |} in
  get_alertes_certfr [a; jour 2; b] = pour_chaque alerte_de [jour 2; a; b].
Proof. vm_compute. reflexivity. Qed.

(** C8 (as stated) fails: a feed is not always sorted and truncated.  An
    entry without publication date makes the function raise, and so does,
    in a feed of two entries or more, an entry whose date could not be
    parsed; no advisory is returned, not even those of the dated
    entries. *)
Lemma get_alertes_certfr_sans_date :
  get_alertes_certfr [jour 2; sans_date; jour 1] = Raise AttributeError
  /\ get_alertes_certfr [jour 2; date_illisible; jour 1] = Raise TypeError
  /\ get_alertes_certfr [jour 2; jour 1]
     = Ok [alerte_du_jour 2; alerte_du_jour 1].
Proof. repeat split; vm_compute; reflexivity. Qed.

(** ** The reply of the generation service *)

(** C9 (amended). For every reply of the generation service that is an
    object without a [response] field, the answer is the literal
    placeholder; a [response] field that is present is the answer as it
    is, also when it is empty. *)
Theorem answer_champ_absent (d : dict) :
  (dict_get d (lit "response") = None ->
   answer (JObject d) = Ok (JString placeholder))
  /\ (forall v, dict_get d (lit "response") = Some v ->
        answer (JObject d) = Ok v).
Proof.
  unfold answer, dict_get_default. split.
  - intros ->. reflexivity.
  - intros v ->. reflexivity.
Qed.

Lemma answer_champ_absent_witness :
  answer (JObject [(lit "model", JString (lit "mistral"));
                   (lit "done", JBool true)])
  = Ok (JString placeholder).
Proof.
  apply (proj1 (answer_champ_absent
                  [(lit "model", JString (lit "mistral"));
                   (lit "done", JBool true)])).
  reflexivity.
Defined.

(** C9 (as stated) fails: for a reply whose [response] field is the empty
    string, the answer is the empty string, not the placeholder. *)
Lemma answer_champ_vide :
  answer (JObject [(lit "model", JString (lit "mistral"));
                   (lit "response", JString [])])
  = Ok (JString [])
  /\ JString [] <> JString placeholder.
Proof. split; [reflexivity | discriminate]. Qed.

(** ** The conversation log *)

Lemma str_eqb_eq (a b : str) : str_eqb a b = true <-> a = b.
Proof.
  revert b. induction a as [|x a IH]; intros [|y b]; simpl;
    try (split; [discriminate | discriminate]); [tauto|].
  rewrite andb_true_iff, N.eqb_eq, IH. split.
  - intros (-> & ->). reflexivity.
  - intros H. injection H as -> ->. auto.
Qed.


Lemma decode_app (a b : list unite) :
  decode (a ++ b) = (x <- decode a ;; y <- decode b ;; Ok (x ++ y)).
Proof. apply pour_chaque_app. Qed.

(** A text that was encoded is decoded as it was. *)
Lemma decode_texte (s : str) :
  encodable s -> decode (map Caractere s) = Ok s.
Proof.
  unfold encodable, decode. induction s as [|c s IH]; simpl; [reflexivity|].
  intros H. apply orb_false_iff in H. destruct H as (Hc & Hs).
  rewrite Hc. simpl. unfold decode in IH. rewrite IH by exact Hs.
  reflexivity.
Qed.

(** What is decoded has no surrogate code point. *)
Lemma decode_encodable (contenu : list unite) (texte : str) :
  decode contenu = Ok texte -> encodable texte.
Proof.
  unfold decode, encodable. revert texte.
  induction contenu as [|u contenu IH]; simpl; intros texte H.
  - injection H as <-. reflexivity.
  - destruct u as [c|b]; [|discriminate].
    destruct (surrogate c) eqn:Ec; [discriminate|]. cbn [bind] in H.
    destruct (pour_chaque _ contenu) as [t|x]; [|discriminate].
    injection H as <-. simpl. rewrite Ec, (IH t eq_refl). reflexivity.
Qed.

Section Journal_proprietes.

Variable reserve : nat.

Lemma boucle_charger (lignes : list str) (historique : list echange) :
  fold_left (charger_ligne reserve) lignes historique
  = historique ++ flat_map (echanges_de_ligne reserve) lignes.
Proof.
  revert historique. induction lignes as [|l lignes IH]; intros h; simpl.
  - rewrite app_nil_r. reflexivity.
  - rewrite IH. unfold charger_ligne, echanges_de_ligne.
    destruct (lire_ligne reserve l); simpl.
    + rewrite <- app_assoc. reflexivity.
    + reflexivity.
Qed.

Lemma charger_lignes (contenu : list unite) (texte : str) :
  decode contenu = Ok texte ->
  charger_historique_persistant reserve (Some contenu)
  = Ok (flat_map (echanges_de_ligne reserve) (readlines texte [])).
Proof.
  intros H. unfold charger_historique_persistant. rewrite H. cbn [bind].
  rewrite boucle_charger. reflexivity.
Qed.

Lemma charger_contenu (fichier : fichier_log) :
  charger_historique_persistant reserve fichier
  = charger_historique_persistant reserve (Some (contenu_de fichier)).
Proof. destruct fichier; reflexivity. Qed.

End Journal_proprietes.

(** Reading goes on after a line feed as from the start of a file. *)
Lemma readlines_app_borne (n : nat) :
  forall a b courant, (length a <= n)%nat ->
    readlines (a ++ 10%N :: b) courant
    = readlines (a ++ [10%N]) courant ++ readlines b [].
Proof.
  induction n as [|n IH]; intros a b courant Hn.
  - destruct a; [reflexivity | simpl in Hn; lia].
  - destruct a as [|c a]; [reflexivity|].
    simpl in Hn. cbn [app readlines].
    destruct (c =? 10)%N.
    { rewrite IH by lia. reflexivity. }
    destruct (c =? 13)%N.
    + destruct a as [|c' a]; [reflexivity|].
      cbn [app]. destruct (c' =? 10)%N.
      * simpl in Hn. rewrite IH by lia. reflexivity.
      * assert (E := IH (c' :: a) b []). cbn [app] in E.
        rewrite E by (simpl in *; lia). reflexivity.
    + apply IH. lia.
Qed.

Lemma readlines_app (a b : str) :
  readlines (a ++ 10%N :: b) [] = readlines (a ++ [10%N]) [] ++ readlines b [].
Proof. apply (@readlines_app_borne (length a)). lia. Qed.

Lemma readlines_termine (avant suite : str) :
  termine avant ->
  readlines (avant ++ suite) [] = readlines avant [] ++ readlines suite [].
Proof.
  intros [->|(debut & ->)]; [reflexivity|].
  rewrite <- app_assoc. apply readlines_app.
Qed.

Lemma readlines_ligne (ligne suite courant : str) :
  sans_saut ligne ->
  readlines (ligne ++ 10%N :: suite) courant
  = (courant ++ ligne ++ [10%N]) :: readlines suite [].
Proof.
  unfold sans_saut. revert courant.
  induction ligne as [|c ligne IH]; intros courant H; simpl in *.
  - reflexivity.
  - apply andb_true_iff in H. destruct H as (Hc & H).
    apply negb_true_iff, orb_false_iff in Hc. destruct Hc as (H10 & H13).
    rewrite H10, H13, IH by exact H. rewrite <- app_assoc. reflexivity.
Qed.

(** *** Encoding then decoding a string *)

Lemma hex_val_digit (n : N) : (n < 16)%N -> hex_val (hex_digit n) = Some n.
Proof.
  intros H. unfold hex_digit, hex_val.
  destruct (N.ltb_spec n 10).
  - destruct (N.leb_spec 48 (48 + n)); [|lia].
    destruct (N.leb_spec (48 + n) 57); [|lia].
    cbn [andb]. f_equal. lia.
  - destruct (N.leb_spec 48 (87 + n)); [|lia].
    destruct (N.leb_spec (87 + n) 57); [lia|].
    destruct (N.leb_spec 97 (87 + n)); [|lia].
    destruct (N.leb_spec (87 + n) 102); [|lia].
    cbn [andb]. f_equal. lia.
Qed.

(** One character: the decoder reads back what the encoder wrote. *)
Lemma scanstring_escape_char (fuel : nat) (c : N) (r acc : str) :
  scanstring (S fuel) (escape_char c ++ r) acc
  = scanstring fuel r (acc ++ [c]).
Proof.
  unfold escape_char.
  destruct (N.eqb_spec c 34) as [->|H34]; [reflexivity|].
  destruct (N.eqb_spec c 92) as [->|H92]; [reflexivity|].
  destruct (N.eqb_spec c 10) as [->|H10]; [reflexivity|].
  destruct (N.eqb_spec c 13) as [->|H13]; [reflexivity|].
  destruct (N.eqb_spec c 9) as [->|H9]; [reflexivity|].
  destruct (N.eqb_spec c 8) as [->|H8]; [reflexivity|].
  destruct (N.eqb_spec c 12) as [->|H12]; [reflexivity|].
  destruct (N.ltb_spec c 32) as [Hlt|Hge].
  - cbn [app scanstring]. change (92 =? 34)%N with false.
    change (92 =? 92)%N with true. change (117 =? 117)%N with true.
    cbv beta iota. unfold decode_uXXXX.
    change (hex_val 48) with (Some 0%N).
    assert (Hq : (c / 16 < 16)%N).
    { apply N.Div0.div_lt_upper_bound. lia. }
    assert (Hm : (c mod 16 < 16)%N) by (apply N.mod_lt; lia).
    rewrite (hex_val_digit Hq), (hex_val_digit Hm).
    cbn [bind fst snd].
    replace (((0 * 16 + 0) * 16 + c / 16) * 16 + c mod 16)%N with c.
    2:{ rewrite (N.div_mod c 16) at 1 by lia. lia. }
    unfold high_surrogate.
    destruct (N.leb_spec 55296 c); [lia|]. reflexivity.
  - cbn [app scanstring].
    rewrite (proj2 (N.eqb_neq c 34) H34), (proj2 (N.eqb_neq c 92) H92).
    destruct (N.ltb_spec c 32); [lia|]. reflexivity.
Qed.

Lemma scanstring_escape (s : str) :
  forall (fuel : nat) (r acc : str),
    (length s < fuel)%nat ->
    scanstring fuel (flat_map escape_char s ++ 34%N :: r) acc
    = Ok (acc ++ s, r).
Proof.
  induction s as [|c s IH]; intros fuel r acc Hf.
  - destruct fuel; [lia|]. simpl. rewrite app_nil_r. reflexivity.
  - destruct fuel; [simpl in Hf; lia|].
    cbn [flat_map]. rewrite <- app_assoc, scanstring_escape_char.
    rewrite IH by (simpl in Hf; lia). rewrite <- app_assoc. reflexivity.
Qed.

Lemma escape_char_longueur (c : N) : (1 <= length (escape_char c))%nat.
Proof.
  unfold escape_char.
  repeat match goal with
         | |- context [if ?b then _ else _] => destruct b
         end; simpl; lia.
Qed.

Lemma escape_longueur (s : str) :
  (length s <= length (flat_map escape_char s))%nat.
Proof.
  induction s as [|c s IH]; simpl; [lia|].
  rewrite length_app. pose proof (escape_char_longueur c). lia.
Qed.

(** A string value: [scan_once] reads back what [encode_basestring]
    wrote, at any depth. *)
Lemma scan_once_chaine (profondeur : nat) (v r : str) :
  scan_once profondeur (encode_basestring v ++ r) = Ok (JString v, r).
Proof.
  unfold encode_basestring.
  destruct profondeur; cbn [app scan_once];
    change (34 =? 34)%N with true; cbv beta iota;
    rewrite <- app_assoc; cbn [app];
    (rewrite scanstring_escape;
     [reflexivity
     |rewrite length_app; pose proof (escape_longueur v); simpl; lia]).
Qed.

(** *** Encoding then decoding a dictionary of strings *)

Lemma dumps_items_cons (k v : str) (d : list (str * str)) (r : str) :
  dumps_items ((k, v) :: d) ++ r
  = 34%N :: flat_map escape_char k
    ++ 34%N :: 58%N :: 32%N :: encode_basestring v
    ++ match d with
       | [] => r
       | _ :: _ => 44%N :: 32%N :: dumps_items d ++ r
       end.
Proof.
  cbn [dumps_items]. unfold encode_basestring at 1.
  destruct d as [|kv d].
  - rewrite app_nil_r. cbn [app lit]. rewrite <- !app_assoc. reflexivity.
  - cbn [app lit]. rewrite <- !app_assoc. cbn [app].
    rewrite <- !app_assoc. reflexivity.
Qed.

Lemma dumps_items_longueur (d : list (str * str)) :
  (length d <= length (dumps_items d))%nat.
Proof.
  induction d as [|[k v] d IH]; [simpl; lia|].
  rewrite <- (app_nil_r (dumps_items ((k, v) :: d))), dumps_items_cons.
  destruct d as [|kv d]; simpl; rewrite ?length_app; simpl;
    rewrite ?length_app; simpl; rewrite ?app_nil_r in *; simpl in IH; lia.
Qed.

Lemma parse_members_dumps (profondeur : nat) (d : list (str * str)) :
  forall (k v : str) (fuel : nat) (pairs : list (str * json)) (r : str),
    (length d + 1 <= fuel)%nat ->
    parse_members (scan_once profondeur) fuel
      (flat_map escape_char k
       ++ 34%N :: 58%N :: 32%N :: encode_basestring v
       ++ match d with
          | [] => 125%N :: r
          | _ :: _ => 44%N :: 32%N :: dumps_items d ++ 125%N :: r
          end) pairs
    = Ok (JObject (dict_of_pairs (pairs ++ valeurs ((k, v) :: d))), r).
Proof.
  induction d as [|[k' v'] d IH]; intros k v fuel pairs r Hf;
    (destruct fuel as [|fuel]; [simpl in Hf; lia|]);
    cbn [parse_members];
    (rewrite scanstring_escape;
     [|rewrite length_app; pose proof (escape_longueur k); simpl; lia]);
    cbn [bind fst snd app];
    change (skip_ws (58%N :: 32%N :: ?x)) with (58%N :: 32%N :: x);
    cbv beta match.
  - change (skip_ws (32%N :: encode_basestring v ++ 125%N :: r))
      with (encode_basestring v ++ 125%N :: r).
    rewrite scan_once_chaine. reflexivity.
  - change (skip_ws (32%N :: encode_basestring v
                     ++ 44%N :: 32%N :: dumps_items ((k', v') :: d)
                     ++ 125%N :: r))
      with (encode_basestring v
            ++ 44%N :: 32%N :: dumps_items ((k', v') :: d) ++ 125%N :: r).
    rewrite scan_once_chaine. cbn [bind fst snd].
    rewrite dumps_items_cons.
    change (skip_ws (44%N :: ?x)) with (44%N :: x). cbv beta match.
    change (skip_ws (32%N :: 34%N :: ?x)) with (34%N :: x). cbv beta match.
    rewrite IH by (simpl in Hf; lia).
    rewrite <- app_assoc. reflexivity.
Qed.

Lemma skip_ws_blanc (ws : str) : forallb is_ws ws = true -> skip_ws ws = [].
Proof.
  induction ws as [|c ws IH]; simpl; [reflexivity|].
  destruct (is_ws c); simpl; [exact IH | discriminate].
Qed.

Lemma json_dumps_code (d : list (str * str)) :
  json_dumps d = 123%N :: dumps_items d ++ [125%N].
Proof. reflexivity. Qed.

(** [json.loads] reads back the dictionary that [json.dumps] wrote,
    white space after it or not, whatever the recursion limit leaves
    beyond a first container. *)
Lemma json_loads_dumps (reserve : nat) (d : list (str * str)) (ws : str) :
  forallb is_ws ws = true ->
  json_loads reserve (json_dumps d ++ ws)
  = Ok (JObject (dict_of_pairs (valeurs d))).
Proof.
  intros Hws. rewrite json_dumps_code.
  cbn [app]. rewrite <- app_assoc. cbn [app].
  unfold json_loads. cbv beta match.
  change (skip_ws (123%N :: ?x)) with (123%N :: x).
  cbn [scan_once]. change (123 =? 34)%N with false.
  change (123 =? 123)%N with true. cbv beta match.
  destruct d as [|[k v] d].
  - cbn [dumps_items app]. change (skip_ws (125%N :: ws)) with (125%N :: ws).
    cbv beta match. cbn [bind fst snd]. rewrite (skip_ws_blanc ws Hws).
    reflexivity.
  - rewrite dumps_items_cons.
    change (skip_ws (34%N :: ?x)) with (34%N :: x). cbv beta match.
    rewrite parse_members_dumps.
    + cbn [bind fst snd]. rewrite (skip_ws_blanc ws Hws). reflexivity.
    + pose proof (dumps_items_longueur ((k, v) :: d)) as H.
      pose proof (f_equal (@length N)
                    (dumps_items_cons k v d (125%N :: ws))) as E.
      rewrite length_app in E. cbn [length] in E, H. cbn [length]. lia.
Qed.

(** Every character the encoder writes is the character encoded or a
    printable ASCII character. *)
Lemma escape_char_forall (Q : N -> Prop) (c : N) :
  (forall x, (32 <= x < 128)%N -> Q x) ->
  ((32 <= c)%N -> Q c) ->
  Forall Q (escape_char c).
Proof.
  intros Hascii Hc. unfold escape_char.
  assert (Hh : forall n, (n < 16)%N -> Q (hex_digit n)).
  { intros n Hn. apply Hascii. unfold hex_digit.
    destruct (N.ltb_spec n 10); lia. }
  repeat match goal with
         | |- context [if ?b then _ else _] => destruct b eqn:?
         end;
    repeat constructor; try (apply Hascii; lia).
  - apply Hh. apply N.Div0.div_lt_upper_bound.
    match goal with H : (c <? 32)%N = true |- _ => apply N.ltb_lt in H end.
    lia.
  - apply Hh. apply N.mod_lt. lia.
  - apply Hc.
    match goal with H : (c <? 32)%N = false |- _ => apply N.ltb_ge in H end.
    assumption.
Qed.

Lemma encode_basestring_forall (Q : N -> Prop) (s : str) :
  (forall x, (32 <= x < 128)%N -> Q x) ->
  Forall (fun c => (32 <= c)%N -> Q c) s ->
  Forall Q (encode_basestring s).
Proof.
  intros Hascii Hs. unfold encode_basestring.
  apply Forall_app. split; [repeat constructor; apply Hascii; lia|].
  apply Forall_app. split; [|repeat constructor; apply Hascii; lia].
  induction Hs as [|c s Hc Hs IH]; simpl; [constructor|].
  apply Forall_app. split; [|exact IH].
  apply escape_char_forall; assumption.
Qed.

Lemma json_dumps_forall (Q : N -> Prop) (d : list (str * str)) :
  (forall x, (32 <= x < 128)%N -> Q x) ->
  Forall (fun kv => Forall (fun c => (32 <= c)%N -> Q c) (fst kv)
                    /\ Forall (fun c => (32 <= c)%N -> Q c) (snd kv)) d ->
  Forall Q (json_dumps d).
Proof.
  intros Hascii Hd. unfold json_dumps.
  apply Forall_app. split; [repeat constructor; apply Hascii; simpl; lia|].
  apply Forall_app. split; [|repeat constructor; apply Hascii; simpl; lia].
  induction Hd as [|[k v] d (Hk & Hv) Hd IH]; [constructor|].
  cbn [dumps_items fst snd] in *.
  apply Forall_app. split; [apply encode_basestring_forall; assumption|].
  apply Forall_app. split; [repeat constructor; apply Hascii; simpl; lia|].
  apply Forall_app. split; [apply encode_basestring_forall; assumption|].
  destruct d as [|kv d]; [constructor|].
  apply Forall_app. split; [repeat constructor; apply Hascii; simpl; lia|].
  exact IH.
Qed.

(** The text written for an exchange holds no line break. *)
Lemma json_dumps_sans_saut (d : list (str * str)) : sans_saut (json_dumps d).
Proof.
  unfold sans_saut. apply forallb_forall. apply Forall_forall.
  apply json_dumps_forall with (Q := fun c => negb ((c =? 10) || (c =? 13))%N = true).
  - intros x Hx. destruct (N.eqb_spec x 10); [lia|].
    destruct (N.eqb_spec x 13); [lia|]. reflexivity.
  - apply Forall_forall. intros kv _.
    split; apply Forall_forall; intros c _ Hc;
      (destruct (N.eqb_spec c 10); [lia|]);
      (destruct (N.eqb_spec c 13); [lia|]); reflexivity.
Qed.

Lemma existsb_faux {A} (p : A -> bool) (l : list A) :
  existsb p l = false <-> Forall (fun a => p a = false) l.
Proof.
  induction l as [|a l IH]; simpl.
  - split; [constructor | reflexivity].
  - rewrite orb_false_iff, IH. split.
    + intros (H1 & H2). constructor; assumption.
    + intros H. inversion H; subst. auto.
Qed.

(** The text written for encodable strings is encodable. *)
Lemma json_dumps_encodable (d : list (str * str)) :
  Forall (fun kv => encodable (fst kv) /\ encodable (snd kv)) d ->
  encodable (json_dumps d ++ [10%N]).
Proof.
  intros Hd. unfold encodable. apply existsb_faux.
  apply Forall_app. split; [|repeat constructor].
  apply json_dumps_forall.
  - intros x Hx. unfold surrogate.
    destruct (N.leb_spec 55296 x); [lia|]. reflexivity.
  - apply Forall_forall. intros kv Hkv.
    rewrite Forall_forall in Hd. destruct (Hd kv Hkv) as (Hk & Hv).
    unfold encodable in Hk, Hv. rewrite existsb_faux in Hk, Hv.
    split; eapply Forall_impl; try eassumption; auto.
Qed.

(** *** Dictionaries with distinct keys *)

Lemma dict_get_absent (d : dict) (k : str) :
  ~ In k (map fst d) -> dict_get d k = None.
Proof.
  induction d as [|[k' v] d IH]; simpl; intros H; [reflexivity|].
  destruct (str_eqb k' k) eqn:E.
  - apply str_eqb_eq in E. tauto.
  - apply IH. tauto.
Qed.

Lemma dict_get_present (d : dict) (k : str) (v : json) :
  NoDup (map fst d) -> In (k, v) d -> dict_get d k = Some v.
Proof.
  induction d as [|[k' v'] d IH]; simpl; intros Hn H; [destruct H|].
  inversion Hn as [|? ? Hk Hd]; subst.
  destruct H as [H|H].
  - injection H as -> ->.
    rewrite (proj2 (str_eqb_eq k k) eq_refl). reflexivity.
  - destruct (str_eqb k' k) eqn:E.
    + apply str_eqb_eq in E. subst k'. exfalso. apply Hk.
      apply (in_map fst) in H. exact H.
    + apply IH; assumption.
Qed.

Lemma dict_set_nouveau (d : dict) (k : str) (v : json) :
  ~ In k (map fst d) -> dict_set d k v = d ++ [(k, v)].
Proof.
  induction d as [|[k' v'] d IH]; simpl; intros H; [reflexivity|].
  destruct (str_eqb k' k) eqn:E.
  - apply str_eqb_eq in E. tauto.
  - rewrite IH by tauto. reflexivity.
Qed.

Lemma dict_of_pairs_boucle (pairs acc : list (str * json)) :
  NoDup (map fst (acc ++ pairs)) ->
  fold_left (fun d kv => dict_set d (fst kv) (snd kv)) pairs acc
  = acc ++ pairs.
Proof.
  revert acc. induction pairs as [|[k v] pairs IH]; intros acc H; simpl.
  - rewrite app_nil_r. reflexivity.
  - rewrite dict_set_nouveau.
    + rewrite IH; rewrite <- app_assoc; [reflexivity | exact H].
    + rewrite map_app in H. apply NoDup_remove_2 in H.
      intros Hin. apply H. apply in_or_app. left. exact Hin.
Qed.

(** [dict(pairs)] for pairs of distinct keys has these pairs, in their
    order. *)
Lemma dict_of_pairs_distinct (pairs : list (str * json)) :
  NoDup (map fst pairs) -> dict_of_pairs pairs = pairs.
Proof. intros H. apply (@dict_of_pairs_boucle pairs [] H). Qed.

Lemma valeurs_cles (d : list (str * str)) : map fst (valeurs d) = map fst d.
Proof. unfold valeurs. rewrite map_map. reflexivity. Qed.

Section Lignes.

Variable reserve : nat.

(** A line that [json.dumps] wrote for a dictionary of strings is
    loaded when the dictionary has the two fields, whatever its other
    fields and their order. *)
Lemma lire_ligne_dumps (d : list (str * str)) (q r fin : str) :
  NoDup (map fst d) ->
  In (lit "question", q) d -> In (lit "reponse", r) d ->
  forallb is_ws fin = true ->
  lire_ligne reserve (json_dumps d ++ fin) = Ok (echange_de q r).
Proof.
  intros Hn Hq Hr Hfin. unfold lire_ligne.
  rewrite json_loads_dumps by exact Hfin. cbn [bind getitem].
  rewrite dict_of_pairs_distinct by (rewrite valeurs_cles; exact Hn).
  rewrite (@dict_get_present _ _ (JString q)).
  - rewrite (@dict_get_present _ _ (JString r)).
    + reflexivity.
    + rewrite valeurs_cles. exact Hn.
    + unfold valeurs. apply in_map_iff. exists (lit "reponse", r). auto.
  - rewrite valeurs_cles. exact Hn.
  - unfold valeurs. apply in_map_iff. exists (lit "question", q). auto.
Qed.

(** Such a line is refused when the dictionary lacks one of them. *)
Lemma lire_ligne_champ_absent (d : list (str * str)) (fin : str) :
  NoDup (map fst d) ->
  ~ (In (lit "question") (map fst d) /\ In (lit "reponse") (map fst d)) ->
  forallb is_ws fin = true ->
  lire_ligne reserve (json_dumps d ++ fin) = Raise KeyError.
Proof.
  intros Hn Habs Hfin. unfold lire_ligne.
  rewrite json_loads_dumps by exact Hfin. cbn [bind getitem].
  rewrite dict_of_pairs_distinct by (rewrite valeurs_cles; exact Hn).
  destruct (dict_get (valeurs d) (lit "question")) as [vq|] eqn:Eq;
    [|reflexivity].
  destruct (dict_get (valeurs d) (lit "reponse")) as [vr|] eqn:Er;
    [|reflexivity].
  exfalso. apply Habs. rewrite <- valeurs_cles. split.
  - destruct (in_dec (list_eq_dec N.eq_dec) (lit "question")
                (map fst (valeurs d))) as [H|H]; [exact H|].
    rewrite (dict_get_absent _ _ H) in Eq. discriminate.
  - destruct (in_dec (list_eq_dec N.eq_dec) (lit "reponse")
                (map fst (valeurs d))) as [H|H]; [exact H|].
    rewrite (dict_get_absent _ _ H) in Er. discriminate.
Qed.

(** A line is loaded exactly when it is well formed. *)
Lemma lire_ligne_bien_formee (ligne : str) (q r : json) :
  lire_ligne reserve ligne = Ok {| e_question := q; e_reponse := r |}
  <-> bien_formee reserve ligne q r.
Proof.
  unfold lire_ligne, bien_formee. split.
  - destruct (json_loads reserve ligne) as [v|x]; [|discriminate].
    cbn [bind]. destruct v as [| | | | |d]; try discriminate.
    cbn [getitem].
    destruct (dict_get d (lit "question")) as [vq|] eqn:Eq; [|discriminate].
    destruct (dict_get d (lit "reponse")) as [vr|] eqn:Er; [|discriminate].
    cbn [bind]. intros H. injection H as <- <-. exists d. auto.
  - intros (d & -> & Hq & Hr). cbn [bind getitem]. rewrite Hq, Hr.
    reflexivity.
Qed.

(** C7 (amended). When a log that decodes as UTF-8 is reloaded, the
    history is made, in file order, of what its well formed lines give,
    the lines for which [json.loads] returns an object with the fields
    [question] and [reponse]: such a line gives the pair of their values,
    and every other line is skipped, the lines after it being still
    loaded.  The lines that [json.dumps] writes for a dictionary of
    strings are well formed when the dictionary has both fields, and are
    not when it lacks one.  (Lines that [json.loads] refuses include JSON
    beyond its limits: an integer of more than 4300 digits, containers
    nested beyond the recursion limit.  A log that does not decode is not
    covered.) *)
Theorem charger_ignore_lignes_malformees
    (contenu : list unite) (texte : str) :
  decode contenu = Ok texte ->
  charger_historique_persistant reserve (Some contenu)
  = Ok (flat_map (echanges_de_ligne reserve) (readlines texte []))
  /\ (forall ligne q r,
        bien_formee reserve ligne q r ->
        echanges_de_ligne reserve ligne
        = [{| e_question := q; e_reponse := r |}])
  /\ (forall ligne,
        (forall q r, ~ bien_formee reserve ligne q r) ->
        echanges_de_ligne reserve ligne = [])
  /\ (forall avant ligne apres,
        texte = avant ++ ligne ++ [10%N] ++ apres ->
        termine avant -> sans_saut ligne ->
        charger_historique_persistant reserve (Some contenu)
        = Ok (flat_map (echanges_de_ligne reserve) (readlines avant [])
              ++ echanges_de_ligne reserve (ligne ++ [10%N])
              ++ flat_map (echanges_de_ligne reserve) (readlines apres [])))
  /\ (forall d q r fin,
        NoDup (map fst d) ->
        In (lit "question", q) d -> In (lit "reponse", r) d ->
        forallb is_ws fin = true ->
        bien_formee reserve (json_dumps d ++ fin) (JString q) (JString r))
  /\ (forall d fin,
        NoDup (map fst d) ->
        ~ (In (lit "question") (map fst d)
           /\ In (lit "reponse") (map fst d)) ->
        forallb is_ws fin = true ->
        forall q r, ~ bien_formee reserve (json_dumps d ++ fin) q r).
Proof.
  intros Hd.
  split; [apply charger_lignes; exact Hd|].
  split.
  { intros ligne q r H. apply lire_ligne_bien_formee in H.
    unfold echanges_de_ligne. rewrite H. reflexivity. }
  split.
  { intros ligne H. unfold echanges_de_ligne.
    destruct (lire_ligne reserve ligne) as [[q r]|x] eqn:E; [|reflexivity].
    apply lire_ligne_bien_formee in E. destruct (H q r E). }
  split.
  { intros avant ligne apres -> Ha Hl.
    rewrite (@charger_lignes reserve _ _ Hd).
    rewrite readlines_termine by exact Ha.
    cbn [app]. rewrite readlines_ligne by exact Hl.
    rewrite flat_map_app. reflexivity. }
  split.
  { intros d q r fin Hn Hq Hr Hfin. apply lire_ligne_bien_formee.
    apply lire_ligne_dumps; assumption. }
  intros d fin Hn Habs Hfin q r H. apply lire_ligne_bien_formee in H.
  rewrite (lire_ligne_champ_absent d fin Hn Habs Hfin) in H. discriminate.
Qed.

End Lignes.

Lemma charger_ignore_lignes_malformees_witness :
  let bonne1 := json_dumps [(lit "question", lit "q1");
                            (lit "reponse", lit "r1")] ++ [10%N] in
  let bonne2 := json_dumps [(lit "reponse", lit "r2");
                            (lit "question", lit "q2")] ++ [10%N] in
  let texte := bonne1 ++ lit "pas du json" ++ [10%N] ++ bonne2 in
  charger_historique_persistant 0 (Some (map Caractere texte))
  = Ok (flat_map (echanges_de_ligne 0) (readlines texte []))
  /\ flat_map (echanges_de_ligne 0) (readlines texte [])
     = [echange_de (lit "q1") (lit "r1"); echange_de (lit "q2") (lit "r2")].
Proof.
  intros bonne1 bonne2 texte. split; [|vm_compute; reflexivity].
  apply (proj1 (@charger_ignore_lignes_malformees 0
                  (map Caractere texte) texte
                  (@decode_texte texte eq_refl))).
Defined.

(** The lines skipped, of every kind: text that is not JSON, an array, an
    object without [reponse], an object cut short, a blank line. *)
Example charger_exemple :
  charger_historique_persistant 0
    (Some (map Caractere
       (json_dumps [(lit "question", lit "q1"); (lit "reponse", lit "r1")]
        ++ [10%N] ++ lit "pas du json" ++ [10%N]
        ++ lit "[1, 2]" ++ [13%N; 10%N]
        ++ json_dumps [(lit "question", lit "sans reponse")] ++ [10%N]
        ++ lit "{" ++ [10%N] ++ lit "  " ++ [10%N]
        ++ json_dumps [(lit "question", lit "q2"); (lit "reponse", lit "r2")]
        ++ [10%N])))
  = Ok [echange_de (lit "q1") (lit "r1"); echange_de (lit "q2") (lit "r2")].
Proof. vm_compute. reflexivity. Qed.

(** C7 (as stated) fails.  A line with an invalid byte is not skipped:
    the reload raises and loads nothing, not even the lines before and
    after it.  And lines of valid JSON with the two fields are skipped:
    one whose question is an integer of 4301 digits, where an integer of
    4300 digits is loaded, and one whose question is nested deeper than
    the recursion limit allows, here two arrays inside the object when
    one container may be entered inside the first. *)
Lemma charger_lignes_refusees :
  let bonne := map Caractere (ligne_valeur (lit "1")) in
  (charger_historique_persistant 100
     (Some (bonne ++ [Octet_invalide 233%N; Caractere 10%N] ++ bonne))
   = Raise UnicodeDecodeError)
  /\ (charger_historique_persistant 100
        (Some (map Caractere (ligne_valeur (repeat 49%N 4301)) ++ bonne))
      = Ok [{| e_question := JNumber (lit "1");
               e_reponse := JString (lit "r") |}])
  /\ (charger_historique_persistant 100
        (Some (map Caractere (ligne_valeur (repeat 49%N 4300))))
      = Ok [{| e_question := JNumber (repeat 49%N 4300);
               e_reponse := JString (lit "r") |}])
  /\ (charger_historique_persistant 1
        (Some (map Caractere (ligne_valeur (lit "[[1]]")) ++ bonne))
      = Ok [{| e_question := JNumber (lit "1");
               e_reponse := JString (lit "r") |}])
  /\ (charger_historique_persistant 2
        (Some (map Caractere (ligne_valeur (lit "[[1]]"))))
      = Ok [{| e_question := JArray [JArray [JNumber (lit "1")]];
               e_reponse := JString (lit "r") |}]).
Proof.
  intros bonne.
  split; [vm_compute; reflexivity|].
  split; [vm_compute; reflexivity|].
  split; [vm_compute; reflexivity|].
  split; vm_compute; reflexivity.
Qed.

(** The line written for an exchange decodes to its question and its
    answer. *)
Lemma lire_ligne_echange (reserve : nat) (maintenant question reponse : str) :
  lire_ligne reserve
    (json_dumps [(lit "timestamp", maintenant);
                 (lit "question", question);
                 (lit "reponse", reponse)] ++ [10%N])
  = Ok (echange_de question reponse).
Proof.
  unfold lire_ligne. rewrite json_loads_dumps by reflexivity. reflexivity.
Qed.

Lemma sauvegarder_echange_ok
    (maintenant question reponse : str) (fichier : fichier_log) :
  encodable maintenant -> encodable question -> encodable reponse ->
  sauvegarder_echange maintenant question reponse fichier
  = (Some (contenu_de fichier
           ++ map Caractere
                (json_dumps [(lit "timestamp", maintenant);
                             (lit "question", question);
                             (lit "reponse", reponse)] ++ [10%N])),
     Ok tt).
Proof.
  intros Hm Hq Hr. unfold sauvegarder_echange, ecrire_a_la_fin.
  assert (Henc : encodable
                   (json_dumps [(lit "timestamp", maintenant);
                                (lit "question", question);
                                (lit "reponse", reponse)] ++ [10%N])).
  { apply json_dumps_encodable.
    repeat constructor; try assumption; reflexivity. }
  unfold encodable in Henc. rewrite Henc.
  destruct fichier; reflexivity.
Qed.

Section Aller_retour.

Variable reserve : nat.

(** The log and its history after one more exchange, on a finished log
    that decodes. *)
Lemma charger_apres_sauvegarde
    (maintenant question reponse : str) (fichier : fichier_log)
    (texte : str) :
  encodable maintenant -> encodable question -> encodable reponse ->
  decode (contenu_de fichier) = Ok texte ->
  termine texte ->
  let ligne := json_dumps [(lit "timestamp", maintenant);
                           (lit "question", question);
                           (lit "reponse", reponse)] ++ [10%N] in
  let f' := fst (sauvegarder_echange maintenant question reponse fichier) in
  decode (contenu_de f') = Ok (texte ++ ligne)
  /\ termine (texte ++ ligne)
  /\ readlines (texte ++ ligne) [] = readlines texte [] ++ [ligne]
  /\ charger_historique_persistant reserve fichier
     = Ok (flat_map (echanges_de_ligne reserve) (readlines texte []))
  /\ charger_historique_persistant reserve f'
     = Ok (flat_map (echanges_de_ligne reserve) (readlines texte [])
           ++ [echange_de question reponse]).
Proof.
  intros Hm Hq Hr Hd Hc ligne f'. unfold f'.
  rewrite sauvegarder_echange_ok by assumption. cbn [fst contenu_de].
  fold ligne.
  assert (Henc : encodable ligne).
  { apply json_dumps_encodable.
    repeat constructor; try assumption; reflexivity. }
  assert (Hd' : decode (contenu_de fichier ++ map Caractere ligne)
                = Ok (texte ++ ligne)).
  { rewrite decode_app, Hd, (decode_texte Henc). reflexivity. }
  assert (Hl : readlines (texte ++ ligne) [] = readlines texte [] ++ [ligne]).
  { rewrite readlines_termine by exact Hc. unfold ligne.
    rewrite (@readlines_ligne _ [] []) by apply json_dumps_sans_saut.
    reflexivity. }
  split; [exact Hd'|]. split.
  { right. exists (texte ++ json_dumps [(lit "timestamp", maintenant);
                                        (lit "question", question);
                                        (lit "reponse", reponse)]).
    unfold ligne. rewrite app_assoc. reflexivity. }
  split; [exact Hl|]. split.
  - rewrite charger_contenu. apply charger_lignes. exact Hd.
  - rewrite (@charger_lignes reserve _ _ Hd'), Hl, flat_map_app.
    cbn [flat_map]. unfold echanges_de_ligne at 2. unfold ligne.
    rewrite lire_ligne_echange. rewrite app_nil_r. reflexivity.
Qed.

(** C6 (amended). For every question and answer without a surrogate code
    point (so that the line can be encoded in UTF-8) and every log that
    is absent or that decodes as UTF-8 and is empty or ended by a line
    feed, [sauvegarder_echange] appends one line, and
    [charger_historique_persistant] on the new log returns the history
    of the old log followed by the pair of the question and the answer,
    which is its last element; the timestamp is not part of it. *)
Theorem aller_retour_journal
    (maintenant question reponse : str) (fichier : fichier_log)
    (texte : str) :
  encodable maintenant -> encodable question -> encodable reponse ->
  decode (contenu_de fichier) = Ok texte ->
  termine texte ->
  exists contenu' texte' historique,
    sauvegarder_echange maintenant question reponse fichier
    = (Some contenu', Ok tt)
    /\ decode contenu' = Ok texte'
    /\ termine texte'
    /\ charger_historique_persistant reserve fichier = Ok historique
    /\ charger_historique_persistant reserve (Some contenu')
       = Ok (historique ++ [echange_de question reponse])
    /\ last (historique ++ [echange_de question reponse]) (echange_de [] [])
       = echange_de question reponse.
Proof.
  intros Hm Hq Hr Hd Hc.
  destruct (charger_apres_sauvegarde fichier Hm Hq Hr Hd Hc)
    as (Hd' & Hc' & _ & Hav & Hap).
  rewrite sauvegarder_echange_ok in Hd', Hap by assumption.
  cbn [fst contenu_de] in Hd', Hap.
  eexists _, _, _.
  split; [apply sauvegarder_echange_ok; assumption|].
  split; [exact Hd'|]. split; [exact Hc'|].
  split; [exact Hav|]. split; [exact Hap|].
  apply last_last.
Qed.

End Aller_retour.

Lemma aller_retour_journal_witness :
  let fichier := Some (map Caractere (lit "ligne abimee" ++ [10%N])) in
  let reponse := [10%N] ++ lit "ISO 27001" ++ [34%N; 233%N] in
  exists contenu' texte' historique,
    sauvegarder_echange (lit "2024-05-01T10:00:00.000000")
      (lit "Quelle norme ?") reponse fichier
    = (Some contenu', Ok tt)
    /\ decode contenu' = Ok texte'
    /\ termine texte'
    /\ charger_historique_persistant 0 fichier = Ok historique
    /\ charger_historique_persistant 0 (Some contenu')
       = Ok (historique ++ [echange_de (lit "Quelle norme ?") reponse])
    /\ last (historique ++ [echange_de (lit "Quelle norme ?") reponse])
            (echange_de [] [])
       = echange_de (lit "Quelle norme ?") reponse.
Proof.
  intros fichier reponse.
  apply (@aller_retour_journal 0 (lit "2024-05-01T10:00:00.000000")
           (lit "Quelle norme ?") reponse fichier
           (lit "ligne abimee" ++ [10%N])); try reflexivity.
  right. exists (lit "ligne abimee"). reflexivity.
Defined.

(** C6 (as stated) fails three times.  An answer with a lone surrogate
    code point cannot be written: [sauvegarder_echange] raises and the
    log, created empty, gives an empty history.  After a log whose last
    line is unfinished, the exchange is appended to that line, which does
    not decode as JSON: it is written but not read back.  And after a log
    that is not UTF-8 the exchange is written, but the reload raises. *)
Lemma aller_retour_journal_contre_exemple :
  (sauvegarder_echange (lit "2024-05-01T10:00:00.000000")
     (lit "question") [55296%N] None
   = (Some [], Raise UnicodeEncodeError)
   /\ charger_historique_persistant 100 (Some []) = Ok [])
  /\ (snd (sauvegarder_echange (lit "2024-05-01T10:00:00.000000")
             (lit "question") (lit "reponse")
             (Some (map Caractere (lit "x"))))
      = Ok tt
      /\ charger_historique_persistant 100
           (fst (sauvegarder_echange (lit "2024-05-01T10:00:00.000000")
                   (lit "question") (lit "reponse")
                   (Some (map Caractere (lit "x")))))
         = Ok [])
  /\ (snd (sauvegarder_echange (lit "2024-05-01T10:00:00.000000")
             (lit "question") (lit "reponse")
             (Some [Octet_invalide 233%N; Caractere 10%N]))
      = Ok tt
      /\ charger_historique_persistant 100
           (fst (sauvegarder_echange (lit "2024-05-01T10:00:00.000000")
                   (lit "question") (lit "reponse")
                   (Some [Octet_invalide 233%N; Caractere 10%N])))
         = Raise UnicodeDecodeError).
Proof.
  split; [split; reflexivity|].
  split; split; vm_compute; reflexivity.
Qed.
(** *** The loops of the decoder have turns enough *)

Lemma skip_ws_longueur (s : str) : (length (skip_ws s) <= length s)%nat.
Proof.
  induction s as [|c s IH]; simpl; [lia|].
  destruct (is_ws c); simpl; lia.
Qed.

Lemma decode_uXXXX_reste (s : str) (u : N) (r : str) :
  decode_uXXXX s = Ok (u, r) -> (length r + 4 = length s)%nat.
Proof.
  unfold decode_uXXXX.
  destruct s as [|a [|b [|c [|d s]]]]; try discriminate.
  destruct (hex_val a), (hex_val b), (hex_val c), (hex_val d);
    try discriminate.
  intros H. injection H as _ <-. simpl. lia.
Qed.

(** Case analysis on the head of the input against the characters a
    [match] of the scanner names: [tac] closes the cases of another
    character. *)
Ltac autre_caractere c tac :=
  destruct c as [|?p];
  [tac | repeat (match goal with p : positive |- _ =>
                   destruct p as [p|p|]; try tac
                 end); congruence].

(** What [scanstring] leaves is shorter than what it was given. *)
Lemma scanstring_reste (fuel : nat) :
  forall (s acc v r : str),
    scanstring fuel s acc = Ok (v, r) -> (length r < length s)%nat.
Proof.
  induction fuel as [|fuel IH]; intros s acc v r; [discriminate|].
  destruct s as [|c s]; [discriminate|]. cbn [scanstring].
  destruct (c =? 34)%N.
  { intros H. injection H as _ <-. simpl. lia. }
  destruct (c =? 92)%N.
  - destruct s as [|esc s]; [discriminate|].
    destruct (esc =? 117)%N.
    + destruct (decode_uXXXX s) as [[u r2]|x] eqn:Eu; [|discriminate].
      apply decode_uXXXX_reste in Eu. cbn [bind fst snd].
      assert (Hsimple : scanstring fuel r2 (acc ++ [u]) = Ok (v, r) ->
                        (length r < length (c :: esc :: s))%nat).
      { intros H. apply IH in H. simpl. lia. }
      destruct (high_surrogate u); [|exact Hsimple].
      destruct r2 as [|c2 r2]; [exact Hsimple|].
      destruct (N.eq_dec c2 92) as [->|Hc2];
        [|autre_caractere c2 ltac:(exact Hsimple)].
      destruct r2 as [|c3 r2]; [exact Hsimple|].
      destruct (N.eq_dec c3 117) as [->|Hc3];
        [|autre_caractere c3 ltac:(exact Hsimple)].
      destruct (decode_uXXXX r2) as [[u2 r4]|x] eqn:Eu2; [|discriminate].
      apply decode_uXXXX_reste in Eu2. cbn [bind fst snd].
      destruct (low_surrogate u2); [|exact Hsimple].
      intros H. apply IH in H. simpl in *. lia.
    + destruct (backslash esc); [|discriminate].
      intros H. apply IH in H. simpl. lia.
  - destruct (c <? 32)%N; [discriminate|].
    intros H. apply IH in H. simpl. lia.
Qed.

Lemma span_digits_longueur (s : str) :
  (length (snd (span_digits s)) <= length s)%nat.
Proof.
  induction s as [|c s IH]; simpl; [lia|].
  destruct (is_digit c); simpl; lia.
Qed.

Lemma match_frac_reste (s : str) :
  (length (snd (match_frac s)) <= length s)%nat.
Proof.
  unfold match_frac.
  destruct s as [|c s]; [simpl; lia|].
  destruct (N.eq_dec c 46) as [->|Hc].
  - pose proof (span_digits_longueur s) as H.
    destruct (span_digits s) as [[|d ds] r']; simpl in *; lia.
  - autre_caractere c ltac:(simpl; lia).
Qed.

Lemma match_exp_reste (s : str) :
  (length (snd (match_exp s)) <= length s)%nat.
Proof.
  unfold match_exp.
  destruct s as [|e s]; [simpl; lia|].
  destruct ((e =? 101) || (e =? 69))%N; [|simpl; lia].
  destruct s as [|sg s]; [simpl; lia|].
  destruct ((sg =? 43) || (sg =? 45))%N.
  - pose proof (span_digits_longueur s) as H.
    destruct (span_digits s) as [[|d ds] r']; simpl in *; lia.
  - pose proof (span_digits_longueur (sg :: s)) as H.
    destruct (span_digits (sg :: s)) as [[|d ds] r']; simpl in *; lia.
Qed.

Lemma match_int_reste (s i r : str) :
  match_int s = Some (i, r) -> (length r < length s)%nat.
Proof.
  unfold match_int. destruct s as [|c s]; [discriminate|].
  destruct (c =? 48)%N.
  - intros H. injection H as _ <-. simpl. lia.
  - destruct (is_digit c); [|discriminate].
    intros H. injection H as _ <-.
    pose proof (span_digits_longueur s). simpl. lia.
Qed.

Lemma match_number_reste (s l r : str) :
  match_number s = Some (Ok (l, r)) -> (length r < length s)%nat.
Proof.
  unfold match_number.
  set (signe := match s with
                | 45%N :: r0 => ([45%N], r0)
                | _ => ([], s)
                end).
  assert (Hs : (length (snd signe) <= length s)%nat).
  { unfold signe. destruct s as [|c s]; [simpl; lia|].
    destruct (N.eq_dec c 45) as [->|Hc]; [simpl; lia|].
    autre_caractere c ltac:(simpl; lia). }
  destruct (match_int (snd signe)) as [[i r1]|] eqn:Ei; [|discriminate].
  apply match_int_reste in Ei.
  pose proof (match_frac_reste r1).
  pose proof (match_exp_reste (snd (match_frac r1))).
  destruct (fst (match_frac r1)), (fst (match_exp (snd (match_frac r1))));
    try (destruct (max_str_digits <? len i); [discriminate|]);
    intros Heq; injection Heq as _ <-; lia.
Qed.

Lemma apres_prefixe_longueur (p : str) :
  forall s r, apres_prefixe p s = Some r ->
              (length r + length p = length s)%nat.
Proof.
  induction p as [|a p IH]; intros s r; simpl.
  - intros H. injection H as <-. lia.
  - destruct s as [|b s]; [discriminate|].
    destruct (a =? b)%N; [|discriminate].
    intros H. apply IH in H. simpl. lia.
Qed.

Lemma scan_constant_reste (s : str) (v : json) (r : str) :
  scan_constant s = Ok (v, r) -> (length r < length s)%nat.
Proof.
  unfold scan_constant.
  repeat match goal with
         | |- context [apres_prefixe ?p s] =>
             let E := fresh "E" in
             destruct (apres_prefixe p s) eqn:E;
             [apply apres_prefixe_longueur in E; simpl in E;
              intros H; injection H as _ <-; lia|]
         | |- context [match_number s] =>
             let E := fresh "E" in
             destruct (match_number s) as [[[? ?]|?]|] eqn:E;
             [apply match_number_reste in E;
              intros H; injection H as _ <-; exact E
             |discriminate|]
         end.
  discriminate.
Qed.

Section Conteneurs_proprietes.

Variable scan : str -> res (json * str).

(** The scanner of the values reads at least one character, and fails on
    an empty input as for a value that is missing. *)
Hypothesis scan_avance :
  forall s v r, scan s = Ok (v, r) -> (length r < length s)%nat.
Hypothesis scan_vide : scan [] = Raise JSONDecodeError.

Lemma parse_members_reste (fuel : nat) :
  forall s pairs v r,
    parse_members scan fuel s pairs = Ok (v, r) ->
    (length r < length s)%nat.
Proof.
  induction fuel as [|fuel IH]; intros s pairs v r; [discriminate|].
  cbn [parse_members].
  destruct (scanstring (length s) s []) as [[k s1]|x] eqn:Ek;
    [|discriminate].
  apply scanstring_reste in Ek. cbn [bind fst snd].
  pose proof (skip_ws_longueur s1) as Hs1.
  destruct (skip_ws s1) as [|h t]; [discriminate|]. simpl in Hs1.
  destruct (N.eq_dec h 58) as [->|H58];
    [|autre_caractere h discriminate].
  destruct (scan (skip_ws t)) as [[v' s4]|x] eqn:Ev; [|discriminate].
  apply scan_avance in Ev. pose proof (skip_ws_longueur t) as Ht.
  cbn [bind fst snd]. pose proof (skip_ws_longueur s4) as Hs4.
  destruct (skip_ws s4) as [|h2 t2]; [discriminate|]. simpl in Hs4.
  destruct (N.eq_dec h2 125) as [->|H125].
  { intros H. injection H as _ <-. lia. }
  destruct (N.eq_dec h2 44) as [->|H44];
    [|autre_caractere h2 discriminate].
  pose proof (skip_ws_longueur t2) as Ht2.
  destruct (skip_ws t2) as [|h3 t3]; [discriminate|]. simpl in Ht2.
  destruct (N.eq_dec h3 34) as [->|H34];
    [|autre_caractere h3 discriminate].
  intros H. apply IH in H. lia.
Qed.

Lemma parse_elements_reste (fuel : nat) :
  forall s values v r,
    parse_elements scan fuel s values = Ok (v, r) ->
    (length r < length s)%nat.
Proof.
  induction fuel as [|fuel IH]; intros s values v r; [discriminate|].
  cbn [parse_elements].
  destruct (scan s) as [[v' s1]|x] eqn:Ev; [|discriminate].
  apply scan_avance in Ev. cbn [bind fst snd].
  pose proof (skip_ws_longueur s1) as Hs1.
  destruct (skip_ws s1) as [|h t]; [discriminate|]. simpl in Hs1.
  destruct (N.eq_dec h 93) as [->|H93].
  { intros H. injection H as _ <-. lia. }
  destruct (N.eq_dec h 44) as [->|H44];
    [|autre_caractere h discriminate].
  pose proof (skip_ws_longueur t) as Ht.
  intros H. apply IH in H. lia.
Qed.

(** The loop over the members does not depend on the bound of its turns,
    from the length of the input on: the bound is never what stops it. *)
Lemma parse_members_assez (n : nat) :
  forall m s pairs,
    (length s <= n)%nat -> (length s <= m)%nat ->
    parse_members scan n s pairs = parse_members scan m s pairs.
Proof.
  induction n as [|n IH]; intros m s pairs Hn Hm.
  - destruct s; [|simpl in Hn; lia]. destruct m; reflexivity.
  - destruct m as [|m].
    { destruct s; [reflexivity | simpl in Hm; lia]. }
    cbn [parse_members].
    destruct (scanstring (length s) s []) as [[k s1]|x] eqn:Ek;
      [|reflexivity].
    apply scanstring_reste in Ek. cbn [bind fst snd].
    pose proof (skip_ws_longueur s1) as Hs1.
    destruct (skip_ws s1) as [|h t]; [reflexivity|]. simpl in Hs1.
    destruct (N.eq_dec h 58) as [->|H58];
      [|autre_caractere h ltac:(reflexivity)].
    destruct (scan (skip_ws t)) as [[v' s4]|x] eqn:Ev; [|reflexivity].
    apply scan_avance in Ev. pose proof (skip_ws_longueur t) as Ht.
    cbn [bind fst snd]. pose proof (skip_ws_longueur s4) as Hs4.
    destruct (skip_ws s4) as [|h2 t2]; [reflexivity|]. simpl in Hs4.
    destruct (N.eq_dec h2 125) as [->|H125]; [reflexivity|].
    destruct (N.eq_dec h2 44) as [->|H44];
      [|autre_caractere h2 ltac:(reflexivity)].
    pose proof (skip_ws_longueur t2) as Ht2.
    destruct (skip_ws t2) as [|h3 t3]; [reflexivity|]. simpl in Ht2.
    destruct (N.eq_dec h3 34) as [->|H34];
      [|autre_caractere h3 ltac:(reflexivity)].
    apply IH; lia.
Qed.

(** The same for the loop over the elements. *)
Lemma parse_elements_assez (n : nat) :
  forall m s values,
    (length s <= n)%nat -> (length s <= m)%nat ->
    parse_elements scan n s values = parse_elements scan m s values.
Proof.
  induction n as [|n IH]; intros m s values Hn Hm.
  - destruct s; [|simpl in Hn; lia]. destruct m; [reflexivity|].
    cbn [parse_elements]. rewrite scan_vide. reflexivity.
  - destruct m as [|m].
    { destruct s; [|simpl in Hm; lia].
      cbn [parse_elements]. rewrite scan_vide. reflexivity. }
    cbn [parse_elements].
    destruct (scan s) as [[v' s1]|x] eqn:Ev; [|reflexivity].
    apply scan_avance in Ev. cbn [bind fst snd].
    pose proof (skip_ws_longueur s1) as Hs1.
    destruct (skip_ws s1) as [|h t]; [reflexivity|]. simpl in Hs1.
    destruct (N.eq_dec h 93) as [->|H93]; [reflexivity|].
    destruct (N.eq_dec h 44) as [->|H44];
      [|autre_caractere h ltac:(reflexivity)].
    pose proof (skip_ws_longueur t) as Ht.
    apply IH; lia.
Qed.

End Conteneurs_proprietes.

Lemma scan_once_vide (profondeur : nat) :
  scan_once profondeur [] = Raise JSONDecodeError.
Proof. destruct profondeur; reflexivity. Qed.

(** What [scan_once] leaves is shorter than what it was given. *)
Lemma scan_once_reste (profondeur : nat) :
  forall s v r,
    scan_once profondeur s = Ok (v, r) -> (length r < length s)%nat.
Proof.
  assert (Hscalaire :
    forall p c s v r,
      (c =? 123)%N = false -> (c =? 91)%N = false ->
      scan_once p (c :: s) = Ok (v, r) ->
      (length r < length (c :: s))%nat).
  { intros p c s v r H123 H91.
    destruct p; cbn [scan_once]; rewrite H123, H91;
      (destruct (c =? 34)%N;
       [destruct (scanstring (length s) s []) as [[v' r']|x] eqn:E;
        [|discriminate];
        apply scanstring_reste in E; intros H; injection H as _ <-;
        simpl; lia
       |apply scan_constant_reste]). }
  induction profondeur as [|p IH]; intros s v r;
    (destruct s as [|c s]; [discriminate|]);
    destruct (c =? 123)%N eqn:H123.
  - apply N.eqb_eq in H123. subst c. discriminate.
  - destruct (c =? 91)%N eqn:H91.
    + apply N.eqb_eq in H91. subst c. discriminate.
    + apply Hscalaire; assumption.
  - apply N.eqb_eq in H123. subst c. cbn [scan_once].
    change (123 =? 34)%N with false. change (123 =? 123)%N with true.
    cbv beta iota.
    pose proof (skip_ws_longueur s) as Hs.
    destruct (skip_ws s) as [|h t]; [discriminate|]. simpl in Hs.
    destruct (N.eq_dec h 125) as [->|H125].
    { intros H. injection H as _ <-. simpl. lia. }
    destruct (N.eq_dec h 34) as [->|H34].
    { intros H. apply (@parse_members_reste _ IH) in H. simpl. lia. }
    autre_caractere h discriminate.
  - destruct (c =? 91)%N eqn:H91.
    + apply N.eqb_eq in H91. subst c. cbn [scan_once].
      change (91 =? 34)%N with false. change (91 =? 123)%N with false.
      change (91 =? 91)%N with true. cbv beta iota.
      pose proof (skip_ws_longueur s) as Hs.
      destruct (skip_ws s) as [|h t].
      { discriminate. }
      simpl in Hs.
      destruct (N.eq_dec h 93) as [->|H93].
      { intros H. injection H as _ <-. simpl. lia. }
      autre_caractere h
        ltac:(intros H; apply (@parse_elements_reste _ IH) in H;
              simpl in *; lia).
    + apply Hscalaire; assumption.
Qed.

(** In [scan_once] the loops are given turns enough: with any larger
    bound they return the same. *)
Lemma scan_once_boucles (profondeur : nat) (s : str) (n : nat) :
  (length s <= n)%nat ->
  parse_members (scan_once profondeur) (length s) s []
  = parse_members (scan_once profondeur) n s []
  /\ parse_elements (scan_once profondeur) (length s) s []
     = parse_elements (scan_once profondeur) n s [].
Proof.
  intros Hn. split.
  - apply (@parse_members_assez _ (scan_once_reste profondeur));
      [lia | exact Hn].
  - apply (@parse_elements_assez _ (scan_once_reste profondeur)
             (scan_once_vide profondeur)); [lia | exact Hn].
Qed.

(** * Further properties of the chunker *)

Lemma blanc_nil_ou_visible (c : str) : blanc c = false -> (0 < length c)%nat.
Proof. destruct c; [discriminate | simpl; lia]. Qed.

(** The chunks of one text, for a positive step. *)
Lemma chunker_pas_positif (texte : str) (taille_chunk chevauchement : Z) :
  0 < taille_chunk - chevauchement ->
  chunker texte taille_chunk chevauchement
  = Ok (filter (fun c => negb (blanc c))
          (map (fenetre texte taille_chunk)
             (map (fun k => Z.of_nat k * (taille_chunk - chevauchement))
                (seq 0 (Z.to_nat ((len texte + (taille_chunk - chevauchement) - 1)
                                  / (taille_chunk - chevauchement))))))).
Proof.
  intros Hs. apply chunker_fenetres. apply range_pos. exact Hs.
Qed.

Lemma fenetre_longueur (texte : str) (taille_chunk i : Z) :
  0 <= i -> 0 <= taille_chunk ->
  len (fenetre texte taille_chunk i) <= taille_chunk.
Proof.
  intros Hi Ht.
  rewrite <- (Z2Nat.id i), <- (Z2Nat.id taille_chunk) by assumption.
  rewrite fenetre_nat. unfold len.
  rewrite length_firstn, length_skipn. lia.
Qed.

(** X1. For every text, every chunk size that is not negative and every
    overlap, each chunk produced has at least one and at most
    [taille_chunk] characters and holds a character that is not white
    space. *)
Theorem chunker_bornes
    (texte : str) (taille_chunk chevauchement : Z) (cs : list str) :
  0 <= taille_chunk ->
  chunker texte taille_chunk chevauchement = Ok cs ->
  Forall (fun c => 1 <= len c <= taille_chunk /\ blanc c = false) cs.
Proof.
  intros Ht Hc.
  destruct (Z_dec' 0 (taille_chunk - chevauchement)) as [[Hs|Hs]|Hs].
  - rewrite (@chunker_pas_positif texte _ _ Hs) in Hc. injection Hc as <-.
    apply Forall_forall. intros c Hin. apply filter_In in Hin.
    destruct Hin as (Hin & Hb). apply negb_true_iff in Hb.
    apply in_map_iff in Hin. destruct Hin as (i & <- & Hi).
    apply in_map_iff in Hi. destruct Hi as (k & <- & _).
    split; [|exact Hb]. split.
    + apply blanc_nil_ou_visible in Hb. unfold len. lia.
    + apply fenetre_longueur; [|exact Ht].
      apply Z.mul_nonneg_nonneg; lia.
  - rewrite (@chunker_fenetres taille_chunk chevauchement texte []) in Hc.
    + injection Hc as <-. constructor.
    + apply range_neg; [apply len_nonneg | lia].
  - unfold chunker in Hc. rewrite <- Hs in Hc. discriminate.
Qed.

Lemma chunker_bornes_witness :
  Forall (fun c => 1 <= len c <= 4 /\ blanc c = false)
         [lit "abcd"; lit "cdef"; lit "ef h"; lit " h"].
Proof.
  apply (@chunker_bornes (lit "abcdef h") 4 2).
  - lia.
  - reflexivity.
Defined.

(** A window holds the characters of the text from its start. *)
Lemma fenetre_nth (texte : str) (w a p : nat) (d : N) :
  (a <= p)%nat -> (p < a + w)%nat -> (p < length texte)%nat ->
  nth (p - a) (fenetre texte (Z.of_nat w) (Z.of_nat a)) d = nth p texte d.
Proof.
  intros Ha Hw Hp. rewrite fenetre_nat.
  rewrite (Nat.min_l a) by lia.
  rewrite nth_firstn.
  destruct (Nat.ltb_spec (p - a) (Nat.min (a + w) (length texte) - a));
    [|lia].
  rewrite nth_skipn. f_equal. lia.
Qed.

Lemma blanc_nth (c : str) (j : nat) :
  (j < length c)%nat -> isspace (nth j c 0%N) = false -> blanc c = false.
Proof.
  intros Hj Hs. destruct (blanc c) eqn:E; [|reflexivity].
  unfold blanc in E. rewrite forallb_forall in E.
  rewrite E in Hs; [discriminate|]. apply nth_In. exact Hj.
Qed.

(** X2. When the overlap is not negative and smaller than the chunk
    size, no visible character is lost: every position of the text whose
    character is not white space lies in a chunk that is produced, at the
    place the window's start gives. *)
Theorem chunker_couvre
    (texte : str) (taille_chunk chevauchement : Z) (p : nat) :
  0 <= chevauchement < taille_chunk ->
  (p < length texte)%nat ->
  isspace (nth p texte 0%N) = false ->
  exists cs i,
    chunker texte taille_chunk chevauchement = Ok cs
    /\ In (fenetre texte taille_chunk i) cs
    /\ 0 <= i <= Z.of_nat p /\ Z.of_nat p < i + taille_chunk
    /\ nth (p - Z.to_nat i) (fenetre texte taille_chunk i) 0%N
       = nth p texte 0%N.
Proof.
  intros Hc Hp Hvis.
  set (step := taille_chunk - chevauchement).
  assert (Hs : 0 < step) by (unfold step; lia).
  set (k := Z.to_nat (Z.of_nat p / step)).
  assert (Hq : 0 <= Z.of_nat p / step) by (apply Z.div_pos; lia).
  assert (Hk : Z.of_nat k = Z.of_nat p / step) by (unfold k; lia).
  pose proof (Z.mul_div_le (Z.of_nat p) step Hs) as Hle.
  pose proof (Z.mul_succ_div_gt (Z.of_nat p) step Hs) as Hgt.
  set (i := Z.of_nat k * step).
  assert (Hi : 0 <= i <= Z.of_nat p) by (unfold i; rewrite Hk; lia).
  assert (Hi' : Z.of_nat p < i + step) by (unfold i; rewrite Hk; lia).
  assert (Hnth : nth (p - Z.to_nat i) (fenetre texte taille_chunk i) 0%N
                 = nth p texte 0%N).
  { rewrite <- (Z2Nat.id i) at 2 by lia.
    rewrite <- (Z2Nat.id taille_chunk) by lia.
    apply fenetre_nth; lia. }
  exists (filter (fun c => negb (blanc c))
            (map (fenetre texte taille_chunk)
               (map (fun k => Z.of_nat k * step)
                  (seq 0 (Z.to_nat ((len texte + step - 1) / step)))))), i.
  split; [apply chunker_pas_positif; exact Hs|].
  split; [|split; [exact Hi|split; [unfold step in *; lia|exact Hnth]]].
  apply filter_In. split.
  - apply in_map. apply in_map_iff. exists k. split; [reflexivity|].
    apply in_seq. split; [lia|]. simpl.
    assert (Z.of_nat k < (len texte + step - 1) / step); [|lia].
    rewrite Hk.
    replace (len texte + step - 1) with ((len texte - 1) + 1 * step) by lia.
    rewrite Z.div_add by lia.
    assert (Z.of_nat p / step <= (len texte - 1) / step); [|lia].
    apply Z.div_le_mono; [lia|]. unfold len. lia.
  - apply negb_true_iff.
    apply blanc_nth with (j := (p - Z.to_nat i)%nat); [|rewrite Hnth; exact Hvis].
    rewrite <- (Z2Nat.id i) by lia.
    rewrite <- (Z2Nat.id taille_chunk) by lia.
    rewrite fenetre_nat, length_firstn, length_skipn. lia.
Qed.

Lemma chunker_couvre_witness :
  exists cs i,
    chunker (lit "abcdef h") 4 2 = Ok cs
    /\ In (fenetre (lit "abcdef h") 4 i) cs
    /\ 0 <= i <= Z.of_nat 7 /\ Z.of_nat 7 < i + 4
    /\ nth (7 - Z.to_nat i) (fenetre (lit "abcdef h") 4 i) 0%N
       = nth 7 (lit "abcdef h") 0%N.
Proof.
  apply (@chunker_couvre (lit "abcdef h") 4 2 7).
  - lia.
  - simpl. lia.
  - reflexivity.
Defined.

(** ** The directory loop *)

Lemma etat_eq (e : etat) :
  e = {| chunks := chunks e; metadatas := metadatas e;
         warnings := warnings e |}.
Proof. destruct e. reflexivity. Qed.

Lemma etat_plus_initial_l (e : etat) : etat_plus etat_initial e = e.
Proof. destruct e. reflexivity. Qed.

Lemma etat_plus_initial_r (e : etat) : etat_plus e etat_initial = e.
Proof. destruct e. unfold etat_plus. simpl. rewrite !app_nil_r. reflexivity. Qed.

Lemma etat_plus_assoc (a b c : etat) :
  etat_plus (etat_plus a b) c = etat_plus a (etat_plus b c).
Proof. unfold etat_plus. simpl. rewrite !app_assoc. reflexivity. Qed.

(** One turn of the outer loop adds to the state what it adds to the
    empty state. *)
Lemma traiter_fichier_plus (t c : Z) (e : etat) (f : entree) :
  traiter_fichier t c e f = etat_plus e (traiter_fichier t c etat_initial f).
Proof.
  unfold traiter_fichier.
  destruct (endswith (lower (nom f)) (lit ".pdf"));
    [|rewrite etat_plus_initial_r; reflexivity].
  unfold traiter_pdf.
  destruct (fitz_open (fichier_contenu f)) as [doc|x]; cbn [bind].
  2:{ unfold etat_plus. simpl. rewrite !app_nil_r. reflexivity. }
  destruct (lire_pages doc []) as [texte|x]; cbn [bind].
  2:{ unfold etat_plus. simpl. rewrite !app_nil_r. reflexivity. }
  destruct (range 0 (len texte) (t - c)) as [r|x]; cbn [bind].
  2:{ unfold etat_plus. simpl. rewrite !app_nil_r. reflexivity. }
  destruct (boucle_chunks t texte (nom f) r e) as (H1 & H2 & H3).
  destruct (boucle_chunks t texte (nom f) r etat_initial) as (K1 & K2 & K3).
  rewrite (etat_eq (fold_left (ajouter_chunk texte (nom f) t) r e)).
  unfold etat_plus. rewrite H1, H2, H3, K1, K2, K3. simpl.
  rewrite app_nil_r. reflexivity.
Qed.

Lemma boucle_fichiers_plus (t c : Z) (l : list entree) (e : etat) :
  fold_left (traiter_fichier t c) l e
  = etat_plus e (fold_left (traiter_fichier t c) l etat_initial).
Proof.
  revert e. induction l as [|f l IH]; intros e; simpl.
  - rewrite etat_plus_initial_r. reflexivity.
  - rewrite IH, (IH (traiter_fichier t c etat_initial f)).
    rewrite traiter_fichier_plus, etat_plus_assoc. reflexivity.
Qed.

(** X3. The result follows the listing: for a directory listed as [l1]
    then [l2], the chunks, the origins and the warnings are those of [l1]
    followed by those of [l2]. *)
Theorem lire_et_chunker_pdfs_app
    (l1 l2 : list entree) (taille_chunk chevauchement : Z) :
  exists e1 e2 e,
    lire_et_chunker_pdfs (Some l1) taille_chunk chevauchement = Ok e1
    /\ lire_et_chunker_pdfs (Some l2) taille_chunk chevauchement = Ok e2
    /\ lire_et_chunker_pdfs (Some (l1 ++ l2)) taille_chunk chevauchement
       = Ok e
    /\ chunks e = chunks e1 ++ chunks e2
    /\ metadatas e = metadatas e1 ++ metadatas e2
    /\ warnings e = warnings e1 ++ warnings e2.
Proof.
  eexists _, _, _. split; [reflexivity|]. split; [reflexivity|].
  split; [reflexivity|].
  rewrite fold_left_app, boucle_fichiers_plus. auto.
Qed.

Lemma traiter_fichier_sans_texte (t c : Z) (f : entree) :
  est_pdf (nom f) = false \/ lisible f = false ->
  chunks (traiter_fichier t c etat_initial f) = []
  /\ metadatas (traiter_fichier t c etat_initial f) = [].
Proof.
  unfold traiter_fichier, est_pdf, lisible, extraire, traiter_pdf.
  intros [H|H].
  - rewrite H. auto.
  - destruct (endswith (lower (nom f)) (lit ".pdf")); [|auto].
    destruct (fitz_open (fichier_contenu f)) as [doc|x]; cbn [bind] in *;
      [|auto].
    destruct (lire_pages doc []) as [texte|x]; cbn [bind]; [discriminate|].
    auto.
Qed.

(** X4. A batch is not aborted by one entry: an entry that is not named
    as a PDF, or whose text cannot be extracted, adds no chunk and no
    origin, and the chunks of the directory are those of the directory
    without it. *)
Theorem lire_et_chunker_pdfs_sans_entree
    (l1 l2 : list entree) (f : entree) (taille_chunk chevauchement : Z) :
  est_pdf (nom f) = false \/ lisible f = false ->
  exists e e',
    lire_et_chunker_pdfs (Some (l1 ++ f :: l2)) taille_chunk chevauchement
    = Ok e
    /\ lire_et_chunker_pdfs (Some (l1 ++ l2)) taille_chunk chevauchement
       = Ok e'
    /\ chunks e = chunks e' /\ metadatas e = metadatas e'.
Proof.
  intros Hf. eexists _, _. split; [reflexivity|]. split; [reflexivity|].
  rewrite !fold_left_app. cbn [fold_left].
  rewrite (boucle_fichiers_plus _ _ l2
             (traiter_fichier taille_chunk chevauchement
                (fold_left (traiter_fichier taille_chunk chevauchement)
                   l1 etat_initial) f)).
  rewrite (boucle_fichiers_plus _ _ l2
             (fold_left (traiter_fichier taille_chunk chevauchement)
                l1 etat_initial)).
  rewrite traiter_fichier_plus.
  destruct (@traiter_fichier_sans_texte taille_chunk chevauchement f Hf)
    as (H1 & H2).
  unfold etat_plus. cbn [chunks metadatas]. rewrite H1, H2, !app_nil_r. auto.
Qed.

Lemma lire_et_chunker_pdfs_sans_entree_witness :
  let abime := {| nom := lit "abime.pdf"; fichier_contenu := Illisible |} in
  let a := document (lit "a.pdf") (lit "premier") in
  let b := document (lit "b.PDF") (lit "second") in
  exists e e',
    lire_et_chunker_pdfs (Some ([a] ++ abime :: [b])) 500 100 = Ok e
    /\ lire_et_chunker_pdfs (Some ([a] ++ [b])) 500 100 = Ok e'
    /\ chunks e = chunks e' /\ metadatas e = metadatas e'.
Proof.
  intros abime a b.
  apply (@lire_et_chunker_pdfs_sans_entree [a] [b] abime 500 100).
  right. reflexivity.
Defined.

Lemma traiter_fichier_warnings (t c : Z) (f : entree) :
  map fst (warnings (traiter_fichier t c etat_initial f))
  = if est_pdf (nom f) && (negb (lisible f) || (t =? c))
    then [nom f] else [].
Proof.
  unfold traiter_fichier, est_pdf, lisible, extraire, traiter_pdf.
  destruct (endswith (lower (nom f)) (lit ".pdf")); [|reflexivity].
  destruct (fitz_open (fichier_contenu f)) as [doc|x]; cbn [bind];
    [|reflexivity].
  destruct (lire_pages doc []) as [texte|x]; cbn [bind]; [|reflexivity].
  cbn [andb negb orb].
  destruct (Z.eqb_spec t c) as [->|Hne].
  - rewrite Z.sub_diag. reflexivity.
  - unfold range. destruct (Z.eqb_spec (t - c) 0); [lia|]. cbn [bind].
    destruct (boucle_chunks t texte (nom f)
                (map (fun k => 0 + Z.of_nat k * (t - c))
                   (seq 0 (Z.to_nat (range_len 0 (len texte) (t - c)))))
                etat_initial) as (_ & _ & ->).
    reflexivity.
Qed.

(** X5. The warnings name, in listing order, exactly the entries named
    as PDF whose text cannot be extracted; when the overlap equals the
    chunk size they name every entry named as PDF, readable or not. *)
Theorem lire_et_chunker_pdfs_warnings
    (fichiers : list entree) (taille_chunk chevauchement : Z) :
  exists e,
    lire_et_chunker_pdfs (Some fichiers) taille_chunk chevauchement = Ok e
    /\ map fst (warnings e)
       = map nom
           (filter (fun f => est_pdf (nom f)
                             && (negb (lisible f)
                                 || (taille_chunk =? chevauchement)))
                   fichiers).
Proof.
  eexists. split; [reflexivity|].
  induction fichiers as [|f l IH]; [reflexivity|].
  cbn [fold_left filter].
  rewrite boucle_fichiers_plus. unfold etat_plus. cbn [warnings].
  rewrite map_app, IH, traiter_fichier_warnings.
  destruct (est_pdf (nom f)
            && (negb (lisible f) || (taille_chunk =? chevauchement)));
    reflexivity.
Qed.

Lemma lower_char_inv (c v : N) :
  lower_char c = v -> c = v \/ ((65 <= c <= 90)%N /\ v = (c + 32)%N).
Proof.
  unfold lower_char.
  destruct (N.leb_spec 65 c), (N.leb_spec c 90); simpl; intros <-; auto.
Qed.

(** X6. A directory entry is read as a PDF exactly when its name ends
    with a dot followed by the letters p, d, f, each in either case. *)
Theorem est_pdf_extension (fichier : str) :
  est_pdf fichier = true
  <-> exists base p d f,
        fichier = base ++ [46%N; p; d; f]
        /\ (p = 112 \/ p = 80)%N /\ (d = 100 \/ d = 68)%N
        /\ (f = 102 \/ f = 70)%N.
Proof.
  unfold est_pdf, endswith, lower. rewrite length_map.
  change (length (lit ".pdf")) with 4%nat. split.
  - intros H. apply andb_true_iff in H. destruct H as (Hl & He).
    apply Nat.leb_le in Hl. apply str_eqb_eq in He.
    rewrite skipn_map in He.
    pose proof (firstn_skipn (length fichier - 4) fichier) as Hs.
    pose proof (length_skipn (length fichier - 4) fichier) as Hn.
    destruct (skipn (length fichier - 4) fichier)
      as [|x [|p [|d [|f [|? ?]]]]]; simpl in Hn; try lia.
    exists (firstn (length fichier - 4) fichier), p, d, f.
    simpl in He. injection He as Hx Hp Hd Hf.
    apply lower_char_inv in Hx, Hp, Hd, Hf.
    assert (x = 46%N) by lia. subst x.
    split; [symmetry; exact Hs|]. repeat split; lia.
  - intros (base & p & d & f & -> & Hp & Hd & Hf).
    rewrite length_app. simpl length.
    replace (length base + 4 - 4)%nat with (length base) by lia.
    apply andb_true_iff. split; [apply Nat.leb_le; lia|].
    rewrite map_app, skipn_app, length_map, Nat.sub_diag.
    rewrite skipn_all2 by (rewrite length_map; lia).
    destruct Hp as [-> | ->], Hd as [-> | ->], Hf as [-> | ->];
      reflexivity.
Qed.

(** * Further properties of the retrieval *)

Section Classement_tete.

Variable fvec_L2sqr : vecteur -> vecteur -> Q.

(** The stored vector at the smallest computed distance heads the
    ranking. *)
Lemma classer_tete (q : vecteur) (stored : list vecteur) :
  stored <> [] ->
  exists e0 r,
    classer fvec_L2sqr q stored = e0 :: r
    /\ (snd e0 < length stored)%nat
    /\ forall j, (j < length stored)%nat ->
         (fvec_L2sqr q (nth (snd e0) stored []) <= fvec_L2sqr q (nth j stored []))%Q.
Proof.
  intros Hne.
  destruct (classer_positions fvec_L2sqr q stored) as (Hperm & Hsort).
  destruct (classer fvec_L2sqr q stored) as [|e0 r] eqn:E.
  - apply Permutation_length in Hperm. rewrite length_seq in Hperm.
    destruct stored; [congruence | discriminate].
  - exists e0, r. split; [reflexivity|]. simpl in Hperm, Hsort.
    assert (H0 : In (snd e0) (seq 0 (length stored))).
    { apply (Permutation_in _ Hperm). left. reflexivity. }
    apply in_seq in H0. split; [lia|].
    intros j Hj.
    assert (Hin : In j (snd e0 :: map snd r)).
    { apply (Permutation_in _ (Permutation_sym Hperm)).
      apply in_seq. lia. }
    inversion Hsort as [|? ? _ Hall]; subst.
    destruct Hin as [<-|Hin]; [apply Qle_refl|].
    rewrite Forall_forall in Hall. apply Hall. exact Hin.
Qed.

End Classement_tete.

Section Recherche_suite.

Variable fvec_L2sqr : vecteur -> vecteur -> Q.
Variable dim : nat.
Variable encoder_texte : str -> vecteur.

(** X7. On the index of a corpus that is not empty, for every
    [top_k >= 1], the search returns exactly [top_k] passages and each of
    them is a chunk of the corpus. *)
Theorem rechercher_passages_dans_corpus
    (question : str) (chunks : list str) (top_k : Z) :
  chunks <> [] ->
  1 <= top_k ->
  exists index vecteurs passages,
    construire_index dim encoder_texte chunks = Ok (index, vecteurs)
    /\ rechercher_passages fvec_L2sqr dim encoder_texte question chunks index top_k
       = Ok passages
    /\ len passages = top_k
    /\ Forall (fun p => In p chunks) passages.
Proof.
  intros Hne Hk. eexists _, _, _.
  split; [apply construire_index_non_vide; exact Hne|].
  split; [apply rechercher_passages_classement; assumption|].
  split.
  - unfold len. rewrite length_app, length_map, length_firstn, repeat_length.
    rewrite classer_longueur, length_map. lia.
  - apply Forall_app. split; apply Forall_forall.
    + intros p Hp. apply in_map_iff in Hp. destruct Hp as (e & <- & He).
      apply nth_In. apply dans_firstn in He.
      apply classer_positions_bornees in He.
      rewrite length_map in He. exact He.
    + intros p Hp. apply repeat_spec in Hp. subst p.
      destruct (exists_last Hne) as (l & c & ->).
      rewrite last_last. apply in_or_app. right. left. reflexivity.
Qed.

(** The first passage is the chunk at the head of the ranking. *)
Lemma rechercher_passages_tete
    (question : str) (chunks : list str) (top_k : Z) :
  chunks <> [] ->
  1 <= top_k ->
  exists (p0 : nat) (suite : list str),
    rechercher_passages fvec_L2sqr dim encoder_texte question chunks
      {| dimension := dim; xb := map encoder_texte chunks |} top_k
    = Ok (nth p0 chunks [] :: suite)
    /\ (p0 < length chunks)%nat
    /\ forall j, (j < length chunks)%nat ->
         (distance fvec_L2sqr encoder_texte question (nth p0 chunks [])
          <= distance fvec_L2sqr encoder_texte question (nth j chunks []))%Q.
Proof.
  intros Hne Hk.
  assert (Hs : map encoder_texte chunks <> []).
  { destruct chunks; [congruence | discriminate]. }
  destruct (@classer_tete fvec_L2sqr (encoder_texte question)
              (map encoder_texte chunks) Hs) as (e0 & r & Hr & H0 & Hmin).
  rewrite length_map in H0, Hmin.
  exists (snd e0),
         (map (fun e => nth (snd e) chunks []) (firstn (Z.to_nat top_k - 1) r)
          ++ repeat (last chunks []) (Z.to_nat top_k - length chunks)).
  split; [|split; [exact H0|]].
  - rewrite rechercher_passages_classement by assumption. rewrite Hr.
    destruct (Z.to_nat top_k) as [|k] eqn:Ek; [lia|].
    replace (S k - 1)%nat with k by lia. reflexivity.
  - intros j Hj. specialize (Hmin j Hj). unfold distance.
    rewrite !nth_encode in Hmin by assumption. exact Hmin.
Qed.

(** X8. On the index of a corpus that is not empty, for every
    [top_k >= 1], the first passage returned is a chunk of the corpus at
    the smallest distance from the question, the distance being the
    squared Euclidean distance of the embeddings as the index computes it
    in 32-bit floating point: no chunk of the corpus has a smaller
    computed distance. *)
Theorem rechercher_passages_plus_proche
    (question : str) (chunks : list str) (top_k : Z) :
  chunks <> [] ->
  1 <= top_k ->
  exists index vecteurs premier suite,
    construire_index dim encoder_texte chunks = Ok (index, vecteurs)
    /\ rechercher_passages fvec_L2sqr dim encoder_texte question chunks index top_k
       = Ok (premier :: suite)
    /\ In premier chunks
    /\ forall c, In c chunks ->
         (distance fvec_L2sqr encoder_texte question premier
          <= distance fvec_L2sqr encoder_texte question c)%Q.
Proof.
  intros Hne Hk.
  destruct (rechercher_passages_tete question Hne Hk)
    as (p0 & suite & Hres & H0 & Hmin).
  exists {| dimension := dim; xb := map encoder_texte chunks |},
         (model_encode dim encoder_texte chunks),
         (nth p0 chunks []), suite.
  split; [apply construire_index_non_vide; exact Hne|].
  split; [exact Hres|]. split; [apply nth_In; exact H0|].
  intros c Hc. destruct (In_nth _ _ [] Hc) as (j & Hj & <-).
  apply Hmin. exact Hj.
Qed.

End Recherche_suite.

Lemma rechercher_passages_dans_corpus_witness :
  let chunks := [lit "a"; lit "bbb"] in
  exists index vecteurs passages,
    construire_index 1 encodeur_longueur chunks = Ok (index, vecteurs)
    /\ rechercher_passages distance_exacte 1 encodeur_longueur (lit "xx") chunks index 3
       = Ok passages
    /\ len passages = 3
    /\ Forall (fun p => In p chunks) passages.
Proof.
  intros chunks.
  apply (@rechercher_passages_dans_corpus distance_exacte 1 encodeur_longueur
           (lit "xx") chunks 3).
  - discriminate.
  - lia.
Defined.

Lemma rechercher_passages_plus_proche_witness :
  let chunks := [lit "a"; lit "bbb"; lit "cc"] in
  exists index vecteurs premier suite,
    construire_index 1 encodeur_longueur chunks = Ok (index, vecteurs)
    /\ rechercher_passages distance_exacte 1 encodeur_longueur (lit "xx") chunks index 2
       = Ok (premier :: suite)
    /\ In premier chunks
    /\ forall c, In c chunks ->
         (distance distance_exacte encodeur_longueur (lit "xx") premier
          <= distance distance_exacte encodeur_longueur (lit "xx") c)%Q.
Proof.
  intros chunks.
  apply (@rechercher_passages_plus_proche distance_exacte 1 encodeur_longueur
           (lit "xx") chunks 2).
  - discriminate.
  - lia.
Defined.


(** * Further properties of the advisory feed *)

Lemma tuple_eqb_eq (a b : list Z) : tuple_eqb a b = true <-> a = b.
Proof.
  revert b. induction a as [|x a IH]; intros [|y b]; simpl;
    try (split; discriminate); [tauto|].
  rewrite andb_true_iff, Z.eqb_eq, IH. split.
  - intros (-> & ->). reflexivity.
  - intros H. injection H as -> ->. auto.
Qed.

Lemma filter_aucun {A} (p : A -> bool) (l : list A) :
  (forall a, In a l -> p a = false) -> filter p l = [].
Proof.
  induction l as [|a l IH]; simpl; intros H; [reflexivity|].
  rewrite (H a) by auto. apply IH. auto.
Qed.

Section Tri_stable.

Variable A : Type.
Variable key : A -> struct_time.
Variable d : struct_time.

Let meme (x : A) : bool := tuple_eqb (key x) d.
Let croissant (x y : A) : Prop := tuple_lt (key y) (key x) = false.

(** Inserting in a sorted list puts the element after those of the same
    key and leaves the others in their order. *)
Lemma inserer_cle_filtre (x : A) (l : list A) :
  StronglySorted croissant l ->
  filter meme (inserer_cle key x l) = filter meme l ++ filter meme [x].
Proof.
  induction 1 as [|h t Hs IH Hh]; [reflexivity|].
  cbn [inserer_cle]. destruct (tuple_lt (key x) (key h)) eqn:E.
  - cbn [filter app]. destruct (meme x) eqn:Ex.
    + assert (Hnone : filter meme (h :: t) = []).
      { apply filter_aucun. intros y Hy. unfold meme in *.
        apply tuple_eqb_eq in Ex.
        destruct (tuple_eqb (key y) d) eqn:Ey; [|reflexivity].
        apply tuple_eqb_eq in Ey.
        assert (Hxy : key x = key y) by congruence.
        destruct Hy as [<-|Hy].
        - rewrite Hxy, tuple_lt_irrefl in E. discriminate.
        - rewrite Forall_forall in Hh. specialize (Hh y Hy).
          unfold croissant in Hh. rewrite <- Hxy in Hh. congruence. }
      cbn [filter] in Hnone. rewrite Hnone. reflexivity.
    + rewrite app_nil_r. reflexivity.
  - cbn [filter]. rewrite IH. destruct (meme h); reflexivity.
Qed.

Lemma sorted_boucle_filtre (l acc : list A) :
  StronglySorted croissant acc ->
  filter meme (fold_left (fun acc x => inserer_cle key x acc) l acc)
  = filter meme acc ++ filter meme l.
Proof.
  revert acc. induction l as [|x l IH]; intros acc Hs; simpl.
  - rewrite app_nil_r. reflexivity.
  - rewrite IH by (apply inserer_cle_trie; exact Hs).
    rewrite inserer_cle_filtre by exact Hs.
    rewrite <- app_assoc. f_equal. cbn [filter].
    destruct (meme x); reflexivity.
Qed.

(** [sorted(l, key, reverse=True)] keeps the elements of a same key in
    the order they have in [l]. *)
Lemma sorted_reverse_filtre (l : list A) :
  filter meme (sorted_reverse key l) = filter meme l.
Proof.
  unfold sorted_reverse, sorted.
  rewrite filter_rev, sorted_boucle_filtre by constructor.
  cbn [filter app]. rewrite filter_rev, rev_involutive. reflexivity.
Qed.

End Tri_stable.

(** X10. The sort of the feed is stable.  When every entry has a parsed
    date, the list [articles_tries] that lines 78-82 build has the entries
    of the feed, those published at a same date in the order they have in
    the feed, and the entries the loop reads are its first five. *)
Theorem get_alertes_certfr_stable_tri (entries : list entry) :
  Forall datee entries ->
  exists tries,
    articles_tries entries = Ok tries
    /\ tries = sorted_reverse date_de entries
    /\ Permutation tries entries
    /\ (forall d, publies_le d tries = publies_le d entries)
    /\ get_alertes_certfr entries = pour_chaque alerte_de (firstn 5 tries).
Proof.
  intros Hd. exists (sorted_reverse date_de entries).
  split; [apply articles_tries_datees; exact Hd|].
  split; [reflexivity|].
  split; [apply (proj2 (sorted_reverse_trie date_de entries))|].
  split; [|apply get_alertes_certfr_eq; exact Hd].
  intros d. unfold publies_le.
  apply (sorted_reverse_filtre date_de d entries).
Qed.

Lemma get_alertes_certfr_stable_tri_witness :
  let a := {| title := Some (lit "a"); published := Some (lit "p");
              published_parsed := Some (Some [2024; 1; 1]);
              summary := Some []; link := Some [] |} in
  let b := {| title := Some (lit "b"); published := Some (lit "p");
              published_parsed := Some (Some [2024; 1; 1]);
              summary := Some []; link := Some [] |} in
  let entries := [a; jour 2; b] in
  exists tries,
    articles_tries entries = Ok tries
    /\ tries = sorted_reverse date_de entries
    /\ Permutation tries entries
    /\ (forall d, publies_le d tries = publies_le d entries)
    /\ get_alertes_certfr entries = pour_chaque alerte_de (firstn 5 tries).
Proof.
  intros a b entries.
  apply (get_alertes_certfr_stable_tri (entries := entries)).
  repeat constructor; eexists; reflexivity.
Defined.
(** * Further properties of the conversation log *)

Lemma sauvegarder_echange_erreur
    (maintenant question reponse : str) (fichier : fichier_log) :
  existsb surrogate
    (json_dumps [(lit "timestamp", maintenant); (lit "question", question);
                 (lit "reponse", reponse)] ++ [10%N]) = true ->
  sauvegarder_echange maintenant question reponse fichier
  = (Some (contenu_de fichier), Raise UnicodeEncodeError).
Proof.
  intros H. unfold sauvegarder_echange, ecrire_a_la_fin. rewrite H.
  destruct fichier; reflexivity.
Qed.

(** A surrogate code point is written as it is. *)
Lemma encode_basestring_surrogate (s : str) :
  existsb surrogate s = true ->
  existsb surrogate (encode_basestring s) = true.
Proof.
  intros H. unfold encode_basestring. rewrite !existsb_app.
  apply orb_true_iff. right. apply orb_true_iff. left.
  apply existsb_exists in H. destruct H as (c & Hc & Hs).
  apply existsb_exists. exists c. split; [|exact Hs].
  apply in_flat_map. exists c. split; [exact Hc|].
  unfold surrogate in Hs. apply andb_true_iff in Hs.
  destruct Hs as (Hlo & _). apply N.leb_le in Hlo.
  unfold escape_char.
  repeat match goal with
         | |- context [(c =? ?n)%N] =>
             destruct (N.eqb_spec c n); [lia|]
         end.
  destruct (N.ltb_spec c 32); [lia|]. left. reflexivity.
Qed.

(** The line of an exchange cannot be encoded when one of its three
    strings cannot. *)
Lemma ligne_non_encodable (maintenant question reponse : str) :
  ~ (encodable maintenant /\ encodable question /\ encodable reponse) ->
  existsb surrogate
    (json_dumps [(lit "timestamp", maintenant); (lit "question", question);
                 (lit "reponse", reponse)] ++ [10%N]) = true.
Proof.
  intros H. unfold encodable in H.
  unfold json_dumps, dumps_items. rewrite !existsb_app.
  destruct (existsb surrogate maintenant) eqn:Em.
  { rewrite (encode_basestring_surrogate _ Em).
    rewrite ?orb_true_r, ?orb_true_l. reflexivity. }
  destruct (existsb surrogate question) eqn:Eq.
  { rewrite (encode_basestring_surrogate _ Eq).
    rewrite ?orb_true_r, ?orb_true_l. reflexivity. }
  destruct (existsb surrogate reponse) eqn:Er.
  { rewrite (encode_basestring_surrogate _ Er).
    rewrite ?orb_true_r, ?orb_true_l. reflexivity. }
  exfalso. apply H. auto.
Qed.

(** X11. The line that [sauvegarder_echange] appends for encodable
    strings is a JSON object with the three fields [timestamp],
    [question] and [reponse], in this order, holding the clock's string,
    the question and the answer. *)
Theorem sauvegarder_echange_schema (reserve : nat)
    (maintenant question reponse : str) (fichier : fichier_log) :
  encodable maintenant -> encodable question -> encodable reponse ->
  exists ligne,
    sauvegarder_echange maintenant question reponse fichier
    = (Some (contenu_de fichier ++ map Caractere ligne), Ok tt)
    /\ decode (map Caractere ligne) = Ok ligne
    /\ json_loads reserve ligne
       = Ok (JObject [(lit "timestamp", JString maintenant);
                      (lit "question", JString question);
                      (lit "reponse", JString reponse)]).
Proof.
  intros Hm Hq Hr. eexists. split; [|split].
  - apply sauvegarder_echange_ok; assumption.
  - apply decode_texte. apply json_dumps_encodable.
    repeat constructor; try assumption; reflexivity.
  - rewrite json_loads_dumps by reflexivity. reflexivity.
Qed.

Lemma sauvegarder_echange_schema_witness :
  exists ligne,
    sauvegarder_echange (lit "2024-05-01T10:00:00") (lit "q ?")
      ([233%N; 10%N; 34%N]) None
    = (Some (contenu_de None ++ map Caractere ligne), Ok tt)
    /\ decode (map Caractere ligne) = Ok ligne
    /\ json_loads 0 ligne
       = Ok (JObject [(lit "timestamp", JString (lit "2024-05-01T10:00:00"));
                      (lit "question", JString (lit "q ?"));
                      (lit "reponse", JString [233%N; 10%N; 34%N])]).
Proof.
  apply (@sauvegarder_echange_schema 0 (lit "2024-05-01T10:00:00")
           (lit "q ?") [233%N; 10%N; 34%N] None); reflexivity.
Defined.

(** X12. [sauvegarder_echange] only appends: what the log held stays at
    the start of the new log.  When the clock's string, the question and
    the answer can be encoded it adds exactly one line, without a line
    break inside whatever they hold, so that a finished log that decodes
    has one line more; when one of them cannot, it adds nothing and
    raises. *)
Theorem sauvegarder_echange_ajoute
    (maintenant question reponse : str) (fichier : fichier_log) :
  (encodable maintenant /\ encodable question /\ encodable reponse ->
   exists corps,
     sauvegarder_echange maintenant question reponse fichier
     = (Some (contenu_de fichier ++ map Caractere (corps ++ [10%N])), Ok tt)
     /\ sans_saut corps
     /\ forall texte,
          decode (contenu_de fichier) = Ok texte ->
          termine texte ->
          decode (contenu_de fichier ++ map Caractere (corps ++ [10%N]))
          = Ok (texte ++ corps ++ [10%N])
          /\ readlines (texte ++ corps ++ [10%N]) []
             = readlines texte [] ++ [corps ++ [10%N]])
  /\ (~ (encodable maintenant /\ encodable question /\ encodable reponse) ->
      sauvegarder_echange maintenant question reponse fichier
      = (Some (contenu_de fichier), Raise UnicodeEncodeError)).
Proof.
  split.
  - intros (Hm & Hq & Hr).
    exists (json_dumps [(lit "timestamp", maintenant);
                        (lit "question", question);
                        (lit "reponse", reponse)]).
    split; [apply sauvegarder_echange_ok; assumption|].
    split; [apply json_dumps_sans_saut|].
    intros texte Hd Hc.
    destruct (@charger_apres_sauvegarde 0 _ _ _ fichier texte
                Hm Hq Hr Hd Hc) as (Hd' & _ & Hl & _).
    rewrite sauvegarder_echange_ok in Hd' by assumption.
    cbn [fst contenu_de] in Hd'. split; assumption.
  - intros H. apply sauvegarder_echange_erreur.
    apply ligne_non_encodable. exact H.
Qed.

Lemma sauvegarder_echange_ajoute_witness :
  (exists corps,
     sauvegarder_echange (lit "t") (lit "q") [10%N; 13%N; 233%N] None
     = (Some (contenu_de None ++ map Caractere (corps ++ [10%N])), Ok tt)
     /\ sans_saut corps
     /\ forall texte,
          decode (contenu_de None) = Ok texte ->
          termine texte ->
          decode (contenu_de None ++ map Caractere (corps ++ [10%N]))
          = Ok (texte ++ corps ++ [10%N])
          /\ readlines (texte ++ corps ++ [10%N]) []
             = readlines texte [] ++ [corps ++ [10%N]])
  /\ sauvegarder_echange (lit "t") [56320%N] (lit "r")
       (Some [Caractere 120%N])
     = (Some (contenu_de (Some [Caractere 120%N])),
        Raise UnicodeEncodeError).
Proof.
  split.
  - apply (proj1 (sauvegarder_echange_ajoute (lit "t") (lit "q")
                    [10%N; 13%N; 233%N] None)).
    repeat split.
  - apply (proj2 (sauvegarder_echange_ajoute (lit "t") [56320%N] (lit "r")
                    (Some [Caractere 120%N]))).
    intros (_ & H & _). discriminate.
Defined.

Section Serie.

Variable reserve : nat.

(** X13. Saving a series of exchanges with encodable strings in a log
    that decodes as UTF-8 and is finished, then reloading it, gives the
    history of the log before, followed by the pairs of the series, in
    order. *)
Theorem sauvegarder_serie_charger
    (echanges : list (str * str * str)) (fichier : fichier_log)
    (texte : str) :
  Forall (fun e => encodable (fst (fst e)) /\ encodable (snd (fst e))
                   /\ encodable (snd e)) echanges ->
  decode (contenu_de fichier) = Ok texte ->
  termine texte ->
  exists historique,
    charger_historique_persistant reserve fichier = Ok historique
    /\ charger_historique_persistant reserve
         (sauvegarder_serie echanges fichier)
       = Ok (historique
             ++ map (fun e => echange_de (snd (fst e)) (snd e)) echanges).
Proof.
  intros Henc. revert fichier texte.
  induction Henc as [|e l (Hm & Hq & Hr) _ IH]; intros fichier texte Hd Hc.
  - exists (flat_map (echanges_de_ligne reserve) (readlines texte [])).
    assert (H : charger_historique_persistant reserve fichier
                = Ok (flat_map (echanges_de_ligne reserve)
                        (readlines texte []))).
    { rewrite charger_contenu. apply charger_lignes. exact Hd. }
    split; [exact H|]. simpl. rewrite app_nil_r. exact H.
  - destruct (@charger_apres_sauvegarde reserve _ _ _ fichier texte
                Hm Hq Hr Hd Hc) as (Hd' & Hc' & _ & Hav & Hap).
    destruct (IH _ _ Hd' Hc') as (h' & Hh' & Hs).
    rewrite Hap in Hh'. injection Hh' as <-.
    eexists. split; [exact Hav|].
    cbn [sauvegarder_serie fold_left map].
    unfold sauvegarder_serie in Hs. rewrite Hs, <- app_assoc. reflexivity.
Qed.

(** A new session has the history of its log. *)
Lemma demarrer_a_jour (fichier : fichier_log) (s : session) :
  demarrer reserve fichier = Ok s -> a_jour reserve s /\ journal s = fichier.
Proof.
  unfold demarrer, a_jour.
  destruct (charger_historique_persistant reserve fichier) as [h|x] eqn:E;
    [|discriminate].
  intros H. injection H as <-. cbn [journal historique]. auto.
Qed.

(** X14. Lines 170-177, for a clock's string and a question that can be
    encoded, in a session whose history is what its log, finished, gives
    on a reload.  When the answer can be encoded it is shown, the
    exchange is appended to the history of the session and saved, and the
    history is again what the log gives.  When it cannot, showing it
    raises: neither the history of the session nor the log changes, and
    nothing is saved. *)
Theorem enregistrer_session
    (maintenant question answer : str) (s : session) (texte : str) :
  a_jour reserve s ->
  decode (contenu_de (journal s)) = Ok texte ->
  termine texte ->
  encodable maintenant -> encodable question ->
  (encodable answer ->
   exists s' texte',
     enregistrer maintenant question answer s = (s', Ok tt)
     /\ historique s' = historique s ++ [echange_de question answer]
     /\ a_jour reserve s'
     /\ decode (contenu_de (journal s')) = Ok texte'
     /\ termine texte')
  /\ (~ encodable answer ->
      fst (enregistrer maintenant question answer s) = s
      /\ raises (snd (enregistrer maintenant question answer s))).
Proof.
  intros Hsync Hd Hc Hm Hq. unfold enregistrer, st_markdown. split.
  - intros Ha. unfold encodable in Ha. rewrite Ha.
    destruct (@charger_apres_sauvegarde reserve _ _ _ (journal s) texte
                Hm Hq Ha Hd Hc) as (Hd' & Hc' & _ & Hav & Hap).
    unfold a_jour in *. rewrite Hsync in Hav. injection Hav as Hav.
    rewrite (sauvegarder_echange_ok (journal s) Hm Hq Ha) in *.
    cbn [fst snd] in *.
    eexists _, _. split; [reflexivity|].
    cbn [historique journal contenu_de].
    split; [reflexivity|]. split; [|split; eassumption].
    rewrite Hap, Hav. reflexivity.
  - intros Ha. unfold encodable in Ha.
    destruct (existsb surrogate answer); [|congruence].
    split; [reflexivity|]. eexists. reflexivity.
Qed.

End Serie.

Lemma sauvegarder_serie_charger_witness :
  let serie := [(lit "t1", lit "q1", lit "r1");
                (lit "t2", [10%N; 34%N], [92%N; 233%N])] in
  let fichier := Some (map Caractere (lit "pas du json" ++ [10%N])) in
  exists historique,
    charger_historique_persistant 0 fichier = Ok historique
    /\ charger_historique_persistant 0 (sauvegarder_serie serie fichier)
       = Ok (historique
             ++ map (fun e => echange_de (snd (fst e)) (snd e)) serie).
Proof.
  intros serie fichier.
  apply (@sauvegarder_serie_charger 0 serie fichier
           (lit "pas du json" ++ [10%N])).
  - repeat constructor.
  - reflexivity.
  - right. exists (lit "pas du json"). reflexivity.
Defined.

Lemma enregistrer_session_witness :
  let s := {| historique := []; journal := None |} in
  demarrer 0 None = Ok s
  /\ (exists s' texte',
        enregistrer (lit "t") (lit "q") (lit "r") s = (s', Ok tt)
        /\ historique s' = historique s ++ [echange_de (lit "q") (lit "r")]
        /\ a_jour 0 s'
        /\ decode (contenu_de (journal s')) = Ok texte'
        /\ termine texte')
  /\ (fst (enregistrer (lit "t") (lit "q") [55296%N] s) = s
      /\ raises (snd (enregistrer (lit "t") (lit "q") [55296%N] s))).
Proof.
  intros s. split; [reflexivity|]. split.
  - apply (proj1 (@enregistrer_session 0 (lit "t") (lit "q") (lit "r") s []
                    eq_refl eq_refl (or_introl eq_refl) eq_refl eq_refl)).
    reflexivity.
  - apply (proj2 (@enregistrer_session 0 (lit "t") (lit "q") [55296%N] s []
                    eq_refl eq_refl (or_introl eq_refl) eq_refl eq_refl)).
    discriminate.
Defined.

(** * The pages of the interface *)

Lemma enumerate_app {A} (l1 l2 : list A) (s : Z) :
  enumerate s (l1 ++ l2) = enumerate s l1 ++ enumerate (s + len l1) l2.
Proof.
  revert s. induction l1 as [|a l1 IH]; intros s; simpl.
  - unfold len. simpl. rewrite Z.add_0_r. reflexivity.
  - rewrite IH. do 3 f_equal. unfold len. simpl length. lia.
Qed.


Lemma boucle_page {A B} (f : A -> list B) (l : list A) (page : list B) :
  fold_left (fun page a => page ++ f a) l page = page ++ flat_map f l.
Proof.
  revert page. induction l as [|a l IH]; intros page; simpl.
  - rewrite app_nil_r. reflexivity.
  - rewrite IH, <- app_assoc. reflexivity.
Qed.



Example onglet_historique_exemple :
  onglet_historique [echange_de (lit "q1") (lit "r1");
                     echange_de (lit "q2") (lit "r2")]
  = [Titre_question 2; Texte_question (JString (lit "q2"));
     Texte_reponse (JString (lit "r2")); Separateur;
     Titre_question 1; Texte_question (JString (lit "q1"));
     Texte_reponse (JString (lit "r1")); Separateur;
     Telechargement [echange_de (lit "q1") (lit "r1");
                     echange_de (lit "q2") (lit "r2")]].
Proof. reflexivity. Qed.

(** *** The synthesis of a document *)

Lemma lstrip_decompose (s : str) :
  exists debut, s = debut ++ lstrip s /\ blanc debut = true.
Proof.
  induction s as [|c s (debut & Hs & Hb)]; [exists []; auto|].
  simpl. destruct (isspace c) eqn:E.
  - exists (c :: debut). simpl. rewrite E, Hb. rewrite <- Hs. auto.
  - exists []. auto.
Qed.

(** [strip] removes white space at both ends and nothing else. *)
Lemma strip_decompose (s : str) :
  exists debut fin,
    s = debut ++ strip s ++ fin /\ blanc debut = true /\ blanc fin = true.
Proof.
  destruct (lstrip_decompose s) as (debut & Hs & Hd).
  destruct (lstrip_decompose (rev (lstrip s))) as (nif & Hr & Hf).
  exists debut, (rev nif). unfold strip, rstrip.
  split; [|split; [exact Hd | rewrite blanc_rev; exact Hf]].
  rewrite <- rev_app_distr, <- Hr, rev_involutive. exact Hs.
Qed.

(** X16. A document is refused for synthesis when it has fewer than 100
    characters and when it is made of white space; a document that is
    accepted has at least 100 characters between the white space at its
    two ends. *)
Theorem document_vide_seuil (contenu : str) :
  (len contenu < 100 -> document_vide contenu = true)
  /\ (blanc contenu = true -> document_vide contenu = true)
  /\ (document_vide contenu = false ->
      exists debut coeur fin,
        contenu = debut ++ coeur ++ fin
        /\ blanc debut = true /\ blanc fin = true
        /\ coeur = strip contenu /\ 100 <= len coeur).
Proof.
  destruct (strip_decompose contenu) as (debut & fin & Hs & Hd & Hf).
  assert (Hl : len (strip contenu) <= len contenu).
  { pose proof (f_equal (@len N) Hs) as Hlen. rewrite !len_app in Hlen.
    pose proof (len_nonneg debut). pose proof (len_nonneg fin). lia. }
  unfold document_vide. split; [|split].
  - intros H. apply Z.ltb_lt. lia.
  - intros H. apply strip_nil in H. rewrite H. reflexivity.
  - intros H. apply Z.ltb_ge in H.
    exists debut, (strip contenu), fin. auto.
Qed.

(** X17. The prompt of a synthesis holds the first 10000 characters of
    the document, the whole document when it is not longer, between two
    fixed texts: its length never exceeds that of the prompt of an empty
    document by more than 10000. *)
Theorem prompt_synthese_borne (contenu : str) :
  let extrait := firstn (Z.to_nat 10000) contenu in
  prompt_synthese contenu
  = synthese_entete ++ extrait ++ [10%N; 10%N] ++ synthese_consigne
  /\ len extrait = Z.min (len contenu) 10000
  /\ (len contenu <= 10000 -> extrait = contenu)
  /\ len (prompt_synthese contenu) <= len (prompt_synthese []) + 10000.
Proof.
  intros extrait.
  assert (E : prompt_synthese contenu
              = synthese_entete ++ extrait ++ [10%N; 10%N]
                ++ synthese_consigne).
  { unfold prompt_synthese, extrait.
    rewrite <- (Z2Nat.id 10000) at 1 by lia.
    rewrite slice_to_firstn. reflexivity. }
  assert (L : len extrait = Z.min (len contenu) 10000).
  { unfold extrait, len. rewrite length_firstn. lia. }
  split; [exact E|]. split; [exact L|]. split.
  - intros H. apply firstn_all2. unfold len in H. lia.
  - rewrite E. unfold prompt_synthese.
    replace (slice_to (@nil N) 10000) with (@nil N) by reflexivity.
    rewrite !len_app, L. change (len (@nil N)) with 0. lia.
Qed.

(** *** The prompt of a question *)

(** X18. The prompt of a question is the fixed preamble, then each
    passage retrieved, in order, under its rank counted from one, then the
    question and the fixed closing instruction: every passage is in the
    prompt as it is, after the label of its rank. *)
Theorem prompt_question_passages
    (question : str) (passages_pertinents : list str) :
  prompt_question question passages_pertinents
  = prompt_entete
    ++ flat_map prompt_passage (enumerate 1 passages_pertinents)
    ++ lit "Question : " ++ question ++ [10%N] ++ prompt_consigne
  /\ forall i p,
       nth_error passages_pertinents i = Some p ->
       exists avant apres,
         prompt_question question passages_pertinents
         = avant ++ lit "Passage " ++ str_int (Z.of_nat i + 1) ++ lit " :"
           ++ [10%N] ++ p ++ [10%N; 10%N] ++ apres.
Proof.
  assert (E : prompt_question question passages_pertinents
              = prompt_entete
                ++ flat_map prompt_passage (enumerate 1 passages_pertinents)
                ++ lit "Question : " ++ question ++ [10%N]
                ++ prompt_consigne).
  { unfold prompt_question. rewrite boucle_page.
    rewrite <- !app_assoc. reflexivity. }
  split; [exact E|].
  intros i p Hi. apply nth_error_split in Hi.
  destruct Hi as (l1 & l2 & Hl & Hlen).
  exists (prompt_entete ++ flat_map prompt_passage (enumerate 1 l1)),
         (flat_map prompt_passage (enumerate (1 + len l1 + 1) l2)
          ++ lit "Question : " ++ question ++ [10%N] ++ prompt_consigne).
  rewrite E, Hl, enumerate_app. cbn [enumerate].
  rewrite flat_map_app. cbn [flat_map]. unfold prompt_passage at 2.
  cbn [fst snd].
  replace (1 + len l1) with (Z.of_nat i + 1) by (unfold len; lia).
  rewrite <- !app_assoc. reflexivity.
Qed.

Example prompt_question_exemple :
  prompt_question (lit "Quoi ?") [lit "un"; lit "deux"]
  = prompt_entete
    ++ lit "Passage 1 :" ++ [10%N] ++ lit "un" ++ [10%N; 10%N]
    ++ lit "Passage 2 :" ++ [10%N] ++ lit "deux" ++ [10%N; 10%N]
    ++ lit "Question : Quoi ?" ++ [10%N] ++ prompt_consigne.
Proof. vm_compute. reflexivity. Qed.
